(** * Verification of the NSGA-II keyboard-layout optimizer

    Shallow embedding of [pareto_optimizer.py].

    Modelling conventions.
    - A Python [str] is a list of Unicode code points ([char := N]); the
      letters of the layout all have code points below 256.
    - Python [int] is [Z].  Python [float] values are modelled by exact
      rationals [Q]; [float('inf')] is the extra constructor [Inf] of
      [fdist].  Rounding is not modelled.
    - A position dict [{'row': r, 'col': c, 'finger': f}] is never written
      to after its creation, so it is the immutable record [Position].
    - A layout dict (character -> position dict) and a [Layout] object are
      mutable Python objects: they live in a [store] and are handled
      through references ([loc]).  A list of genomes is a list of
      references, so the same object can be listed twice; the theorems on
      the non-dominated sort say where they need distinct objects.
    - [random.shuffle], [random.sample] and [random.random] are replaced by
      explicit arguments holding the values they returned.
    - Exceptions are the [Raise] results of [result]; the metric evaluator
      also logs what it executes ([traced]). *)

From Stdlib Require Import ZArith QArith Lqa List Ascii String Lia.
From stdpp Require Import base gmap list sorting.

Open Scope Z_scope.

(** ** Characters and strings *)

Definition char := N.
Definition pystr := list char.

Definition ch (a : ascii) : char := N_of_ascii a.
Definition str (s : string) : pystr := map ch (list_ascii_of_string s).

Definition SPACE : char := ch " ".

(** ** Exceptions and the evaluation log *)

Inductive exn := ZeroDivisionError | IndexError.

(** [OutOfFuel] is not a Python outcome: it is what a fuel-bounded model of a
    [while] loop returns when its bound is reached.  The theorems below show
    that the bounds used are never reached. *)
Inductive result (A : Type) : Type :=
| Ok (a : A)
| Raise (e : exn)
| OutOfFuel.
Arguments Ok {A} a.
Arguments Raise {A} e.
Arguments OutOfFuel {A}.

(** What the metric evaluator does, in execution order: one [EvVisit] per
    iteration of the accumulation loop over [bigrams.items()], one
    [EvDivide] per percentage division that is executed. *)
Inductive event :=
| EvVisit (bigram : pystr) (count : Z)
| EvDivide (num : Q) (den : Z).

Definition traced (A : Type) : Type := (list event * result A)%type.

Global Instance traced_ret : MRet traced := fun A a => ([], Ok a).

Global Instance traced_bind : MBind traced := fun A B f m =>
  match m with
  | (t, Ok a) => let '(t', r) := f a in (t ++ t', r)
  | (t, Raise e) => (t, Raise e)
  | (t, OutOfFuel) => (t, OutOfFuel)
  end.

Definition throw {A} (e : exn) : traced A := ([], Raise e).
Definition tell (ev : event) : traced unit := ([ev], Ok tt).

Fixpoint foldM {A B} (f : A -> B -> traced A) (l : list B) (a : A) : traced A :=
  match l with
  | [] => mret a
  | b :: l' => a' ← f a b; foldM f l' a'
  end.

Definition trace_of {A} (m : traced A) : list event := fst m.
Definition outcome {A} (m : traced A) : result A := snd m.

(** ** Data model *)

Record Position := mkPos { row : Z; col : Z; finger : Z }.

Global Instance Position_eq_dec : EqDecision Position.
Proof. solve_decision. Defined.

Record LayoutMetrics := mkMetrics {
  sfb : Q;
  scissors : Q;
  lat_stretch : Q;
  skip_bigrams : Q
}.

(** ** BigramModel: [calculate_bigrams_from_words] *)

(** [bigrams] is a Python dict; its insertion order is the iteration order of
    [bigrams.items()], so it is kept as an association list. *)
Definition bigram_table := list (pystr * Z).

(** [if bigram not in bigrams: bigrams[bigram] = 0] followed by
    [bigrams[bigram] += count]. *)
Fixpoint dict_add (bigram : pystr) (count : Z) (bigrams : bigram_table) : bigram_table :=
  match bigrams with
  | [] => [(bigram, 0 + count)]
  | (k, v) :: rest =>
      if decide (k = bigram) then (k, v + count) :: rest
      else (k, v) :: dict_add bigram count rest
  end.

(** [s[i:i+2]] *)
Definition slice2 (s : pystr) (i : nat) : pystr := take 2 (drop i s).

Definition add_word (acc : bigram_table * Z) (entry : pystr * Z) : bigram_table * Z :=
  let '(bigrams, total_length) := acc in
  let '(word, count) := entry in
  let word_with_spaces := [SPACE] ++ word ++ [SPACE] in
  let bigrams' :=
    fold_left (fun b i => dict_add (slice2 word_with_spaces i) count b)
              (seq 0 (length word_with_spaces - 1)) bigrams in
  (bigrams', total_length + (Z.of_nat (length word) + 1) * count).

Definition calculate_bigrams_from_words (words : list (pystr * Z)) : bigram_table * Z :=
  fold_left add_word words ([], 0).

(** ** MetricEvaluator: [calculate_metrics] *)

Record counters := mkCounters {
  sfb_acc : Z;
  scissors_acc : Z;
  lat_str_acc : Q;
  wide_scissors_acc : Z
}.

Definition add_sfb (c : counters) (n : Z) : counters :=
  mkCounters (sfb_acc c + n) (scissors_acc c) (lat_str_acc c) (wide_scissors_acc c).
Definition add_scissors (c : counters) (n : Z) : counters :=
  mkCounters (sfb_acc c) (scissors_acc c + n) (lat_str_acc c) (wide_scissors_acc c).
Definition add_wide (c : counters) (n : Z) : counters :=
  mkCounters (sfb_acc c) (scissors_acc c) (lat_str_acc c) (wide_scissors_acc c + n).
Definition add_lat (c : counters) (q : Q) : counters :=
  mkCounters (sfb_acc c) (scissors_acc c) (lat_str_acc c + q)%Q (wide_scissors_acc c).

(** The body shared by the two hand branches (lines 195-207 and 211-223):
    [near] is the inner index column of the hand, [far1] the column whose
    pairing costs a full count and [far2] the one that costs half. *)
Definition hand_rows (near far1 far2 : Z) (p1 p2 : Position) (count : Z)
    (c : counters) : counters :=
  if (row p1 <=? 2) && (row p2 <=? 2) then
    let c1 :=
      if Z.abs (row p1 - row p2) =? 2 then
        if Z.abs (col p1 - col p2) =? 1 then add_scissors c count
        else add_wide c count
      else c in
    let c2 :=
      if ((col p1 =? near) && (col p2 =? far1)) || ((col p1 =? far1) && (col p2 =? near))
      then add_lat c1 (inject_Z count) else c1 in
    if ((col p1 =? near) && (col p2 =? far2)) || ((col p1 =? far2) && (col p2 =? near))
    then add_lat c2 (inject_Z count / 2)%Q else c2
  else c.

Definition classify (char1 char2 : char) (p1 p2 : Position) (count : Z)
    (c : counters) : counters :=
  if (finger p1 =? finger p2) && negb (char1 =? char2)%N then add_sfb c count
  else if negb (finger p1 =? finger p2) then
    if (col p1 <=? 5) && (col p2 <=? 5) then hand_rows 5 3 2 p1 p2 count c
    else if (col p1 >=? 6) && (col p2 >=? 6) then hand_rows 6 8 9 p1 p2 count c
    else c
  else c.

(** One iteration of [for bigram, count in bigrams.items()]. *)
Definition metric_step (layout : gmap char Position) (c : counters)
    (entry : pystr * Z) : counters :=
  let '(bigram, count) := entry in
  match bigram with
  | [char1; char2] =>
      match layout !! char1, layout !! char2 with
      | Some p1, Some p2 => classify char1 char2 p1 p2 count c
      | _, _ => c
      end
  | _ => c
  end.

Definition visit (layout : gmap char Position) (c : counters)
    (entry : pystr * Z) : traced counters :=
  tell (EvVisit (fst entry) (snd entry));; mret (metric_step layout c entry).

(** [(acc * 100.0) / total_length]; Python raises on a zero divisor. *)
Definition percent (acc : Q) (total_length : Z) : traced Q :=
  tell (EvDivide (acc * 100)%Q total_length);;
  if total_length =? 0 then throw ZeroDivisionError
  else mret ((acc * 100) / inject_Z total_length)%Q.

Definition calculate_metrics (layout : gmap char Position)
    (bigrams : bigram_table) (total_length : Z) : traced LayoutMetrics :=
  c ← foldM (visit layout) bigrams (mkCounters 0 0 0%Q 0);
  sfb_pct ← percent (inject_Z (sfb_acc c)) total_length;
  scissors_pct ← percent (inject_Z (scissors_acc c)) total_length;
  lat_str_pct ← percent (lat_str_acc c) total_length;
  let skip_bigrams_pct := scissors_pct in
  mret (mkMetrics sfb_pct scissors_pct lat_str_pct skip_bigrams_pct).

(** ** Genomes and the object store *)

Definition loc := positive.

(** [crowding_distance] is a float that may be [float('inf')]. *)
Inductive fdist :=
| Fin (q : Q)
| Inf.

(** The dataclass [Layout].  [positions] is a reference to the layout dict.
    [domination_count] and [dominated_solutions] are the attributes that
    [fast_non_dominated_sort] attaches to every member of the population
    before it reads them. *)
Record Layout := mkLayout {
  positions : loc;
  english_metrics : LayoutMetrics;
  finnish_metrics : LayoutMetrics;
  weighted_score : Q;
  rank : Z;
  crowding_distance : fdist;
  domination_count : Z;
  dominated_solutions : list nat
}.

Global Instance Q_inhabited : Inhabited Q := populate 0%Q.
Global Instance LayoutMetrics_inhabited : Inhabited LayoutMetrics :=
  populate (mkMetrics 0 0 0 0).
Global Instance Layout_inhabited : Inhabited Layout :=
  populate (mkLayout 1%positive inhabitant inhabitant 0 0 (Fin 0) 0 []).

Record store := mkStore {
  dicts : gmap loc (gmap char Position);
  layouts : gmap loc Layout
}.

Definition alloc_dict (st : store) (d : gmap char Position) : store * loc :=
  let l := fresh (dom (dicts st)) in
  (mkStore (<[l := d]> (dicts st)) (layouts st), l).

Definition alloc_layout (st : store) (L : Layout) : store * loc :=
  let l := fresh (dom (layouts st)) in
  (mkStore (dicts st) (<[l := L]> (layouts st)), l).

(** ** The optimizer object *)

(** The entries of [self.base_layout]: the eleven [fixed_letters] and the
    space key. *)
Definition anchors : list (char * Position) := [
    (ch "n", mkPos 1 1 1);
    (ch "r", mkPos 1 2 2);
    (ch "s", mkPos 1 3 3);
    (ch "t", mkPos 1 4 4);
    (ch "h", mkPos 1 7 7);
    (ch "e", mkPos 1 8 8);
    (ch "a", mkPos 1 9 9);
    (ch "i", mkPos 1 10 10);
    (ch "u", mkPos 0 8 8);
    (ch "o", mkPos 0 9 9);
    (ch "y", mkPos 0 10 10);
    (SPACE, mkPos 3 6 6)
  ].

Definition base_layout : gmap char Position := list_to_map anchors.

Definition moveable_positions : list Position := [
  mkPos 0 1 1; mkPos 0 2 2; mkPos 0 3 3; mkPos 0 4 4;
  mkPos 0 5 4; mkPos 0 6 7; mkPos 0 7 7; mkPos 0 11 10;
  mkPos 1 0 1; mkPos 1 5 4; mkPos 1 6 7; mkPos 1 11 10;
  mkPos 2 0 1; mkPos 2 1 1; mkPos 2 2 2; mkPos 2 3 3;
  mkPos 2 4 4; mkPos 2 5 4; mkPos 2 6 7; mkPos 2 7 7;
  mkPos 2 8 8; mkPos 2 9 9; mkPos 2 10 10; mkPos 2 11 10
].

(** ['ö'] is U+00F6 and ['ä'] is U+00E4. *)
Definition moveable_letters : list char := [
  ch "q"; ch "l"; ch "c"; ch "m"; ch "k"; ch "'"; ch "f"; 246%N;
  ch "-"; ch "w"; ch "p"; 228%N;
  ch "\"; ch "j"; ch "x"; ch "z"; ch "g"; ch "v"; ch "b"; ch "d";
  ch ";"; ch ","; ch "."; ch "/"
].

(** The fields that [load_language_data] stores on [self]. *)
Record optimizer := mkOptimizer {
  english_bigrams : bigram_table;
  english_total : Z;
  finnish_bigrams : bigram_table;
  finnish_total : Z
}.

Definition load_language_data (english_words finnish_words : list (pystr * Z))
    : optimizer :=
  let '(eb, et) := calculate_bigrams_from_words english_words in
  let '(fb, ft) := calculate_bigrams_from_words finnish_words in
  mkOptimizer eb et fb ft.

(** ** [create_random_layout]

    [shuffled_letters] and [shuffled_positions] are the two lists after
    [random.shuffle].  The position dicts of [moveable_positions] are shared
    by reference between layouts in the source; nothing writes to them. *)
Definition assign_shuffled (shuffled_letters : list char)
    (shuffled_positions : list Position) : gmap char Position :=
  fold_left (fun layout lp => <[lp.1 := lp.2]> layout)
            (zip shuffled_letters shuffled_positions) base_layout.

Definition create_random_layout (st : store) (shuffled_letters : list char)
    (shuffled_positions : list Position) : store * loc :=
  alloc_dict st (assign_shuffled shuffled_letters shuffled_positions).

(** ** [evaluate_layout] *)

Definition evaluate_layout (self : optimizer) (st : store)
    (layout_positions : loc) : traced (store * loc) :=
  let d := dicts st !!! layout_positions in
  em ← calculate_metrics d (english_bigrams self) (english_total self);
  fm ← calculate_metrics d (finnish_bigrams self) (finnish_total self);
  let english_score := (sfb em + scissors em + lat_stretch em)%Q in
  let finnish_score := (sfb fm + scissors fm + lat_stretch fm)%Q in
  let weighted := (0.8 * english_score + 0.2 * finnish_score)%Q in
  mret (alloc_layout st (mkLayout layout_positions em fm weighted 0 (Fin 0) 0 [])).

(** ** [mutate_layout]

    [idx1] and [idx2] are the two indices returned by
    [random.sample(range(len(moveable_chars)), 2)]. *)
Definition moveable_chars_of (new_positions : gmap char Position) : list char :=
  filter (fun c => is_Some (new_positions !! c)) moveable_letters.

Definition swap_mutation (new_positions : gmap char Position)
    (idx1 idx2 : nat) : result (gmap char Position) :=
  let moveable_chars := moveable_chars_of new_positions in
  if bool_decide (2 <= length moveable_chars)%nat then
    match moveable_chars !! idx1, moveable_chars !! idx2 with
    | Some char1, Some char2 =>
        match new_positions !! char2, new_positions !! char1 with
        | Some p2, Some p1 =>
            Ok (<[char2 := p1]> (<[char1 := p2]> new_positions))
        | _, _ => Ok new_positions
        end
    | _, _ => Raise IndexError
    end
  else Ok new_positions.

Definition lift {A} (r : result A) : traced A := ([], r).

Definition mutate_layout (self : optimizer) (st : store) (layout : loc)
    (idx1 idx2 : nat) : traced (store * loc) :=
  let parent := layouts st !!! layout in
  (* new_positions = deepcopy(layout.positions) *)
  let '(st1, new_positions) := alloc_dict st (dicts st !!! positions parent) in
  swapped ← lift (swap_mutation (dicts st1 !!! new_positions) idx1 idx2);
  let st2 := mkStore (<[new_positions := swapped]> (dicts st1)) (layouts st1) in
  evaluate_layout self st2 new_positions.

(** ** Attribute writes on [Layout] objects *)

Definition set_rank (r : Z) (L : Layout) : Layout :=
  mkLayout (positions L) (english_metrics L) (finnish_metrics L) (weighted_score L)
           r (crowding_distance L) (domination_count L) (dominated_solutions L).
Definition set_crowding_distance (d : fdist) (L : Layout) : Layout :=
  mkLayout (positions L) (english_metrics L) (finnish_metrics L) (weighted_score L)
           (rank L) d (domination_count L) (dominated_solutions L).
Definition set_domination_count (n : Z) (L : Layout) : Layout :=
  mkLayout (positions L) (english_metrics L) (finnish_metrics L) (weighted_score L)
           (rank L) (crowding_distance L) n (dominated_solutions L).
Definition set_dominated_solutions (ds : list nat) (L : Layout) : Layout :=
  mkLayout (positions L) (english_metrics L) (finnish_metrics L) (weighted_score L)
           (rank L) (crowding_distance L) (domination_count L) ds.

(** [obj.attr = f(obj)] for the object at [l]. *)
Definition update (f : Layout -> Layout) (l : loc) (h : gmap loc Layout)
    : gmap loc Layout :=
  <[l := f (h !!! l)]> h.

(** ** [Layout.dominates] *)

Definition Qlt_bool (x y : Q) : bool := negb (Qle_bool y x).

Definition objective_vector (l : Layout) : list Q := [
  sfb (english_metrics l); scissors (english_metrics l);
  lat_stretch (english_metrics l); skip_bigrams (english_metrics l);
  sfb (finnish_metrics l); scissors (finnish_metrics l);
  lat_stretch (finnish_metrics l); skip_bigrams (finnish_metrics l)
].

Definition dominates (self other : Layout) : bool :=
  let self_obj := objective_vector self in
  let other_obj := objective_vector other in
  let better_or_equal :=
    forallb (fun so => Qle_bool so.1 so.2) (zip self_obj other_obj) in
  let strictly_better :=
    existsb (fun so => Qlt_bool so.1 so.2) (zip self_obj other_obj) in
  better_or_equal && strictly_better.

(** ** [fast_non_dominated_sort] *)

Definition enumerate {A} (l : list A) : list (nat * A) :=
  zip (seq 0 (length l)) l.

(** Body of [for j, layout_j in enumerate(population)]. *)
Definition compare_with (layout_i : loc) (h : gmap loc Layout)
    (jl : nat * loc) : gmap loc Layout :=
  let '(j, layout_j) := jl in
  if dominates (h !!! layout_i) (h !!! layout_j) then
    update (fun L => set_dominated_solutions (dominated_solutions L ++ [j]) L) layout_i h
  else if dominates (h !!! layout_j) (h !!! layout_i) then
    update (fun L => set_domination_count (domination_count L + 1) L) layout_i h
  else h.

(** Body of [for i, layout_i in enumerate(population)]; the second component
    is [fronts[0]]. *)
Definition scan (population : list loc) (acc : gmap loc Layout * list loc)
    (layout_i : loc) : gmap loc Layout * list loc :=
  let '(h, front0) := acc in
  let h1 := update (set_domination_count 0) layout_i h in
  let h2 := update (set_dominated_solutions []) layout_i h1 in
  let h3 := fold_left (compare_with layout_i) (enumerate population) h2 in
  if domination_count (h3 !!! layout_i) =? 0 then
    (update (set_rank 0) layout_i h3, front0 ++ [layout_i])
  else (h3, front0).

(** Body of [for j in layout_i.dominated_solutions]. *)
Definition relax (population : list loc) (front_index : nat)
    (acc : gmap loc Layout * list loc) (j : nat) : gmap loc Layout * list loc :=
  let '(h, next_front) := acc in
  let pj := population !!! j in
  let h1 := update (fun L => set_domination_count (domination_count L - 1) L) pj h in
  if domination_count (h1 !!! pj) =? 0 then
    (update (set_rank (Z.of_nat front_index + 1)) pj h1, next_front ++ [pj])
  else (h1, next_front).

(** Body of the [while] loop, up to [fronts.append(next_front)]. *)
Definition peel_front (population : list loc) (front_index : nat)
    (h : gmap loc Layout) (front : list loc) : gmap loc Layout * list loc :=
  fold_left
    (fun acc layout_i =>
       fold_left (relax population front_index)
                 (dominated_solutions (acc.1 !!! layout_i)) acc)
    front (h, []).

Fixpoint peel (fuel : nat) (population : list loc) (h : gmap loc Layout)
    (fronts : list (list loc)) (front_index : nat)
    : result (gmap loc Layout * list (list loc)) :=
  match fuel with
  | O => OutOfFuel
  | S fuel' =>
      if bool_decide (0 < length (fronts !!! front_index))%nat then
        let '(h', next_front) :=
          peel_front population front_index h (fronts !!! front_index) in
        peel fuel' population h' (fronts ++ [next_front]) (S front_index)
      else Ok (h, fronts)
  end.

Definition fast_non_dominated_sort (h : gmap loc Layout) (population : list loc)
    : result (gmap loc Layout * list (list loc)) :=
  let '(h1, front0) := fold_left (scan population) population (h, []) in
  match peel (S (length population)) population h1 [front0] 0 with
  | Ok (h2, fronts) => Ok (h2, removelast fronts)
  | Raise e => Raise e
  | OutOfFuel => OutOfFuel
  end.

(** ** [calculate_crowding_distance] *)

(** [list.sort] is stable: elements with equal keys keep their order.
    [before x y] says that [x] may stand before [y]. *)
Fixpoint insert_sorted {A} (before : A -> A -> bool) (x : A) (l : list A) : list A :=
  match l with
  | [] => [x]
  | y :: l' => if before x y then x :: y :: l' else y :: insert_sorted before x l'
  end.

Definition stable_sort {A} (before : A -> A -> bool) (l : list A) : list A :=
  fold_right (insert_sorted before) [] l.

(** [l.sort(key=key)] for a float key. *)
Definition sort_by_key {A} (key : A -> Q) (l : list A) : list A :=
  stable_sort (fun x y => Qle_bool (key x) (key y)) l.

Definition py_max (l : list Q) : Q :=
  match l with
  | [] => 0%Q
  | x :: l' => fold_left (fun m y => if Qlt_bool m y then y else m) l' x
  end.

Definition py_min (l : list Q) : Q :=
  match l with
  | [] => 0%Q
  | x :: l' => fold_left (fun m y => if Qlt_bool y m then y else m) l' x
  end.

Definition objectives : list (Layout -> Q) := [
  fun l => sfb (english_metrics l);
  fun l => scissors (english_metrics l);
  fun l => lat_stretch (english_metrics l);
  fun l => skip_bigrams (english_metrics l);
  fun l => sfb (finnish_metrics l);
  fun l => scissors (finnish_metrics l);
  fun l => lat_stretch (finnish_metrics l);
  fun l => skip_bigrams (finnish_metrics l)
].

(** [crowding_distance += distance] *)
Definition fdist_add (d : fdist) (q : Q) : fdist :=
  match d with
  | Fin a => Fin (a + q)%Q
  | Inf => Inf
  end.

(** Body of [for i in range(1, len(front) - 1)]. *)
Definition add_distance (front : list loc) (obj_values : list Q) (obj_range : Q)
    (h : gmap loc Layout) (i : nat) : gmap loc Layout :=
  let distance :=
    ((obj_values !!! (i + 1)%nat - obj_values !!! (i - 1)%nat) / obj_range)%Q in
  update (fun L => set_crowding_distance (fdist_add (crowding_distance L) distance) L)
         (front !!! i) h.

(** Body of [for obj_func in objectives]; [front] is sorted in place, so the
    new order of the list is returned with the store. *)
Definition crowd_objective (acc : gmap loc Layout * list loc)
    (obj_func : Layout -> Q) : gmap loc Layout * list loc :=
  let '(h, front) := acc in
  let front := sort_by_key (fun l => obj_func (h !!! l)) front in
  let h := update (set_crowding_distance Inf) (front !!! 0%nat) h in
  let h := update (set_crowding_distance Inf) (front !!! (length front - 1)%nat) h in
  let obj_values := map (fun l => obj_func (h !!! l)) front in
  let obj_range := (py_max obj_values - py_min obj_values)%Q in
  if Qlt_bool 0 obj_range then
    (fold_left (add_distance front obj_values obj_range)
               (seq 1 (length front - 2)) h, front)
  else (h, front).

Definition calculate_crowding_distance (h : gmap loc Layout) (front : list loc)
    : gmap loc Layout * list loc :=
  if bool_decide (length front <= 2)%nat then
    (fold_left (fun h layout => update (set_crowding_distance Inf) layout h) front h,
     front)
  else
    let h :=
      fold_left (fun h layout => update (set_crowding_distance (Fin 0)) layout h)
                front h in
    fold_left crowd_objective objectives (h, front).

(** ** One generation of [optimize] *)

(** [float] comparison extended to [float('inf')]. *)
Definition fdist_le (a b : fdist) : bool :=
  match a, b with
  | _, Inf => true
  | Inf, Fin _ => false
  | Fin x, Fin y => Qle_bool x y
  end.

(** The loop [while len(new_population) + len(fronts[front_index]) <=
    population_size].  [rest] is [fronts[front_index:]]: when it is empty,
    [fronts[front_index]] is out of range. *)
Fixpoint take_whole_fronts (rest : list (list loc)) (population_size : nat)
    (new_population : list loc) : result (list loc * list (list loc)) :=
  match rest with
  | [] => Raise IndexError
  | front :: rest' =>
      if bool_decide (length new_population + length front <= population_size)%nat
      then take_whole_fronts rest' population_size (new_population ++ front)
      else Ok (new_population, rest)
  end.

(** Lines 388-401: the truncation to the next generation. *)
Definition select_next_generation (h : gmap loc Layout)
    (fronts : list (list loc)) (population_size : nat) : result (list loc) :=
  match take_whole_fronts fronts population_size [] with
  | Ok (new_population, rest) =>
      if bool_decide (length new_population < population_size)%nat then
        match rest with
        | remaining_front :: _ =>
            let sorted :=
              stable_sort
                (fun x y => fdist_le (crowding_distance (h !!! y))
                                     (crowding_distance (h !!! x)))
                remaining_front in
            Ok (new_population ++ take (population_size - length new_population) sorted)
        | [] => Raise IndexError
        end
      else Ok new_population
  | Raise e => Raise e
  | OutOfFuel => OutOfFuel
  end.

(** Lines 371-375.  [draws] holds, for each member of the population in
    order, [None] when [random.random() < 0.8] was false and [Some (idx1,
    idx2)] when it was true and [random.sample] returned [idx1, idx2]. *)
Fixpoint make_offspring (self : optimizer) (st : store) (population : list loc)
    (draws : list (option (nat * nat))) : traced (store * list loc) :=
  match population, draws with
  | layout :: population', Some (idx1, idx2) :: draws' =>
      '(st1, mutated) ← mutate_layout self st layout idx1 idx2;
      '(st2, offspring) ← make_offspring self st1 population' draws';
      mret (st2, mutated :: offspring)
  | _ :: population', _ :: draws' => make_offspring self st population' draws'
  | _, _ => mret (st, [])
  end.

(** Lines 384-385: the crowding distance of every front, in order. *)
Definition crowd_all (h : gmap loc Layout) (fronts : list (list loc))
    : gmap loc Layout * list (list loc) :=
  fold_left
    (fun acc front =>
       let '(h', front') := calculate_crowding_distance acc.1 front in
       (h', acc.2 ++ [front']))
    fronts (h, []).

(** Lines 370-401: one iteration of [for generation in range(generations)],
    up to [population = new_population]. *)
Definition generation (self : optimizer) (st : store) (population : list loc)
    (draws : list (option (nat * nat))) (population_size : nat)
    : traced (store * list loc) :=
  '(st1, offspring) ← make_offspring self st population draws;
  let combined_population := population ++ offspring in
  '(h2, fronts) ← lift (fast_non_dominated_sort (layouts st1) combined_population);
  let '(h3, fronts') := crowd_all h2 fronts in
  new_population ← lift (select_next_generation h3 fronts' population_size);
  mret (mkStore (dicts st1) h3, new_population).

(** Lines 409-417: the value that [optimize] returns, computed from the
    population left by the last generation. *)
Definition pareto_front (h : gmap loc Layout) (population : list loc)
    : result (gmap loc Layout * list loc) :=
  match fast_non_dominated_sort h population with
  | Ok (h', final_fronts) =>
      let pareto_front := match final_fronts with F :: _ => F | [] => [] end in
      Ok (h', sort_by_key (fun l => weighted_score (h' !!! l)) pareto_front)
  | Raise e => Raise e
  | OutOfFuel => OutOfFuel
  end.

(** ** [optimize]

    The random choices are arguments.  [shuffles] holds, for each initial
    genome, the two lists left by [random.shuffle]: [population_size] is
    their number.  [all_draws] holds the mutation draws of each generation:
    [generations] is their number. *)
Fixpoint init_population (self : optimizer) (st : store)
    (shuffles : list (list char * list Position)) : traced (store * list loc) :=
  match shuffles with
  | [] => mret (st, [])
  | (shuffled_letters, shuffled_positions) :: shuffles' =>
      let '(st1, layout_positions) :=
        create_random_layout st shuffled_letters shuffled_positions in
      '(st2, layout) ← evaluate_layout self st1 layout_positions;
      '(st3, population) ← init_population self st2 shuffles';
      mret (st3, layout :: population)
  end.

(** [optimize] raises what the methods it calls raise and, from [min] of an
    empty sequence at line 404, ValueError. *)
Inductive optimize_exn := Callee (e : exn) | ValueError.

Inductive optimize_result (A : Type) : Type :=
| Returns (a : A)
| Raises (e : optimize_exn)
| Unfinished.
Arguments Returns {A} a.
Arguments Raises {A} e.
Arguments Unfinished {A}.

(** The loop [for generation in range(generations)].  [best_weighted_score]
    is only printed; [current_best] is computed by [min], which needs a
    non-empty population. *)
Fixpoint run_generations (self : optimizer) (st : store) (population : list loc)
    (all_draws : list (list (option (nat * nat)))) (population_size : nat)
    : list event * optimize_result (store * list loc) :=
  match all_draws with
  | [] => ([], Returns (st, population))
  | draws :: all_draws' =>
      match generation self st population draws population_size with
      | (t, Ok (st1, new_population)) =>
          match new_population with
          | [] => (t, Raises ValueError)
          | _ :: _ =>
              let '(t', r) :=
                run_generations self st1 new_population all_draws' population_size in
              (t ++ t', r)
          end
      | (t, Raise e) => (t, Raises (Callee e))
      | (t, OutOfFuel) => (t, Unfinished)
      end
  end.

Definition optimize (self : optimizer) (st : store)
    (shuffles : list (list char * list Position))
    (all_draws : list (list (option (nat * nat))))
    : list event * optimize_result (store * list loc) :=
  let population_size := length shuffles in
  match init_population self st shuffles with
  | (t, Ok (st0, population)) =>
      match run_generations self st0 population all_draws population_size with
      | (t', Returns (st1, final_population)) =>
          match pareto_front (layouts st1) final_population with
          | Ok (h, returned) => (t ++ t', Returns (mkStore (dicts st1) h, returned))
          | Raise e => (t ++ t', Raises (Callee e))
          | OutOfFuel => (t ++ t', Unfinished)
          end
      | (t', Raises e) => (t ++ t', Raises e)
      | (t', Unfinished) => (t ++ t', Unfinished)
      end
  | (t, Raise e) => (t, Raises (Callee e))
  | (t, OutOfFuel) => (t, Unfinished)
  end.

(** ** [main]: the grid written for each returned layout

    Lines 430-434.  [items] is [layout.positions.items()] in the order of the
    dict; cells are strings, [''] is the empty list. *)

(** A Python list index: negative indices count from the end. *)
Definition py_index (len : nat) (i : Z) : option nat :=
  if (0 <=? i) && (i <? Z.of_nat len) then Some (Z.to_nat i)
  else if (- Z.of_nat len <=? i) && (i <? 0) then Some (Z.to_nat (i + Z.of_nat len))
  else None.

(** [layout_grid[r][c] = s] *)
Definition set_cell (layout_grid : list (list pystr)) (r c : Z) (s : pystr)
    : result (list (list pystr)) :=
  match py_index (length layout_grid) r with
  | Some i =>
      match py_index (length (layout_grid !!! i)) c with
      | Some j => Ok (<[i := <[j := s]> (layout_grid !!! i)]> layout_grid)
      | None => Raise IndexError
      end
  | None => Raise IndexError
  end.

(** Body of [for char, pos in layout.positions.items()]. *)
Definition grid_step (layout_grid : list (list pystr)) (item : char * Position)
    : result (list (list pystr)) :=
  let '(char, pos) := item in
  if negb (char =? SPACE)%N && (row pos <? 3) then
    set_cell layout_grid (row pos) (col pos) [char]
  else Ok layout_grid.

Fixpoint fill_grid (items : list (char * Position)) (layout_grid : list (list pystr))
    : result (list (list pystr)) :=
  match items with
  | [] => Ok layout_grid
  | item :: items' =>
      match grid_step layout_grid item with
      | Ok layout_grid' => fill_grid items' layout_grid'
      | Raise e => Raise e
      | OutOfFuel => OutOfFuel
      end
  end.

(** [[[''] * 12 for _ in range(3)]] filled from the items. *)
Definition layout_grid (items : list (char * Position)) : result (list (list pystr)) :=
  fill_grid items (replicate 3 (replicate 12 [])).

(** * Properties *)

(** ** The metric evaluator *)

Definition visit_event (entry : pystr * Z) : event := EvVisit entry.1 entry.2.

Lemma foldM_visit layout bigrams c :
  foldM (visit layout) bigrams c =
  (map visit_event bigrams, Ok (fold_left (metric_step layout) bigrams c)).
Proof.
  revert c. induction bigrams as [|e bigrams IH]; intros c; [reflexivity|].
  cbn [foldM]. unfold mbind, traced_bind, visit, tell, mret, traced_ret.
  cbn. unfold mbind, traced_bind in IH. rewrite IH. reflexivity.
Qed.

Definition accumulate (layout : gmap char Position) (bigrams : bigram_table) : counters :=
  fold_left (metric_step layout) bigrams (mkCounters 0 0 0%Q 0).

Lemma calculate_metrics_nonzero layout bigrams total_length :
  total_length <> 0 ->
  outcome (calculate_metrics layout bigrams total_length) =
  let c := accumulate layout bigrams in
  Ok (mkMetrics (inject_Z (sfb_acc c) * 100 / inject_Z total_length)%Q
                (inject_Z (scissors_acc c) * 100 / inject_Z total_length)%Q
                (lat_str_acc c * 100 / inject_Z total_length)%Q
                (inject_Z (scissors_acc c) * 100 / inject_Z total_length)%Q).
Proof.
  intros Hnz. unfold calculate_metrics, outcome.
  unfold mbind, traced_bind. rewrite foldM_visit.
  unfold percent, tell, mbind, traced_bind, mret, traced_ret, throw.
  apply Z.eqb_neq in Hnz. rewrite Hnz. reflexivity.
Qed.

Lemma calculate_metrics_zero layout bigrams :
  calculate_metrics layout bigrams 0 =
  (map visit_event bigrams ++
     [EvDivide (inject_Z (sfb_acc (accumulate layout bigrams)) * 100)%Q 0],
   Raise ZeroDivisionError).
Proof.
  unfold calculate_metrics. unfold mbind, traced_bind. rewrite foldM_visit.
  unfold percent, tell, mbind, traced_bind, mret, traced_ret, throw. cbn.
  reflexivity.
Qed.

Lemma hand_rows_thumb near far1 far2 p1 p2 count c :
  row p1 = 3 \/ row p2 = 3 -> hand_rows near far1 far2 p1 p2 count c = c.
Proof.
  intros H. unfold hand_rows.
  destruct (row p1 <=? 2) eqn:E1, (row p2 <=? 2) eqn:E2; try reflexivity.
  apply Z.leb_le in E1, E2. lia.
Qed.

(** A bigram with one key on the thumb row and the other on another finger
    adds to no accumulator. *)
Lemma classify_thumb char1 char2 p1 p2 count c :
  row p1 = 3 \/ row p2 = 3 -> finger p1 <> finger p2 ->
  classify char1 char2 p1 p2 count c = c.
Proof.
  intros Hrow Hf. unfold classify.
  apply Z.eqb_neq in Hf. rewrite Hf. cbn.
  rewrite !hand_rows_thumb by assumption.
  repeat match goal with |- context [if ?b then _ else _] => destruct b end; reflexivity.
Qed.

Lemma classify_same_finger char1 char2 p1 p2 count c :
  finger p1 = finger p2 -> char1 <> char2 ->
  classify char1 char2 p1 p2 count c = add_sfb c count.
Proof.
  intros Hf Hc. unfold classify.
  apply Z.eqb_eq in Hf. apply N.eqb_neq in Hc. rewrite Hf, Hc. reflexivity.
Qed.

(** C1. For the corpus {"ab": 1} the bigram table is {" a": 1, "ab": 1,
    "b ": 1} with total_length 3; on a layout that puts 'a' and 'b' on one
    finger and the space key on the thumb row with a finger of its own, the
    evaluator returns SFB = 100/3 and scissors = lateral stretch =
    skip-bigram = 0. *)
Theorem worked_example_ab (layout : gmap char Position) (pa pb ps : Position) :
  layout !! ch "a" = Some pa ->
  layout !! ch "b" = Some pb ->
  layout !! SPACE = Some ps ->
  finger pa = finger pb ->
  finger ps <> finger pa ->
  row ps = 3 ->
  calculate_bigrams_from_words [(str "ab", 1)]
    = ([(str " a", 1); (str "ab", 1); (str "b ", 1)], 3) /\
  exists m,
    outcome (calculate_metrics layout
               (calculate_bigrams_from_words [(str "ab", 1)]).1
               (calculate_bigrams_from_words [(str "ab", 1)]).2) = Ok m /\
    (sfb m == 100 # 3)%Q /\ (scissors m == 0)%Q /\
    (lat_stretch m == 0)%Q /\ (skip_bigrams m == 0)%Q.
Proof.
  intros Ha Hb Hs Hab Hsa Hrow.
  assert (Hbig : calculate_bigrams_from_words [(str "ab", 1)]
    = ([(str " a", 1); (str "ab", 1); (str "b ", 1)], 3)) by reflexivity.
  split; [exact Hbig|].
  rewrite Hbig. cbn [fst snd].
  rewrite calculate_metrics_nonzero by lia.
  assert (Hacc : accumulate layout [(str " a", 1); (str "ab", 1); (str "b ", 1)]
                 = mkCounters 1 0 0%Q 0).
  { unfold accumulate. cbn [fold_left str map list_ascii_of_string metric_step].
    change (ch " ") with SPACE.
    rewrite Hs, Ha, Hb.
    rewrite (classify_thumb SPACE (ch "a") ps pa) by (auto; congruence).
    rewrite (classify_same_finger (ch "a") (ch "b") pa pb) by (auto; discriminate).
    rewrite (classify_thumb (ch "b") SPACE pb ps) by (auto; congruence).
    reflexivity. }
  eexists. split; [cbv zeta; rewrite Hacc; reflexivity|].
  cbn. repeat split; reflexivity.
Qed.

Definition example_layout : gmap char Position :=
  <[ch "b" := mkPos 2 9 9]> base_layout.

Lemma worked_example_ab_witness :
  exists m,
    outcome (calculate_metrics example_layout
               (calculate_bigrams_from_words [(str "ab", 1)]).1
               (calculate_bigrams_from_words [(str "ab", 1)]).2) = Ok m /\
    (sfb m == 100 # 3)%Q /\ (scissors m == 0)%Q /\
    (lat_stretch m == 0)%Q /\ (skip_bigrams m == 0)%Q.
Proof.
  apply (worked_example_ab example_layout (mkPos 1 9 9) (mkPos 2 9 9) (mkPos 3 6 6));
    first [reflexivity | (cbn; lia)].
Defined.

(** ** [evaluate_layout] *)

Definition metrics_of (layout : gmap char Position) (bigrams : bigram_table)
    (total_length : Z) : LayoutMetrics :=
  let c := accumulate layout bigrams in
  mkMetrics (inject_Z (sfb_acc c) * 100 / inject_Z total_length)%Q
            (inject_Z (scissors_acc c) * 100 / inject_Z total_length)%Q
            (lat_str_acc c * 100 / inject_Z total_length)%Q
            (inject_Z (scissors_acc c) * 100 / inject_Z total_length)%Q.

Definition three_sum (m : LayoutMetrics) : Q :=
  (sfb m + scissors m + lat_stretch m)%Q.

Definition four_sum (m : LayoutMetrics) : Q :=
  (sfb m + scissors m + lat_stretch m + skip_bigrams m)%Q.

Definition evaluated (self : optimizer) (d : gmap char Position) (p : loc) : Layout :=
  let em := metrics_of d (english_bigrams self) (english_total self) in
  let fm := metrics_of d (finnish_bigrams self) (finnish_total self) in
  mkLayout p em fm (0.8 * three_sum em + 0.2 * three_sum fm)%Q 0 (Fin 0) 0 [].

Lemma evaluate_layout_outcome self st p :
  outcome (evaluate_layout self st p) =
  if (english_total self =? 0) || (finnish_total self =? 0)
  then Raise ZeroDivisionError
  else Ok (alloc_layout st (evaluated self (dicts st !!! p) p)).
Proof.
  unfold evaluate_layout, outcome, mbind, traced_bind.
  destruct (english_total self =? 0) eqn:Ee.
  { apply Z.eqb_eq in Ee. rewrite Ee, calculate_metrics_zero. reflexivity. }
  apply Z.eqb_neq in Ee.
  pose proof (calculate_metrics_nonzero (dicts st !!! p) (english_bigrams self) _ Ee) as He.
  unfold outcome in He.
  destruct (calculate_metrics (dicts st !!! p) (english_bigrams self) (english_total self))
    as [te re]. cbn in He. subst re. cbv zeta.
  destruct (finnish_total self =? 0) eqn:Ef.
  { apply Z.eqb_eq in Ef. rewrite Ef, calculate_metrics_zero. reflexivity. }
  apply Z.eqb_neq in Ef.
  pose proof (calculate_metrics_nonzero (dicts st !!! p) (finnish_bigrams self) _ Ef) as Hf.
  unfold outcome in Hf.
  destruct (calculate_metrics (dicts st !!! p) (finnish_bigrams self) (finnish_total self))
    as [tf rf]. cbn in Hf. subst rf. reflexivity.
Qed.

Lemma alloc_layout_lookup st L :
  layouts (alloc_layout st L).1 !! (alloc_layout st L).2 = Some L.
Proof. unfold alloc_layout. cbn. apply lookup_insert_eq. Qed.

(** C2 (amended). The weighted score of an evaluated genome is 0.8 times the
    sum of the English SFB, scissors and lateral-stretch rates plus 0.2 times
    the same sum for Finnish; the skip-bigram rate, a copy of the scissors
    rate, is not part of it. *)
Theorem weighted_score_three_components self st p st' l :
  outcome (evaluate_layout self st p) = Ok (st', l) ->
  exists L, layouts st' !! l = Some L /\
    (weighted_score L ==
       0.8 * (sfb (english_metrics L) + scissors (english_metrics L)
              + lat_stretch (english_metrics L))
     + 0.2 * (sfb (finnish_metrics L) + scissors (finnish_metrics L)
              + lat_stretch (finnish_metrics L)))%Q /\
    skip_bigrams (english_metrics L) = scissors (english_metrics L) /\
    skip_bigrams (finnish_metrics L) = scissors (finnish_metrics L).
Proof.
  rewrite evaluate_layout_outcome.
  destruct ((english_total self =? 0) || (finnish_total self =? 0)); [discriminate|].
  intros H.
  assert (Heq : alloc_layout st (evaluated self (dicts st !!! p) p) = (st', l))
    by congruence.
  exists (evaluated self (dicts st !!! p) p). split.
  - pose proof (alloc_layout_lookup st (evaluated self (dicts st !!! p) p)) as Hl.
    rewrite Heq in Hl. exact Hl.
  - cbn. unfold three_sum. cbn. repeat split; reflexivity.
Qed.

(** A corpus with one scissors bigram: with the letters in source order, 'q'
    sits at row 0, column 1 and 'x' at row 2, column 2. *)
Definition scissors_optimizer : optimizer :=
  load_language_data [(str "qx", 1)] [(str "qx", 1)].

Definition source_order_store : store * loc :=
  create_random_layout (mkStore ∅ ∅) moveable_letters moveable_positions.

Lemma weighted_score_three_components_witness :
  exists L,
    layouts (alloc_layout source_order_store.1
               (evaluated scissors_optimizer
                  (dicts source_order_store.1 !!! source_order_store.2)
                  source_order_store.2)).1
      !! 1%positive = Some L /\
    (weighted_score L ==
       0.8 * (sfb (english_metrics L) + scissors (english_metrics L)
              + lat_stretch (english_metrics L))
     + 0.2 * (sfb (finnish_metrics L) + scissors (finnish_metrics L)
              + lat_stretch (finnish_metrics L)))%Q /\
    skip_bigrams (english_metrics L) = scissors (english_metrics L) /\
    skip_bigrams (finnish_metrics L) = scissors (finnish_metrics L).
Proof.
  apply (weighted_score_three_components scissors_optimizer
           source_order_store.1 source_order_store.2).
  vm_compute. reflexivity.
Defined.

(** C2 (as stated) fails: on the scissors corpus the weighted score is 100/3,
    while the four-component formula gives 200/3. *)
Lemma weighted_score_not_four_components :
  exists st' l L,
    outcome (evaluate_layout scissors_optimizer
               source_order_store.1 source_order_store.2) = Ok (st', l) /\
    layouts st' !! l = Some L /\
    (weighted_score L == 100 # 3)%Q /\
    (0.8 * four_sum (english_metrics L) + 0.2 * four_sum (finnish_metrics L)
       == 200 # 3)%Q /\
    ~ (weighted_score L ==
         0.8 * four_sum (english_metrics L) + 0.2 * four_sum (finnish_metrics L))%Q.
Proof.
  rewrite evaluate_layout_outcome. cbn [orb].
  eexists _, _, _. split; [reflexivity|].
  split; [apply alloc_layout_lookup|].
  split; [vm_compute; reflexivity|].
  split; [vm_compute; reflexivity|].
  vm_compute. discriminate.
Qed.

(** ** Zero-length corpora *)

(** C3 (amended). With a total_length of zero nothing is rejected ahead of
    the evaluator: [calculate_metrics] runs its accumulation loop over every
    bigram entry, attempts the first percentage division and raises
    ZeroDivisionError there; [evaluate_layout] lets the exception through and
    builds no Layout. *)
Theorem zero_total_raises_in_evaluator self st p :
  english_total self = 0 \/ finnish_total self = 0 ->
  outcome (evaluate_layout self st p) = Raise ZeroDivisionError /\
  (english_total self = 0 ->
   trace_of (evaluate_layout self st p) =
     map visit_event (english_bigrams self) ++
     [EvDivide (inject_Z (sfb_acc (accumulate (dicts st !!! p) (english_bigrams self)))
                * 100)%Q 0]).
Proof.
  intros H. split.
  - rewrite evaluate_layout_outcome.
    destruct H as [H|H]; rewrite H; cbn; [reflexivity|].
    rewrite orb_true_r. reflexivity.
  - intros He. unfold evaluate_layout, trace_of, mbind, traced_bind.
    rewrite He, calculate_metrics_zero. reflexivity.
Qed.

Definition empty_optimizer : optimizer := load_language_data [] [].

Lemma zero_total_raises_in_evaluator_witness :
  outcome (evaluate_layout empty_optimizer
             source_order_store.1 source_order_store.2)
  = Raise ZeroDivisionError.
Proof.
  apply (zero_total_raises_in_evaluator empty_optimizer
           source_order_store.1 source_order_store.2).
  left. reflexivity.
Defined.

(** C3 (as stated) fails.  The empty corpus is accepted by
    [load_language_data] with total_length 0 and the first evaluation executes
    a percentage division; a corpus whose only word has count 0 also has
    total_length 0 and its three bigrams are visited by the accumulation loop
    before the division. *)
Lemma zero_total_is_evaluated :
  english_total empty_optimizer = 0 /\
  trace_of (evaluate_layout empty_optimizer
              source_order_store.1 source_order_store.2)
    = [EvDivide (0 * 100)%Q 0] /\
  english_total (load_language_data [(str "ab", 0)] []) = 0 /\
  trace_of (evaluate_layout (load_language_data [(str "ab", 0)] [])
              source_order_store.1 source_order_store.2)
    = [EvVisit (str " a") 0; EvVisit (str "ab") 0; EvVisit (str "b ") 0;
       EvDivide (0 * 100)%Q 0].
Proof. repeat split; vm_compute; reflexivity. Qed.

(** ** Layout validity: permutation and anchors *)

Definition all_chars : list char := anchors.*1 ++ moveable_letters.
Definition all_slots : list Position := anchors.*2 ++ moveable_positions.

(** The invariant kept by initialization and mutation. *)
Record valid_layout (d : gmap char Position) : Prop := {
  valid_anchors : forall c p, base_layout !! c = Some p -> d !! c = Some p;
  valid_into : forall c, c ∈ moveable_letters ->
    exists p, d !! c = Some p /\ p ∈ moveable_positions;
  valid_inj : forall c c' p, c ∈ moveable_letters -> c' ∈ moveable_letters ->
    d !! c = Some p -> d !! c' = Some p -> c = c';
  valid_dom : forall c, is_Some (d !! c) ->
    is_Some (base_layout !! c) \/ c ∈ moveable_letters
}.

(** Closed decidable facts about the constant tables are settled by
    evaluation. *)
Ltac by_evaluation :=
  match goal with
  | |- ?P => apply (bool_decide_unpack P); vm_compute; exact I
  end.

Lemma NoDup_moveable_letters : NoDup moveable_letters.
Proof. by_evaluation. Qed.

Lemma NoDup_moveable_positions : NoDup moveable_positions.
Proof. by_evaluation. Qed.

Lemma NoDup_all_chars : NoDup all_chars.
Proof. by_evaluation. Qed.

Lemma NoDup_all_slots : NoDup all_slots.
Proof. by_evaluation. Qed.

Lemma moveable_not_anchor c :
  c ∈ moveable_letters -> base_layout !! c = None.
Proof.
  assert (H : Forall (fun c => base_layout !! c = None) moveable_letters).
  { by_evaluation. }
  rewrite Forall_forall in H. apply H.
Qed.

Lemma base_layout_anchors c p :
  base_layout !! c = Some p <-> (c, p) ∈ anchors.
Proof.
  unfold base_layout. symmetry. apply elem_of_list_to_map.
  by_evaluation.
Qed.

Lemma anchors_inj c c' p :
  (c, p) ∈ anchors -> (c', p) ∈ anchors -> c = c'.
Proof.
  assert (H : Forall (fun x => Forall (fun y => x.2 = y.2 -> x.1 = y.1) anchors) anchors).
  { by_evaluation. }
  intros H1 H2. rewrite Forall_forall in H.
  specialize (H _ H1). rewrite Forall_forall in H.
  apply (H _ H2). reflexivity.
Qed.

Lemma anchor_slot_not_moveable c p :
  (c, p) ∈ anchors -> p ∉ moveable_positions.
Proof.
  assert (H : Forall (fun x => x.2 ∉ moveable_positions) anchors).
  { by_evaluation. }
  rewrite Forall_forall in H. intros Hin. apply (H _ Hin).
Qed.

Section AssignShuffled.
Implicit Types (sl : list char) (sp : list Position) (m : gmap char Position).

Definition assign_from m sl sp : gmap char Position :=
  fold_left (fun layout lp => <[lp.1 := lp.2]> layout) (zip sl sp) m.

Lemma assign_from_notin sl : forall sp m c,
  c ∉ sl -> assign_from m sl sp !! c = m !! c.
Proof.
  induction sl as [|c0 sl IH]; intros sp m c Hc; [reflexivity|].
  destruct sp as [|p0 sp]; [reflexivity|].
  apply not_elem_of_cons in Hc as [Hne Hc].
  unfold assign_from in *. cbn. rewrite IH by assumption.
  apply lookup_insert_ne. congruence.
Qed.

Lemma assign_from_lookup sl : forall sp m i c p,
  NoDup sl -> sl !! i = Some c -> sp !! i = Some p ->
  assign_from m sl sp !! c = Some p.
Proof.
  induction sl as [|c0 sl IH]; intros sp m i c p Hnd Hc Hp; [discriminate|].
  destruct sp as [|p0 sp]; [discriminate|].
  apply NoDup_cons in Hnd as [Hnotin Hnd].
  destruct i as [|i]; cbn in Hc, Hp.
  - injection Hc as ->. injection Hp as ->.
    change (assign_from (<[c := p]> m) sl sp !! c = Some p).
    rewrite assign_from_notin by assumption. apply lookup_insert_eq.
  - change (assign_from (<[c0 := p0]> m) sl sp !! c = Some p). eauto.
Qed.
End AssignShuffled.

Lemma valid_random_layout sl sp :
  sl ≡ₚ moveable_letters -> sp ≡ₚ moveable_positions ->
  valid_layout (assign_shuffled sl sp).
Proof.
  intros Hsl Hsp.
  assert (Hndl : NoDup sl) by (rewrite Hsl; apply NoDup_moveable_letters).
  assert (Hndp : NoDup sp) by (rewrite Hsp; apply NoDup_moveable_positions).
  assert (Hlen : length sl = length sp)
    by (rewrite (Permutation_length Hsl), (Permutation_length Hsp); reflexivity).
  change (assign_shuffled sl sp) with (assign_from base_layout sl sp).
  assert (Himg : forall c, c ∈ sl ->
            exists i p, sl !! i = Some c /\ sp !! i = Some p /\
                        assign_from base_layout sl sp !! c = Some p).
  { intros c Hc. apply list_elem_of_lookup_1 in Hc as [i Hi].
    destruct (lookup_lt_is_Some_2 sp i) as [p Hp].
    { rewrite <- Hlen. eapply lookup_lt_Some; eassumption. }
    exists i, p. eauto using assign_from_lookup. }
  split.
  - intros c p Hb. rewrite assign_from_notin; [assumption|].
    intros Hin. rewrite Hsl in Hin.
    rewrite (moveable_not_anchor _ Hin) in Hb. discriminate.
  - intros c Hc. rewrite <- Hsl in Hc.
    destruct (Himg c Hc) as (i & p & _ & Hp & Hl).
    exists p. split; [assumption|]. rewrite <- Hsp.
    eapply list_elem_of_lookup_2; eassumption.
  - intros c c' p Hc Hc' Hl Hl'. rewrite <- Hsl in Hc, Hc'.
    destruct (Himg c Hc) as (i & q & Hi & Hq & Hlq).
    destruct (Himg c' Hc') as (i' & q' & Hi' & Hq' & Hlq').
    assert (q = p) by congruence. assert (q' = p) by congruence. subst q q'.
    assert (i = i') by (eapply NoDup_lookup; eassumption). subst i'.
    congruence.
  - intros c Hs. destruct (decide (c ∈ sl)) as [Hin|Hnotin].
    + right. rewrite <- Hsl. assumption.
    + left. rewrite assign_from_notin in Hs; assumption.
Qed.

Lemma valid_swap_mutation d idx1 idx2 d' :
  valid_layout d -> swap_mutation d idx1 idx2 = Ok d' -> valid_layout d'.
Proof.
  intros Hv. unfold swap_mutation.
  destruct (bool_decide _); [|intros [= <-]; assumption].
  destruct (moveable_chars_of d !! idx1) as [c1|] eqn:E1; [|discriminate].
  destruct (moveable_chars_of d !! idx2) as [c2|] eqn:E2; [|discriminate].
  apply list_elem_of_lookup_2, list_elem_of_filter in E1 as [_ Hc1].
  apply list_elem_of_lookup_2, list_elem_of_filter in E2 as [_ Hc2].
  destruct (d !! c2) as [p2|] eqn:L2; [|intros [= <-]; assumption].
  destruct (d !! c1) as [p1|] eqn:L1; [|intros [= <-]; assumption].
  intros [= <-].
  destruct Hv as [Va Vi Vj Vd].
  assert (Hlk : forall c, (<[c2:=p1]> (<[c1:=p2]> d)) !! c =
                 if decide (c = c2) then Some p1
                 else if decide (c = c1) then Some p2 else d !! c).
  { intros c. destruct (decide (c = c2)) as [->|N2].
    - apply lookup_insert_eq.
    - rewrite lookup_insert_ne by congruence.
      destruct (decide (c = c1)) as [->|N1].
      + apply lookup_insert_eq.
      + apply lookup_insert_ne. congruence. }
  split.
  - intros c p Hb. rewrite Hlk.
    destruct (decide (c = c2)) as [->|_].
    { rewrite (moveable_not_anchor _ Hc2) in Hb. discriminate. }
    destruct (decide (c = c1)) as [->|_].
    { rewrite (moveable_not_anchor _ Hc1) in Hb. discriminate. }
    auto.
  - intros c Hc. rewrite Hlk.
    destruct (Vi c1 Hc1) as (q1 & Hq1 & Hm1).
    destruct (Vi c2 Hc2) as (q2 & Hq2 & Hm2).
    assert (q1 = p1) by congruence. assert (q2 = p2) by congruence. subst.
    repeat case_decide; eauto.
  - intros c c' p Hc Hc'. rewrite !Hlk.
    destruct (decide (c = c2)), (decide (c = c1)),
             (decide (c' = c2)), (decide (c' = c1)); intros Hp Hp';
      try congruence;
      try (assert (c1 = c2)
             by (apply (Vj c1 c2 p1); [assumption|assumption|congruence|congruence]));
      try (assert (c1 = c')
             by (apply (Vj c1 c' p1); [assumption|assumption|congruence|congruence]));
      try (assert (c2 = c')
             by (apply (Vj c2 c' p2); [assumption|assumption|congruence|congruence]));
      try (assert (c = c1)
             by (apply (Vj c c1 p1); [assumption|assumption|congruence|congruence]));
      try (assert (c = c2)
             by (apply (Vj c c2 p2); [assumption|assumption|congruence|congruence]));
      try congruence.
    apply (Vj c c' p); assumption.
  - intros c. rewrite Hlk. repeat case_decide; subst; auto.
Qed.

(** The layouts the program builds: [create_random_layout] fills a dict with
    [assign_shuffled] after two shuffles, [mutate_layout] fills one with
    [swap_mutation] of its parent's. *)
Inductive produced : gmap char Position -> Prop :=
| produced_random sl sp :
    sl ≡ₚ moveable_letters -> sp ≡ₚ moveable_positions ->
    produced (assign_shuffled sl sp)
| produced_mutation d idx1 idx2 d' :
    produced d -> swap_mutation d idx1 idx2 = Ok d' -> produced d'.

Lemma produced_valid d : produced d -> valid_layout d.
Proof.
  induction 1; eauto using valid_random_layout, valid_swap_mutation.
Qed.

Lemma valid_onto d p :
  valid_layout d -> p ∈ moveable_positions ->
  exists c, c ∈ moveable_letters /\ d !! c = Some p.
Proof.
  intros [Va Vi Vj Vd] Hp.
  set (f := fun c => default (mkPos 0 0 0) (d !! c)).
  assert (Hf : forall c, c ∈ moveable_letters -> d !! c = Some (f c)).
  { intros c Hc. destruct (Vi c Hc) as (q & Hq & _). unfold f. rewrite Hq. reflexivity. }
  assert (Hperm : f <$> moveable_letters ≡ₚ moveable_positions).
  { apply submseteq_length_Permutation.
    - apply NoDup_submseteq.
      + apply NoDup_fmap_2_strong; [|apply NoDup_moveable_letters].
        intros c c' Hc Hc' Heq. apply (Vj c c' (f c)); auto.
        rewrite Heq. auto.
      + intros q Hq. apply list_elem_of_fmap in Hq as (c & -> & Hc).
        destruct (Vi c Hc) as (q & Hq & Hin). rewrite (Hf c Hc) in Hq.
        injection Hq as ->. assumption.
    - rewrite length_fmap. reflexivity. }
  rewrite <- Hperm in Hp. apply list_elem_of_fmap in Hp as (c & -> & Hc).
  eauto.
Qed.

(** C4. A layout built by random initialization, or obtained from such a
    layout by any number of swap mutations, maps exactly the 36 characters,
    maps no two of them to the same position, reaches exactly the 36 slots,
    and leaves every anchor (n r s t h e a i u o y and space) on its base
    position. *)
Theorem produced_layout_is_bijection d :
  produced d ->
  (forall c, is_Some (d !! c) <-> c ∈ all_chars) /\
  (forall c c' p, d !! c = Some p -> d !! c' = Some p -> c = c') /\
  (forall p, (exists c, d !! c = Some p) <-> p ∈ all_slots) /\
  (forall c p, (c, p) ∈ anchors -> d !! c = Some p).
Proof.
  intros Hprod. pose proof (produced_valid d Hprod) as Hv.
  pose proof Hv as [Va Vi Vj Vd].
  assert (Hanchor : forall c, c ∈ anchors.*1 <-> is_Some (base_layout !! c)).
  { intros c. rewrite list_elem_of_fmap. split.
    - intros ([c0 p] & -> & Hin). exists p. apply base_layout_anchors. assumption.
    - intros [p Hp]. exists (c, p). split; [reflexivity|].
      apply base_layout_anchors. assumption. }
  assert (Hcase : forall c p, d !! c = Some p ->
            ((c, p) ∈ anchors /\ c ∉ moveable_letters) \/
            (c ∈ moveable_letters /\ p ∈ moveable_positions)).
  { intros c p Hl. destruct (Vd c) as [[q Hq]|Hm]; [eauto| |].
    - left. pose proof (Va c q Hq) as Hl'.
      assert (q = p) by congruence. subst q. split.
      + apply base_layout_anchors. assumption.
      + intros Hm. rewrite (moveable_not_anchor c Hm) in Hq. discriminate.
    - right. split; [assumption|].
      destruct (Vi c Hm) as (q & Hq & Hin). congruence. }
  repeat split.
  - intros Hs. unfold all_chars. apply elem_of_app.
    destruct (Vd c Hs) as [Hb|Hm]; [left; apply Hanchor|right]; assumption.
  - unfold all_chars. rewrite elem_of_app. intros [Hb|Hm].
    + apply Hanchor in Hb as [p Hp]. eauto.
    + destruct (Vi c Hm) as (p & Hp & _). eauto.
  - intros c c' p Hl Hl'.
    destruct (Hcase c p Hl) as [[Ha Hn]|[Hm Hp]],
             (Hcase c' p Hl') as [[Ha' Hn']|[Hm' Hp']].
    + eapply anchors_inj; eassumption.
    + exfalso. eapply anchor_slot_not_moveable; eassumption.
    + exfalso. eapply anchor_slot_not_moveable; eassumption.
    + eapply Vj; eassumption.
  - intros [c Hl]. unfold all_slots. apply elem_of_app.
    destruct (Hcase c p Hl) as [[Ha _]|[_ Hp]]; [left|right; assumption].
    apply list_elem_of_fmap. exists (c, p). auto.
  - unfold all_slots. rewrite elem_of_app. intros [Ha|Hp].
    + apply list_elem_of_fmap in Ha as ([c q] & -> & Hin).
      exists c. apply Va, base_layout_anchors. assumption.
    + destruct (valid_onto d p Hv Hp) as (c & _ & Hl). eauto.
  - intros c p Hin. apply Va, base_layout_anchors. assumption.
Qed.

Definition mutated_example : gmap char Position :=
  match swap_mutation (assign_shuffled moveable_letters moveable_positions) 0 23 with
  | Ok d => d
  | _ => ∅
  end.

Lemma produced_layout_is_bijection_witness :
  mutated_example !! ch "q" = Some (mkPos 2 11 10) /\
  mutated_example !! ch "/" = Some (mkPos 0 1 1) /\
  (forall c, is_Some (mutated_example !! c) <-> c ∈ all_chars) /\
  (forall c c' p,
     mutated_example !! c = Some p -> mutated_example !! c' = Some p -> c = c') /\
  (forall p, (exists c, mutated_example !! c = Some p) <-> p ∈ all_slots) /\
  (forall c p, (c, p) ∈ anchors -> mutated_example !! c = Some p).
Proof.
  split; [vm_compute; reflexivity|].
  split; [vm_compute; reflexivity|].
  apply (produced_layout_is_bijection mutated_example).
  apply (produced_mutation (assign_shuffled moveable_letters moveable_positions) 0 23).
  - apply produced_random; reflexivity.
  - vm_compute. reflexivity.
Defined.

(** ** [mutate_layout] and its parent *)

Lemma outcome_bind {A B} (m : traced A) (f : A -> traced B) :
  outcome (m ≫= f) =
  match outcome m with
  | Ok a => outcome (f a)
  | Raise e => Raise e
  | OutOfFuel => OutOfFuel
  end.
Proof.
  unfold outcome, mbind, traced_bind.
  destruct m as [t [a|e|]]; cbn; [|reflexivity..].
  destruct (f a). reflexivity.
Qed.

Lemma fresh_dict_ne (st : store) (l : loc) :
  is_Some (dicts st !! l) -> fresh (dom (dicts st)) <> l.
Proof.
  intros Hs Heq. apply elem_of_dom in Hs. rewrite <- Heq in Hs.
  exact (is_fresh _ Hs).
Qed.

Lemma fresh_layout_ne (h : gmap loc Layout) (l : loc) :
  is_Some (h !! l) -> fresh (dom h) <> l.
Proof.
  intros Hs Heq. apply elem_of_dom in Hs. rewrite <- Heq in Hs.
  exact (is_fresh _ Hs).
Qed.

(** What [mutate_layout] does to the store: one new dict, one new Layout. *)
Lemma mutate_layout_outcome self st layout idx1 idx2 st' child :
  outcome (mutate_layout self st layout idx1 idx2) = Ok (st', child) ->
  let parent := layouts st !!! layout in
  let np := fresh (dom (dicts st)) in
  exists d',
    swap_mutation (dicts st !!! positions parent) idx1 idx2 = Ok d' /\
    child = fresh (dom (layouts st)) /\
    dicts st' = <[np := d']> (<[np := dicts st !!! positions parent]> (dicts st)) /\
    layouts st' = <[child := evaluated self d' np]> (layouts st).
Proof.
  unfold mutate_layout, alloc_dict. cbv zeta. cbn [dicts layouts].
  rewrite outcome_bind. cbn [lift outcome snd].
  rewrite lookup_total_insert_eq.
  destruct (swap_mutation _ idx1 idx2) as [d'| |]; [|discriminate..].
  rewrite evaluate_layout_outcome.
  destruct (_ || _); [discriminate|].
  unfold alloc_layout. cbn [dicts layouts].
  rewrite lookup_total_insert_eq.
  intros [= <- <-]. exists d'. cbn [dicts layouts]. auto.
Qed.

(** C10. [mutate_layout] leaves its parent as it was: the parent Layout
    object (both metric vectors, weighted score and every other field) and
    the dict its [positions] field refers to are the same in the store after
    the call; the child is a new object whose [positions] refers to a new
    dict, holding the swapped copy of the parent's. *)
Theorem mutate_layout_preserves_parent self st layout idx1 idx2 st' child
    (parent : Layout) (d : gmap char Position) :
  layouts st !! layout = Some parent ->
  dicts st !! positions parent = Some d ->
  outcome (mutate_layout self st layout idx1 idx2) = Ok (st', child) ->
  layouts st' !! layout = Some parent /\
  dicts st' !! positions parent = Some d /\
  child <> layout /\
  exists C d',
    layouts st' !! child = Some C /\
    positions C <> positions parent /\
    swap_mutation d idx1 idx2 = Ok d' /\
    dicts st' !! positions C = Some d'.
Proof.
  intros Hparent Hdict Hout.
  apply mutate_layout_outcome in Hout as (d' & Hswap & Hchild & Hd & Hl).
  rewrite (lookup_total_correct _ _ _ Hparent) in Hswap, Hd.
  rewrite (lookup_total_correct _ _ _ Hdict) in Hswap, Hd.
  assert (Hne : fresh (dom (dicts st)) <> positions parent)
    by (apply fresh_dict_ne; eauto).
  assert (Hne' : child <> layout)
    by (subst child; apply fresh_layout_ne; eauto).
  rewrite Hl, Hd. repeat split.
  - rewrite lookup_insert_ne by assumption. assumption.
  - rewrite !lookup_insert_ne by assumption. assumption.
  - assumption.
  - eexists _, d'. split; [apply lookup_insert_eq|].
    cbn [evaluated positions]. split; [assumption|].
    split; [assumption|]. apply lookup_insert_eq.
Qed.

Definition parent_store : store :=
  match outcome (evaluate_layout scissors_optimizer
                   source_order_store.1 source_order_store.2) with
  | Ok (st, _) => st
  | _ => mkStore ∅ ∅
  end.

Definition mutated_store : store * loc :=
  match outcome (mutate_layout scissors_optimizer parent_store 1%positive 0 1) with
  | Ok r => r
  | _ => (mkStore ∅ ∅, 1%positive)
  end.

Lemma mutate_layout_preserves_parent_witness :
  layouts mutated_store.1 !! 1%positive = Some (layouts parent_store !!! 1%positive) /\
  dicts mutated_store.1 !! 1%positive = Some (dicts parent_store !!! 1%positive) /\
  mutated_store.2 = 2%positive /\
  dicts mutated_store.1 !! 2%positive <> dicts mutated_store.1 !! 1%positive.
Proof.
  destruct (mutate_layout_preserves_parent scissors_optimizer parent_store
              1%positive 0 1 mutated_store.1 mutated_store.2
              (layouts parent_store !!! 1%positive)
              (dicts parent_store !!! 1%positive))
    as (H1 & H2 & _); [vm_compute; reflexivity..|].
  split; [exact H1|]. split; [exact H2|].
  split; [vm_compute; reflexivity|]. vm_compute. discriminate.
Defined.

(** ** Stable sorting *)

Section StableSort.
Context {A : Type} (key : A -> Q).

Definition key_le (x y : A) : Prop := (key x <= key y)%Q.

Lemma insert_sorted_perm (before : A -> A -> bool) x l :
  insert_sorted before x l ≡ₚ x :: l.
Proof.
  induction l as [|y l IH]; cbn; [reflexivity|].
  destruct (before x y); [reflexivity|].
  rewrite IH. apply Permutation_swap.
Qed.

Lemma stable_sort_perm (before : A -> A -> bool) l :
  stable_sort before l ≡ₚ l.
Proof.
  induction l as [|x l IH]; cbn; [reflexivity|].
  rewrite insert_sorted_perm. rewrite IH. reflexivity.
Qed.

Lemma insert_sorted_key x l :
  StronglySorted key_le l ->
  StronglySorted key_le
    (insert_sorted (fun a b => Qle_bool (key a) (key b)) x l).
Proof.
  induction 1 as [|y l Hs IH Hall]; cbn.
  - constructor; constructor.
  - destruct (Qle_bool (key x) (key y)) eqn:E.
    + apply Qle_bool_iff in E. constructor.
      * constructor; assumption.
      * constructor; [exact E|].
        eapply Forall_impl; [exact Hall|].
        intros z Hz. unfold key_le in *. eapply Qle_trans; eassumption.
    + assert (Hyx : key_le y x).
      { unfold key_le. apply Qlt_le_weak, Qnot_le_lt.
        intros Hle. apply Qle_bool_iff in Hle. congruence. }
      constructor; [exact IH|].
      rewrite (insert_sorted_perm _ x l). constructor; assumption.
Qed.

Lemma sort_by_key_sorted l : StronglySorted key_le (sort_by_key key l).
Proof.
  induction l as [|x l IH]; cbn; [constructor|].
  apply insert_sorted_key. exact IH.
Qed.

(** The first element of a sorted list has the least key and the last
    element the greatest. *)
Lemma sorted_bounds `{!Inhabited A} l x :
  StronglySorted key_le l -> x ∈ l ->
  key_le (l !!! 0%nat) x /\ key_le x (l !!! (length l - 1)%nat).
Proof.
  induction 1 as [|y l Hs IH Hall]; intros Hx; [inversion Hx|].
  rewrite Forall_forall in Hall.
  assert (Hlast : (y :: l) !!! (length (y :: l) - 1)%nat
                  = match l with [] => y | _ => l !!! (length l - 1)%nat end).
  { destruct l as [|z l']; [reflexivity|]. cbn [length].
    replace (S (S (length l')) - 1)%nat with (S (length l')) by lia.
    replace (S (length l') - 1)%nat with (length l') by lia.
    reflexivity. }
  rewrite Hlast. cbn [lookup_total list_lookup_total].
  apply elem_of_cons in Hx as [->|Hx].
  - split; [apply Qle_refl|].
    destruct l as [|z l']; [apply Qle_refl|].
    apply Hall. apply list_elem_of_lookup_total_2. cbn [length]. lia.
  - split; [apply Hall; assumption|].
    destruct l as [|z l']; [inversion Hx|]. apply IH. assumption.
Qed.

(** With all keys equal nothing moves. *)
Lemma sort_by_key_constant l :
  (forall x y, x ∈ l -> y ∈ l -> key_le x y) -> sort_by_key key l = l.
Proof.
  induction l as [|x l IH]; intros Hall; [reflexivity|].
  change (sort_by_key key (x :: l))
    with (insert_sorted (fun a b => Qle_bool (key a) (key b)) x (sort_by_key key l)).
  rewrite IH.
  - destruct l as [|y l']; [reflexivity|]. cbn.
    assert (E : Qle_bool (key x) (key y) = true).
    { apply Qle_bool_iff. apply Hall; [left|right; left]. }
    rewrite E. reflexivity.
  - intros a b Ha Hb. apply Hall; right; assumption.
Qed.
End StableSort.

(** ** Crowding distance *)

Definition same_metrics (L L' : Layout) : Prop :=
  english_metrics L = english_metrics L' /\ finnish_metrics L = finnish_metrics L'.

(** A store change that leaves every metric vector alone and never lowers an
    infinite crowding distance. *)
Definition cd_step (h h' : gmap loc Layout) : Prop :=
  forall l, same_metrics (h !!! l) (h' !!! l) /\
            (crowding_distance (h !!! l) = Inf -> crowding_distance (h' !!! l) = Inf).

Definition metric_only (obj : Layout -> Q) : Prop :=
  forall L L', same_metrics L L' -> obj L = obj L'.

Lemma objectives_metric_only : Forall metric_only objectives.
Proof. repeat constructor; intros L L' [He Hf]; cbn; rewrite ?He, ?Hf; reflexivity. Qed.

Lemma update_lookup f l (h : gmap loc Layout) l' :
  update f l h !!! l' = if decide (l = l') then f (h !!! l) else h !!! l'.
Proof.
  unfold update. destruct (decide (l = l')) as [->|Hne].
  - apply lookup_total_insert_eq.
  - apply lookup_total_insert_ne. assumption.
Qed.

Lemma cd_step_refl h : cd_step h h.
Proof. intros l. split; [split; reflexivity|auto]. Qed.

Lemma cd_step_trans h1 h2 h3 : cd_step h1 h2 -> cd_step h2 h3 -> cd_step h1 h3.
Proof.
  intros H12 H23 l. destruct (H12 l) as [[E1 F1] I1], (H23 l) as [[E2 F2] I2].
  split; [split; congruence|auto].
Qed.

Lemma cd_step_update f l h :
  (forall L, same_metrics L (f L) /\
             (crowding_distance L = Inf -> crowding_distance (f L) = Inf)) ->
  cd_step h (update f l h).
Proof.
  intros Hf l'. rewrite update_lookup. destruct (decide (l = l')) as [->|_].
  - apply Hf.
  - split; [split; reflexivity|auto].
Qed.

Lemma cd_step_fold {B} (g : gmap loc Layout -> B -> gmap loc Layout) bs h :
  (forall h b, cd_step h (g h b)) -> cd_step h (fold_left g bs h).
Proof.
  intros Hg. revert h. induction bs as [|b bs IH]; intros h; cbn.
  - apply cd_step_refl.
  - eapply cd_step_trans; [apply Hg|apply IH].
Qed.

Lemma cd_step_set_inf l h : cd_step h (update (set_crowding_distance Inf) l h).
Proof. apply cd_step_update. intros L. split; [split|]; reflexivity. Qed.

Lemma cd_step_add_distance front vals range h i :
  cd_step h (add_distance front vals range h i).
Proof.
  unfold add_distance. apply cd_step_update. intros L.
  split; [split; reflexivity|]. cbn. intros ->. reflexivity.
Qed.

Lemma metric_only_cd_step obj h h' l :
  metric_only obj -> cd_step h h' -> obj (h' !!! l) = obj (h !!! l).
Proof. intros Hobj Hstep. symmetry. apply Hobj, Hstep. Qed.

(** One objective: the front is reordered, the two ends of the sorted front
    become infinite, and they hold the least and the greatest value. *)
Lemma crowd_objective_spec h front obj h1 f1 :
  metric_only obj ->
  crowd_objective (h, front) obj = (h1, f1) ->
  cd_step h h1 /\ f1 ≡ₚ front /\
  crowding_distance (h1 !!! (f1 !!! 0%nat)) = Inf /\
  crowding_distance (h1 !!! (f1 !!! (length f1 - 1)%nat)) = Inf /\
  forall l, l ∈ front ->
    (obj (h !!! (f1 !!! 0%nat)) <= obj (h !!! l))%Q /\
    (obj (h !!! l) <= obj (h !!! (f1 !!! (length f1 - 1)%nat)))%Q.
Proof.
  intros Hobj. unfold crowd_objective.
  set (sorted := sort_by_key (fun l => obj (h !!! l)) front).
  set (ha := update (set_crowding_distance Inf) (sorted !!! 0%nat) h).
  set (hb := update (set_crowding_distance Inf) (sorted !!! (length sorted - 1)%nat) ha).
  set (vals := map (fun l => obj (hb !!! l)) sorted).
  set (range := (py_max vals - py_min vals)%Q).
  assert (Hab : cd_step ha hb) by apply cd_step_set_inf.
  assert (Hhb : cd_step h hb).
  { eapply cd_step_trans; [apply cd_step_set_inf|exact Hab]. }
  assert (Hfirst : crowding_distance (hb !!! (sorted !!! 0%nat)) = Inf).
  { apply Hab. unfold ha. rewrite update_lookup, decide_True by reflexivity.
    reflexivity. }
  assert (Hlast : crowding_distance (hb !!! (sorted !!! (length sorted - 1)%nat)) = Inf).
  { unfold hb. rewrite update_lookup, decide_True by reflexivity. reflexivity. }
  intros Heq.
  assert (Hb1 : cd_step hb h1 /\ f1 = sorted).
  { destruct (Qlt_bool 0 range); injection Heq as <- <-; split; try reflexivity.
    - apply cd_step_fold. intros; apply cd_step_add_distance.
    - apply cd_step_refl. }
  destruct Hb1 as [Hb1 ->].
  split; [eapply cd_step_trans; eassumption|].
  split; [apply stable_sort_perm|].
  split; [apply Hb1; assumption|].
  split; [apply Hb1; assumption|].
  intros l Hl.
  apply (sorted_bounds (fun l => obj (h !!! l)) sorted l).
  - apply sort_by_key_sorted.
  - unfold sorted, sort_by_key. rewrite stable_sort_perm. assumption.
Qed.

Lemma crowd_fold objs : Forall metric_only objs ->
  forall h front h' front',
  front <> [] ->
  fold_left crowd_objective objs (h, front) = (h', front') ->
  cd_step h h' /\ front' ≡ₚ front /\
  forall obj, obj ∈ objs ->
    exists lmin lmax, lmin ∈ front /\ lmax ∈ front /\
      crowding_distance (h' !!! lmin) = Inf /\
      crowding_distance (h' !!! lmax) = Inf /\
      forall l, l ∈ front ->
        (obj (h !!! lmin) <= obj (h !!! l))%Q /\ (obj (h !!! l) <= obj (h !!! lmax))%Q.
Proof.
  induction 1 as [|o objs Ho Hobjs IH]; intros h front h' front' Hne Hfold.
  - cbn in Hfold. injection Hfold as <- <-.
    split; [apply cd_step_refl|]. split; [reflexivity|].
    intros obj Hin. inversion Hin.
  - cbn [fold_left] in Hfold.
    destruct (crowd_objective (h, front) o) as [h1 f1] eqn:Hstep.
    apply crowd_objective_spec in Hstep as (H01 & Hperm1 & Hmin & Hmax & Hbounds);
      [|assumption].
    assert (Hne1 : f1 <> []).
    { intros ->. apply Permutation_nil_l in Hperm1. congruence. }
    destruct (IH h1 f1 h' front' Hne1 Hfold) as (H1' & Hperm' & Hrest).
    split; [eapply cd_step_trans; eassumption|].
    split; [rewrite Hperm'; assumption|].
    intros obj Hin. apply elem_of_cons in Hin as [->|Hin].
    + exists (f1 !!! 0%nat), (f1 !!! (length f1 - 1)%nat).
      assert (Hlen : (0 < length f1)%nat) by (destruct f1; [congruence|cbn; lia]).
      split; [rewrite <- Hperm1; apply list_elem_of_lookup_total_2; lia|].
      split; [rewrite <- Hperm1; apply list_elem_of_lookup_total_2; lia|].
      split; [apply H1'; assumption|].
      split; [apply H1'; assumption|]. assumption.
    + destruct (Hrest obj Hin) as (lmin & lmax & Hi & Ha & Hci & Hca & Hb).
      assert (Hm : metric_only obj).
      { rewrite Forall_forall in Hobjs. apply Hobjs. assumption. }
      exists lmin, lmax. rewrite <- Hperm1.
      repeat (split; [assumption|]).
      intros l Hl. rewrite <- Hperm1 in Hl.
      rewrite <- !(metric_only_cd_step obj h h1) by assumption.
      apply Hb. assumption.
Qed.

Lemma set_all_inf front : forall h l,
  l ∈ front ->
  crowding_distance
    (fold_left (fun h layout => update (set_crowding_distance Inf) layout h) front h
       !!! l) = Inf.
Proof.
  induction front as [|x front IH]; intros h l Hl; [inversion Hl|].
  cbn [fold_left]. apply elem_of_cons in Hl as [->|Hl]; [|apply IH; assumption].
  apply (cd_step_fold (fun h layout => update (set_crowding_distance Inf) layout h)).
  - intros; apply cd_step_set_inf.
  - rewrite update_lookup, decide_True by reflexivity. reflexivity.
Qed.

Lemma set_all_same_metrics d front : forall h l,
  same_metrics (h !!! l)
    (fold_left (fun h layout => update (set_crowding_distance d) layout h) front h !!! l).
Proof.
  induction front as [|x front IH]; intros h l; cbn [fold_left].
  - split; reflexivity.
  - destruct (IH (update (set_crowding_distance d) x h) l) as [E F].
    rewrite update_lookup in E, F.
    destruct (decide (x = l)) as [->|_]; split; assumption.
Qed.

(** C7 (amended). After the crowding-distance computation every member of a
    front of at most two genomes has infinite distance; in a larger front,
    for each of the 8 objectives, some genome holding the least value and
    some genome holding the greatest value have infinite distance (the two
    ends of the front when it is sorted by that objective).  The front is
    only reordered and no metric changes. *)
Theorem crowding_distance_boundaries h front h' front' :
  calculate_crowding_distance h front = (h', front') ->
  front' ≡ₚ front /\
  (forall l, same_metrics (h !!! l) (h' !!! l)) /\
  ((length front <= 2)%nat ->
   forall l, l ∈ front -> crowding_distance (h' !!! l) = Inf) /\
  ((2 < length front)%nat ->
   forall obj, obj ∈ objectives ->
   exists lmin lmax, lmin ∈ front /\ lmax ∈ front /\
     crowding_distance (h' !!! lmin) = Inf /\
     crowding_distance (h' !!! lmax) = Inf /\
     forall l, l ∈ front ->
       (obj (h' !!! lmin) <= obj (h' !!! l))%Q /\
       (obj (h' !!! l) <= obj (h' !!! lmax))%Q).
Proof.
  unfold calculate_crowding_distance. case_bool_decide as Hlen.
  - intros [= <- <-]. split; [reflexivity|].
    split; [apply set_all_same_metrics|].
    split; [intros _ l Hl; apply set_all_inf; assumption|]. lia.
  - set (h0 := fold_left _ front h). intros Hfold.
    assert (Hne : front <> []) by (destruct front; [cbn in Hlen; lia|congruence]).
    destruct (crowd_fold objectives objectives_metric_only h0 front h' front' Hne Hfold)
      as (Hstep & Hperm & Hall).
    assert (Hsame : forall l, same_metrics (h !!! l) (h' !!! l)).
    { intros l. destruct (set_all_same_metrics (Fin 0) front h l) as [E F].
      destruct (Hstep l) as [[E' F'] _]. fold h0 in E, F.
      split; congruence. }
    split; [assumption|]. split; [assumption|]. split; [lia|].
    intros _ obj Hobj.
    destruct (Hall obj Hobj) as (lmin & lmax & Hi & Ha & Hci & Hca & Hb).
    exists lmin, lmax. repeat (split; [assumption|]).
    intros l Hl.
    assert (Hm : metric_only obj).
    { pose proof objectives_metric_only as HF. rewrite Forall_forall in HF. auto. }
    rewrite !(metric_only_cd_step obj h0 h') by assumption.
    apply Hb. assumption.
Qed.

(** A genome given by its English SFB and scissors rates. *)
Definition genome (s c : Q) : Layout :=
  mkLayout 1%positive (mkMetrics s c 0 c) (mkMetrics 0 0 0 0) 0 0 (Fin 0) 0 [].

(** Four mutually non-dominated genomes, three of them with equal vectors. *)
Definition tied_front_heap : gmap loc Layout :=
  list_to_map [(1%positive, genome 1 5); (2%positive, genome 1 5);
               (3%positive, genome 1 5); (4%positive, genome 2 4)].

Definition tied_front : list loc := [1; 2; 3; 4]%positive.

Lemma crowding_distance_boundaries_witness :
  exists lmin lmax, lmin ∈ tied_front /\ lmax ∈ tied_front /\
    crowding_distance
      ((calculate_crowding_distance tied_front_heap tied_front).1 !!! lmin) = Inf /\
    crowding_distance
      ((calculate_crowding_distance tied_front_heap tied_front).1 !!! lmax) = Inf /\
    forall l, l ∈ tied_front ->
      (sfb (english_metrics
              ((calculate_crowding_distance tied_front_heap tied_front).1 !!! lmin))
       <= sfb (english_metrics
              ((calculate_crowding_distance tied_front_heap tied_front).1 !!! l)))%Q /\
      (sfb (english_metrics
              ((calculate_crowding_distance tied_front_heap tied_front).1 !!! l))
       <= sfb (english_metrics
              ((calculate_crowding_distance tied_front_heap tied_front).1 !!! lmax)))%Q.
Proof.
  destruct (crowding_distance_boundaries tied_front_heap tied_front
              (calculate_crowding_distance tied_front_heap tied_front).1
              (calculate_crowding_distance tied_front_heap tied_front).2)
    as (_ & _ & _ & H); [vm_compute; reflexivity|].
  apply (H ltac:(cbn; lia) (fun l => sfb (english_metrics l))). left.
Defined.

(** C7 (as stated) fails on ties: genome 2 holds the least English SFB rate
    and the greatest English scissors rate of the front, and its crowding
    distance stays finite. *)
Lemma tied_extreme_stays_finite :
  Forall (fun l => (sfb (english_metrics (tied_front_heap !!! 2%positive))
                    <= sfb (english_metrics (tied_front_heap !!! l)))%Q) tied_front /\
  Forall (fun l => (scissors (english_metrics (tied_front_heap !!! l))
                    <= scissors (english_metrics (tied_front_heap !!! 2%positive)))%Q)
         tied_front /\
  (length tied_front > 2)%nat /\
  crowding_distance
    ((calculate_crowding_distance tied_front_heap tied_front).1 !!! 2%positive)
    <> Inf.
Proof.
  split; [repeat constructor; apply Qle_bool_iff; vm_compute; reflexivity|].
  split; [repeat constructor; apply Qle_bool_iff; vm_compute; reflexivity|].
  split; [cbn; lia|]. vm_compute. discriminate.
Qed.

(** ** Zero-range objectives *)

Lemma Qlt_bool_iff x y : Qlt_bool x y = true <-> (x < y)%Q.
Proof.
  unfold Qlt_bool. rewrite negb_true_iff. split.
  - intros H. apply Qnot_le_lt. intros Hle. apply Qle_bool_iff in Hle. congruence.
  - intros H. destruct (Qle_bool y x) eqn:E; [|reflexivity].
    apply Qle_bool_iff in E. exfalso. eapply Qlt_not_le; eassumption.
Qed.

Lemma Qlt_bool_false x y : Qlt_bool x y = false <-> (y <= x)%Q.
Proof.
  unfold Qlt_bool. rewrite negb_false_iff. apply Qle_bool_iff.
Qed.

Lemma fold_max_bounds l : forall m,
  (m <= fold_left (fun m y => if Qlt_bool m y then y else m) l m)%Q /\
  forall y, y ∈ l ->
    (y <= fold_left (fun m y => if Qlt_bool m y then y else m) l m)%Q.
Proof.
  induction l as [|x l IH]; intros m; cbn [fold_left].
  - split; [apply Qle_refl|]. intros y Hy. inversion Hy.
  - destruct (IH (if Qlt_bool m x then x else m)) as [Hm Hl].
    assert (Hmx : (m <= (if Qlt_bool m x then x else m))%Q /\
                  (x <= (if Qlt_bool m x then x else m))%Q).
    { destruct (Qlt_bool m x) eqn:E.
      - apply Qlt_bool_iff in E. split; [apply Qlt_le_weak; assumption|apply Qle_refl].
      - apply Qlt_bool_false in E. split; [apply Qle_refl|assumption]. }
    destruct Hmx as [Hm1 Hx1]. split.
    + eapply Qle_trans; eassumption.
    + intros y Hy. apply elem_of_cons in Hy as [->|Hy]; [|auto].
      eapply Qle_trans; eassumption.
Qed.

Lemma fold_min_bounds l : forall m,
  (fold_left (fun m y => if Qlt_bool y m then y else m) l m <= m)%Q /\
  forall y, y ∈ l ->
    (fold_left (fun m y => if Qlt_bool y m then y else m) l m <= y)%Q.
Proof.
  induction l as [|x l IH]; intros m; cbn [fold_left].
  - split; [apply Qle_refl|]. intros y Hy. inversion Hy.
  - destruct (IH (if Qlt_bool x m then x else m)) as [Hm Hl].
    assert (Hmx : ((if Qlt_bool x m then x else m) <= m)%Q /\
                  ((if Qlt_bool x m then x else m) <= x)%Q).
    { destruct (Qlt_bool x m) eqn:E.
      - apply Qlt_bool_iff in E. split; [apply Qlt_le_weak; assumption|apply Qle_refl].
      - apply Qlt_bool_false in E. split; [apply Qle_refl|assumption]. }
    destruct Hmx as [Hm1 Hx1]. split.
    + eapply Qle_trans; eassumption.
    + intros y Hy. apply elem_of_cons in Hy as [->|Hy]; [|auto].
      eapply Qle_trans; eassumption.
Qed.

Lemma py_max_ge l y : y ∈ l -> (y <= py_max l)%Q.
Proof.
  destruct l as [|x l]; [inversion 1|]. cbn.
  intros Hy. apply elem_of_cons in Hy as [->|Hy].
  - apply (proj1 (fold_max_bounds l x)).
  - apply (proj2 (fold_max_bounds l x)). assumption.
Qed.

Lemma py_min_le l y : y ∈ l -> (py_min l <= y)%Q.
Proof.
  destruct l as [|x l]; [inversion 1|]. cbn.
  intros Hy. apply elem_of_cons in Hy as [->|Hy].
  - apply (proj1 (fold_min_bounds l x)).
  - apply (proj2 (fold_min_bounds l x)). assumption.
Qed.

(** C8 (amended). In a front of more than two genomes, an objective whose
    greatest and least values are equal adds nothing to any crowding
    distance and leaves the order of the front as it was; its only effect is
    that the first and the last genome of the front get an infinite
    distance, which happens before the range is looked at. *)
Theorem zero_range_objective h front obj :
  obj ∈ objectives ->
  (2 < length front)%nat ->
  (py_max (map (fun l => obj (h !!! l)) front)
     == py_min (map (fun l => obj (h !!! l)) front))%Q ->
  crowd_objective (h, front) obj =
  (update (set_crowding_distance Inf) (front !!! (length front - 1)%nat)
     (update (set_crowding_distance Inf) (front !!! 0%nat) h),
   front).
Proof.
  intros Hobj Hlen Hrange.
  assert (Hm : metric_only obj).
  { pose proof objectives_metric_only as HF. rewrite Forall_forall in HF. auto. }
  assert (Hflat : forall x y, x ∈ front -> y ∈ front ->
            (obj (h !!! x) <= obj (h !!! y))%Q).
  { intros x y Hx Hy.
    apply (Qle_trans _ (py_max (map (fun l => obj (h !!! l)) front))).
    - apply py_max_ge. apply (list_elem_of_fmap_2 (fun l => obj (h !!! l))). assumption.
    - rewrite Hrange. apply py_min_le.
      apply (list_elem_of_fmap_2 (fun l => obj (h !!! l))). assumption. }
  unfold crowd_objective.
  rewrite (sort_by_key_constant (fun l => obj (h !!! l)) front Hflat).
  set (hb := update _ (front !!! (length front - 1)%nat) _).
  assert (Hhb : cd_step h hb).
  { eapply cd_step_trans; apply cd_step_set_inf. }
  assert (Hvals : map (fun l => obj (hb !!! l)) front
                  = map (fun l => obj (h !!! l)) front).
  { apply map_ext. intros l. apply metric_only_cd_step; assumption. }
  rewrite Hvals.
  assert (Hno : Qlt_bool 0 (py_max (map (fun l => obj (h !!! l)) front)
                            - py_min (map (fun l => obj (h !!! l)) front)) = false).
  { apply Qlt_bool_false. lra. }
  rewrite Hno. reflexivity.
Qed.

Definition equal_heap : gmap loc Layout :=
  list_to_map [(1%positive, genome 1 5); (2%positive, genome 1 5);
               (3%positive, genome 1 5)].

Definition equal_front : list loc := [1; 2; 3]%positive.

Lemma zero_range_objective_witness :
  crowd_objective (equal_heap, equal_front) (fun l => sfb (english_metrics l)) =
  (update (set_crowding_distance Inf) 3%positive
     (update (set_crowding_distance Inf) 1%positive equal_heap),
   equal_front).
Proof.
  apply (zero_range_objective equal_heap equal_front
           (fun l => sfb (english_metrics l))).
  - left.
  - cbn. lia.
  - vm_compute. reflexivity.
Defined.

(** C8 (as stated) fails: every objective has range zero on [equal_front],
    yet one objective step, and the whole computation, move genomes 1 and 3
    from distance 0 to infinity. *)
Lemma zero_range_sets_boundaries :
  Forall (fun obj : Layout -> Q =>
            (py_max (map (fun l => obj (equal_heap !!! l)) equal_front)
               == py_min (map (fun l => obj (equal_heap !!! l)) equal_front))%Q)
         objectives /\
  map (fun l => crowding_distance (equal_heap !!! l)) equal_front
    = [Fin 0; Fin 0; Fin 0] /\
  map (fun l => crowding_distance
                  ((crowd_objective (equal_heap, equal_front)
                      (fun l => sfb (english_metrics l))).1 !!! l)) equal_front
    = [Inf; Fin 0; Inf] /\
  map (fun l => crowding_distance
                  ((calculate_crowding_distance equal_heap equal_front).1 !!! l))
      equal_front
    = [Inf; Fin 0; Inf].
Proof.
  split; [repeat constructor; vm_compute; reflexivity|].
  repeat split; vm_compute; reflexivity.
Qed.

(** ** Truncation to the next generation *)

Lemma take_whole_fronts_all_fit fronts population_size : forall new_population,
  (length new_population + length (concat fronts) <= population_size)%nat ->
  take_whole_fronts fronts population_size new_population = Raise IndexError.
Proof.
  induction fronts as [|front fronts IH]; intros new_population Hfit; [reflexivity|].
  cbn [take_whole_fronts concat] in *. rewrite length_app in Hfit.
  rewrite bool_decide_eq_true_2 by lia.
  apply IH. rewrite length_app. lia.
Qed.

Lemma take_whole_fronts_overflow fronts population_size : forall new_population,
  (length new_population <= population_size)%nat ->
  (population_size < length new_population + length (concat fronts))%nat ->
  exists whole front rest,
    fronts = whole ++ front :: rest /\
    take_whole_fronts fronts population_size new_population
      = Ok (new_population ++ concat whole, front :: rest) /\
    (length (new_population ++ concat whole) <= population_size)%nat /\
    (population_size < length (new_population ++ concat whole) + length front)%nat.
Proof.
  induction fronts as [|front fronts IH]; intros new_population Hle Hover.
  { cbn in Hover. lia. }
  cbn [take_whole_fronts concat] in *. rewrite length_app in Hover.
  case_bool_decide as Hfit.
  - destruct (IH (new_population ++ front)) as (whole & f & rest & -> & Heq & H1 & H2).
    { rewrite length_app. lia. }
    { rewrite length_app. lia. }
    exists (front :: whole), f, rest. cbn [concat].
    rewrite app_assoc. auto.
  - exists [], front, fronts. cbn [concat]. rewrite app_nil_r.
    repeat split; [assumption|lia].
Qed.

(** When the ranked pool is larger than [population_size] the truncation
    returns exactly [population_size] genomes: the whole fronts that fit, then
    the head of the next front sorted by descending crowding distance. *)
Lemma truncation_fills_population h fronts population_size :
  (population_size < length (concat fronts))%nat ->
  exists whole front rest,
    fronts = whole ++ front :: rest /\
    select_next_generation h fronts population_size =
      Ok (concat whole ++
          take (population_size - length (concat whole))
               (stable_sort
                  (fun x y => fdist_le (crowding_distance (h !!! y))
                                       (crowding_distance (h !!! x))) front)) /\
    forall new_population,
      select_next_generation h fronts population_size = Ok new_population ->
      length new_population = population_size.
Proof.
  intros Hover.
  destruct (take_whole_fronts_overflow fronts population_size [])
    as (whole & front & rest & Hsplit & Heq & Hle & Hlt); [cbn; lia..|].
  cbn [app] in *. exists whole, front, rest. split; [assumption|].
  unfold select_next_generation. rewrite Heq.
  case_bool_decide as Hfill.
  - split; [reflexivity|]. intros np [= <-].
    rewrite length_app, length_take, (Permutation_length (stable_sort_perm _ front)).
    lia.
  - assert (Hfull : length (concat whole) = population_size) by lia.
    rewrite Hfull, Nat.sub_diag, take_0, app_nil_r.
    split; [reflexivity|]. intros np [= <-]. assumption.
Qed.

(** C9: where the code departs from the claim.  When every front fits, that
    is when the ranked pool has at most [population_size] genomes (no
    offspring was drawn), the loop over whole fronts runs past the last front
    and [fronts[front_index]] raises IndexError. *)
Theorem truncation_raises_when_pool_fits h fronts population_size :
  (length (concat fronts) <= population_size)%nat ->
  select_next_generation h fronts population_size = Raise IndexError.
Proof.
  intros Hfit. unfold select_next_generation.
  rewrite take_whole_fronts_all_fit by (cbn; lia). reflexivity.
Qed.

Lemma truncation_raises_when_pool_fits_witness :
  select_next_generation equal_heap [equal_front] 3 = Raise IndexError.
Proof.
  apply (truncation_raises_when_pool_fits equal_heap [equal_front] 3).
  cbn. lia.
Defined.

(** The same on a whole generation: one evaluated parent, no mutation drawn,
    population size 1. *)
Example generation_without_offspring_raises :
  outcome (generation scissors_optimizer parent_store [1%positive] [None] 1)
  = Raise IndexError.
Proof. vm_compute. reflexivity. Qed.

Example generation_with_offspring_returns :
  exists st, outcome (generation scissors_optimizer parent_store [1%positive]
                        [Some (0, 1)%nat] 1) = Ok (st, [1%positive]).
Proof. eexists. vm_compute. reflexivity. Qed.

(** ** Domination *)

(** The sum of the eight objectives: it strictly decreases along
    domination. *)
Definition objective_sum (L : Layout) : Q :=
  fold_right Qplus 0%Q (objective_vector L).

Lemma dominates_objective_sum a b :
  dominates a b = true -> (objective_sum a < objective_sum b)%Q.
Proof.
  unfold dominates, objective_sum, objective_vector.
  cbn [zip zip_with forallb existsb fold_right fst snd].
  intros H. apply andb_prop in H as [Hall Hex].
  repeat match goal with
  | H : _ && _ = true |- _ => apply andb_prop in H as [? ?]
  end.
  repeat match goal with
  | H : Qle_bool _ _ = true |- _ => apply Qle_bool_iff in H
  end.
  repeat match goal with
  | H : _ || _ = true |- _ => apply orb_prop in H as [H|H]
  end;
  try discriminate;
  apply Qlt_bool_iff in Hex; lra.
Qed.

Lemma dominates_irrefl a : dominates a a = false.
Proof.
  destruct (dominates a a) eqn:E; [|reflexivity].
  apply dominates_objective_sum in E. exfalso. eapply Qlt_irrefl; eassumption.
Qed.

Lemma dominates_asym a b : dominates a b = true -> dominates b a = false.
Proof.
  intros Hab. destruct (dominates b a) eqn:E; [|reflexivity].
  apply dominates_objective_sum in Hab, E. lra.
Qed.

Lemma dominates_same_metrics a a' b b' :
  same_metrics a a' -> same_metrics b b' -> dominates a b = dominates a' b'.
Proof.
  intros [Ea Fa] [Eb Fb]. unfold dominates, objective_vector.
  rewrite Ea, Fa, Eb, Fb. reflexivity.
Qed.

(** A non-empty list has an element of least measure. *)
Lemma exists_least {A} (f : A -> Q) (l : list A) :
  l <> [] -> exists x, x ∈ l /\ forall y, y ∈ l -> (f x <= f y)%Q.
Proof.
  induction l as [|a l IH]; [congruence|]. intros _.
  destruct l as [|b l'].
  - exists a. split; [left|]. intros y Hy. apply list_elem_of_singleton in Hy as ->.
    apply Qle_refl.
  - destruct IH as (x & Hx & Hmin); [congruence|].
    destruct (Qlt_le_dec (f a) (f x)) as [Hlt|Hle].
    + exists a. split; [left|]. intros y Hy.
      apply elem_of_cons in Hy as [->|Hy]; [apply Qle_refl|].
      apply Qlt_le_weak. eapply Qlt_le_trans; [exact Hlt|]. auto.
    + exists x. split; [right; assumption|]. intros y Hy.
      apply elem_of_cons in Hy as [->|Hy]; auto.
Qed.

(** ** The non-dominated sort *)

Lemma update_lookup_eq f l (h : gmap loc Layout) : update f l h !!! l = f (h !!! l).
Proof. rewrite update_lookup, decide_True by reflexivity. reflexivity. Qed.

Lemma update_lookup_ne f l l' (h : gmap loc Layout) :
  l <> l' -> update f l h !!! l' = h !!! l'.
Proof. intros Hne. rewrite update_lookup, decide_False by assumption. reflexivity. Qed.

Lemma enumerate_lookup {A} (l : list A) j x :
  (j, x) ∈ enumerate l -> l !! j = Some x.
Proof.
  unfold enumerate. intros Hin.
  apply list_elem_of_lookup_1 in Hin as [i Hi].
  apply lookup_zip_with_Some in Hi as (a & b & [= <- <-] & Ha & Hb).
  apply lookup_seq in Ha as [-> _]. assumption.
Qed.

Lemma enumerate_snd {A} (l : list A) : (enumerate l).*2 = l.
Proof. unfold enumerate. apply snd_zip. rewrite length_seq. lia. Qed.

Lemma filter_snd {A B} (P : B -> Prop) `{forall b, Decision (P b)} (es : list (A * B)) :
  (filter (fun e => P e.2) es).*2 = filter P (es.*2).
Proof.
  induction es as [|[a b] es IH]; [reflexivity|].
  rewrite fmap_cons, !filter_cons. cbn [snd].
  destruct (decide (P b)); rewrite ?fmap_cons, IH; reflexivity.
Qed.

Lemma elem_of_concat {A} (x : A) (ls : list (list A)) :
  x ∈ concat ls <-> exists l, l ∈ ls /\ x ∈ l.
Proof.
  induction ls as [|l ls IH]; cbn [concat].
  - split; [inversion 1|]. intros (l & Hl & _). inversion Hl.
  - rewrite elem_of_app, IH. split.
    + intros [Hx|(l' & Hl' & Hx)]; [exists l; split; [left|assumption]|].
      exists l'. split; [right|]; assumption.
    + intros (l' & Hl' & Hx). apply elem_of_cons in Hl' as [->|Hl']; eauto.
Qed.

Section NonDominatedSort.
Variable population : list loc.
Hypothesis population_distinct : NoDup population.
Variable h0 : gmap loc Layout.

(** [Dominates a b]: the genome at [a] dominates the genome at [b]. *)
Definition Dominates (a b : loc) : Prop := dominates (h0 !!! a) (h0 !!! b) = true.

Local Instance Dominates_dec a b : Decision (Dominates a b).
Proof. unfold Dominates. apply _. Defined.

Definition dominators (l : loc) : list loc := filter (fun l' => Dominates l' l) population.
Definition dominated (l : loc) : list loc := filter (fun l' => Dominates l l') population.

Definition keeps_metrics (h : gmap loc Layout) : Prop :=
  forall l, same_metrics (h0 !!! l) (h !!! l).

Lemma keeps_metrics_dominates h a b :
  keeps_metrics h -> dominates (h !!! a) (h !!! b) = dominates (h0 !!! a) (h0 !!! b).
Proof. intros Hk. symmetry. apply dominates_same_metrics; apply Hk. Qed.

Lemma keeps_metrics_update f l h :
  (forall L, same_metrics L (f L)) -> keeps_metrics h -> keeps_metrics (update f l h).
Proof.
  intros Hf Hk l'. rewrite update_lookup. destruct (decide (l = l')) as [->|_].
  - destruct (Hk l') as [E F], (Hf (h !!! l')) as [E' F']. split; congruence.
  - apply Hk.
Qed.

(** *** First loop *)

Lemma compare_with_step layout_i h j layout_j :
  keeps_metrics h ->
  compare_with layout_i h (j, layout_j) =
  if decide (Dominates layout_i layout_j) then
    update (fun L => set_dominated_solutions (dominated_solutions L ++ [j]) L)
           layout_i h
  else if decide (Dominates layout_j layout_i) then
    update (fun L => set_domination_count (domination_count L + 1) L) layout_i h
  else h.
Proof.
  intros Hk. unfold compare_with.
  rewrite (keeps_metrics_dominates h layout_i layout_j Hk).
  rewrite (keeps_metrics_dominates h layout_j layout_i Hk).
  destruct (decide (Dominates layout_i layout_j)) as [Eij|Eij]; unfold Dominates in Eij.
  - rewrite Eij. reflexivity.
  - apply not_true_is_false in Eij. rewrite Eij.
    destruct (decide (Dominates layout_j layout_i)) as [Eji|Eji]; unfold Dominates in Eji.
    + rewrite Eji. reflexivity.
    + apply not_true_is_false in Eji. rewrite Eji. reflexivity.
Qed.

Lemma Dominates_asym a b : Dominates a b -> ~ Dominates b a.
Proof. unfold Dominates. intros Hab Hba. apply dominates_asym in Hab. congruence. Qed.

Lemma compare_fold layout_i es : forall h,
  keeps_metrics h ->
  let h' := fold_left (compare_with layout_i) es h in
  keeps_metrics h' /\
  (forall l, l <> layout_i -> h' !!! l = h !!! l) /\
  domination_count (h' !!! layout_i) =
    domination_count (h !!! layout_i)
    + Z.of_nat (length (filter (fun e => Dominates e.2 layout_i) es)) /\
  dominated_solutions (h' !!! layout_i) =
    dominated_solutions (h !!! layout_i)
    ++ (filter (fun e => Dominates layout_i e.2) es).*1.
Proof.
  induction es as [|[j layout_j] es IH]; intros h Hk; cbn [fold_left].
  - cbn. rewrite Z.add_0_r, app_nil_r. auto.
  - rewrite !filter_cons. cbn [snd].
    rewrite compare_with_step by assumption.
    destruct (decide (Dominates layout_i layout_j)) as [Eij|Eij].
    + rewrite (decide_False (P := Dominates layout_j layout_i))
        by (apply Dominates_asym; assumption).
      set (h1 := update _ layout_i h).
      assert (Hk1 : keeps_metrics h1)
        by (apply keeps_metrics_update; [intros; split; reflexivity|assumption]).
      destruct (IH h1 Hk1) as (Hk' & Hother & Hcount & Hdoms).
      split; [assumption|]. split.
      { intros l Hl. rewrite Hother by assumption.
        apply update_lookup_ne. congruence. }
      rewrite Hcount, Hdoms. unfold h1. rewrite !update_lookup_eq. cbn.
      rewrite <- app_assoc. auto.
    + destruct (decide (Dominates layout_j layout_i)) as [Eji|Eji].
      * set (h1 := update _ layout_i h).
        assert (Hk1 : keeps_metrics h1)
          by (apply keeps_metrics_update; [intros; split; reflexivity|assumption]).
        destruct (IH h1 Hk1) as (Hk' & Hother & Hcount & Hdoms).
        split; [assumption|]. split.
        { intros l Hl. rewrite Hother by assumption.
          apply update_lookup_ne. congruence. }
        rewrite Hcount, Hdoms. unfold h1. rewrite !update_lookup_eq.
        cbn [length domination_count dominated_solutions
             set_domination_count].
        split; [lia|reflexivity].
      * destruct (IH h Hk) as (Hk' & Hother & Hcount & Hdoms). auto.
Qed.

(** The values the first loop leaves in [domination_count] and
    [dominated_solutions]. *)
Definition dominator_count (l : loc) : Z := Z.of_nat (length (dominators l)).
Definition dominated_indices (l : loc) : list nat :=
  (filter (fun e => Dominates l e.2) (enumerate population)).*1.

Lemma scan_spec h front0 layout_i :
  keeps_metrics h ->
  keeps_metrics (scan population (h, front0) layout_i).1 /\
  (forall l, l <> layout_i ->
     (scan population (h, front0) layout_i).1 !!! l = h !!! l) /\
  domination_count ((scan population (h, front0) layout_i).1 !!! layout_i)
    = dominator_count layout_i /\
  dominated_solutions ((scan population (h, front0) layout_i).1 !!! layout_i)
    = dominated_indices layout_i /\
  (scan population (h, front0) layout_i).2
    = front0 ++ (if decide (dominator_count layout_i = 0) then [layout_i] else []).
Proof.
  intros Hk. unfold scan.
  set (h1 := update (set_domination_count 0) layout_i h).
  set (h2 := update (set_dominated_solutions []) layout_i h1).
  assert (Hk2 : keeps_metrics h2).
  { apply keeps_metrics_update; [intros; split; reflexivity|].
    apply keeps_metrics_update; [intros; split; reflexivity|assumption]. }
  destruct (compare_fold layout_i (enumerate population) h2 Hk2)
    as (Hk3 & Hother & Hcount & Hdoms).
  set (h3 := fold_left (compare_with layout_i) (enumerate population) h2) in *.
  assert (Hc : domination_count (h3 !!! layout_i) = dominator_count layout_i).
  { rewrite Hcount. unfold h2, h1. rewrite !update_lookup_eq. cbn.
    unfold dominator_count, dominators.
    rewrite <- (enumerate_snd population) at 2.
    rewrite <- (filter_snd (fun l' => Dominates l' layout_i)), length_fmap. reflexivity. }
  assert (Hd : dominated_solutions (h3 !!! layout_i) = dominated_indices layout_i).
  { rewrite Hdoms. unfold h2. rewrite update_lookup_eq. reflexivity. }
  assert (Ho : forall l, l <> layout_i -> h3 !!! l = h !!! l).
  { intros l Hl. rewrite Hother by assumption. unfold h2, h1.
    rewrite !update_lookup_ne by congruence. reflexivity. }
  rewrite Hc. destruct (Z.eqb_spec (dominator_count layout_i) 0) as [E|E].
  - rewrite decide_True by assumption. cbn [fst snd].
    split; [apply keeps_metrics_update; [intros; split; reflexivity|assumption]|].
    split; [intros l Hl; rewrite update_lookup_ne by congruence; auto|].
    rewrite update_lookup_eq. cbn. auto.
  - rewrite decide_False by assumption. cbn [fst snd].
    rewrite app_nil_r. auto.
Qed.

Lemma first_loop_spec post : forall pre h front0,
  population = pre ++ post ->
  keeps_metrics h ->
  (forall l, l ∈ pre ->
     domination_count (h !!! l) = dominator_count l /\
     dominated_solutions (h !!! l) = dominated_indices l) ->
  keeps_metrics (fold_left (scan population) post (h, front0)).1 /\
  (forall l, l ∈ population ->
     domination_count ((fold_left (scan population) post (h, front0)).1 !!! l)
       = dominator_count l /\
     dominated_solutions ((fold_left (scan population) post (h, front0)).1 !!! l)
       = dominated_indices l) /\
  (fold_left (scan population) post (h, front0)).2
    = front0 ++ filter (fun l => dominator_count l = 0) post.
Proof.
  induction post as [|layout_i post IH]; intros pre h front0 Hsplit Hk Hpre.
  - cbn. rewrite app_nil_r in *. subst pre. auto.
  - cbn [fold_left].
    destruct (scan_spec h front0 layout_i Hk) as (Hk1 & Hother & Hc & Hd & Hf).
    destruct (scan population (h, front0) layout_i) as [h1 front1].
    cbn [fst snd] in *.
    assert (Hnotin : layout_i ∉ pre).
    { pose proof population_distinct as Hnd. rewrite Hsplit in Hnd.
      apply NoDup_app in Hnd as (_ & Hdisj & _).
      intros Hin. apply (Hdisj _ Hin). left. }
    destruct (IH (pre ++ [layout_i]) h1 front1) as (Hk' & Hall & Hfront).
    + rewrite <- app_assoc. exact Hsplit.
    + assumption.
    + intros l Hl. apply elem_of_app in Hl as [Hl|Hl].
      * rewrite Hother by (intros ->; contradiction). auto.
      * apply list_elem_of_singleton in Hl as ->. auto.
    + split; [assumption|]. split; [assumption|].
      rewrite Hfront, Hf, filter_cons, <- app_assoc.
      destruct (decide (dominator_count layout_i = 0)); reflexivity.
Qed.

Lemma dominated_indices_targets l :
  (fun j => population !!! j) <$> dominated_indices l = dominated l.
Proof.
  unfold dominated_indices, dominated.
  rewrite <- (enumerate_snd population) at 2.
  rewrite <- (filter_snd (fun l' => Dominates l l')).
  rewrite <- list_fmap_compose. apply list_fmap_ext.
  intros i [j x] Hin. cbn.
  apply list_elem_of_lookup_2, list_elem_of_filter in Hin as [_ Hin].
  apply list_lookup_total_correct, enumerate_lookup. assumption.
Qed.

(** *** Second loop *)

(** [relax] on the object itself rather than on its index. *)
Definition relax_loc (front_index : nat) (acc : gmap loc Layout * list loc)
    (pj : loc) : gmap loc Layout * list loc :=
  let h1 := update (fun L => set_domination_count (domination_count L - 1) L)
                   pj acc.1 in
  if domination_count (h1 !!! pj) =? 0 then
    (update (set_rank (Z.of_nat front_index + 1)) pj h1, acc.2 ++ [pj])
  else (h1, acc.2).

Lemma relax_fold_loc front_index js : forall acc,
  fold_left (relax population front_index) js acc =
  fold_left (relax_loc front_index) ((fun j => population !!! j) <$> js) acc.
Proof.
  induction js as [|j js IH]; intros [h nf]; [reflexivity|].
  cbn [fold_left fmap list_fmap]. rewrite <- IH. reflexivity.
Qed.

Definition occurrences (l : loc) (targets : list loc) : nat :=
  length (filter (fun x => x = l) targets).

Lemma relax_fold front_index targets : forall h nf,
  let r := fold_left (relax_loc front_index) targets (h, nf) in
  (keeps_metrics h -> keeps_metrics r.1) /\
  (forall l, dominated_solutions (r.1 !!! l) = dominated_solutions (h !!! l)) /\
  (forall l, domination_count (r.1 !!! l)
             = domination_count (h !!! l) - Z.of_nat (occurrences l targets)) /\
  exists extra, r.2 = nf ++ extra /\ NoDup extra /\
    forall l, l ∈ extra <->
      1 <= domination_count (h !!! l) <= Z.of_nat (occurrences l targets).
Proof.
  induction targets as [|t ts IH]; intros h nf r.
  - subst r. cbn. split; [auto|]. split; [auto|].
    split; [intros; lia|]. exists []. rewrite app_nil_r.
    split; [reflexivity|]. split; [constructor|].
    intros l. split; [inversion 1|lia].
  - subst r. cbn [fold_left]. unfold relax_loc at 2 4 6 8. cbn [fst snd].
    set (h1 := update (fun L => set_domination_count (domination_count L - 1) L) t h).
    assert (Hc1 : forall l, domination_count (h1 !!! l) =
                if decide (t = l) then domination_count (h !!! t) - 1
                else domination_count (h !!! l)).
    { intros l. unfold h1. rewrite update_lookup.
      destruct (decide (t = l)) as [->|_]; reflexivity. }
    assert (Hd1 : forall l, dominated_solutions (h1 !!! l)
                            = dominated_solutions (h !!! l)).
    { intros l. unfold h1. rewrite update_lookup.
      destruct (decide (t = l)) as [->|_]; reflexivity. }
    assert (Hk1 : keeps_metrics h -> keeps_metrics h1).
    { apply keeps_metrics_update. intros; split; reflexivity. }
    assert (Hocc : forall l, occurrences l (t :: ts)
                             = if decide (t = l) then S (occurrences l ts) else occurrences l ts).
    { intros l. unfold occurrences. rewrite filter_cons.
      destruct (decide (t = l)); reflexivity. }
    destruct (Z.eqb_spec (domination_count (h1 !!! t)) 0) as [Ez|Ez].
    + set (h2 := update (set_rank (Z.of_nat front_index + 1)) t h1).
      assert (Hc2 : forall l, domination_count (h2 !!! l)
                              = domination_count (h1 !!! l)).
      { intros l. unfold h2. rewrite update_lookup.
        destruct (decide (t = l)) as [->|_]; reflexivity. }
      assert (Hd2 : forall l, dominated_solutions (h2 !!! l)
                              = dominated_solutions (h1 !!! l)).
      { intros l. unfold h2. rewrite update_lookup.
        destruct (decide (t = l)) as [->|_]; reflexivity. }
      destruct (IH h2 (nf ++ [t])) as (Hk & Hd & Hc & extra & Hr & Hnd & Hin).
      split.
      { intros Hk0. apply Hk. apply keeps_metrics_update; [|auto].
        intros; split; reflexivity. }
      split; [intros l; rewrite Hd, Hd2, Hd1; reflexivity|].
      split.
      { intros l. rewrite Hc, Hc2, Hc1, Hocc.
        destruct (decide (t = l)) as [->|_]; lia. }
      exists (t :: extra). split; [rewrite Hr, <- app_assoc; reflexivity|].
      rewrite Hc1, decide_True in Ez by reflexivity.
      split.
      { constructor; [|assumption]. rewrite Hin, Hc2, Hc1.
        rewrite decide_True by reflexivity. lia. }
      intros l. rewrite elem_of_cons, Hin, Hc2, Hc1, Hocc.
      destruct (decide (t = l)) as [->|Hne]; [lia|].
      split; [intros [->|?]; [congruence|assumption]|auto].
    + destruct (IH h1 nf) as (Hk & Hd & Hc & extra & Hr & Hnd & Hin).
      split; [auto|].
      split; [intros l; rewrite Hd, Hd1; reflexivity|].
      split.
      { intros l. rewrite Hc, Hc1, Hocc.
        destruct (decide (t = l)) as [->|_]; lia. }
      exists extra. split; [assumption|]. split; [assumption|].
      rewrite Hc1, decide_True in Ez by reflexivity.
      intros l. rewrite Hin, Hc1, Hocc.
      destruct (decide (t = l)) as [->|Hne]; lia.
Qed.

Lemma peel_front_targets front_index front : forall h nf,
  (forall l, l ∈ front -> dominated_solutions (h !!! l) = dominated_indices l) ->
  fold_left
    (fun acc layout_i =>
       fold_left (relax population front_index)
                 (dominated_solutions (acc.1 !!! layout_i)) acc)
    front (h, nf)
  = fold_left (relax_loc front_index) (concat (dominated <$> front)) (h, nf).
Proof.
  induction front as [|layout_i front IH]; intros h nf Hdoms; [reflexivity|].
  cbn [fold_left fmap list_fmap concat fst]. rewrite fold_left_app.
  rewrite Hdoms by left. rewrite relax_fold_loc, dominated_indices_targets.
  destruct (relax_fold front_index (dominated layout_i) h nf) as (_ & Hd & _).
  destruct (fold_left (relax_loc front_index) (dominated layout_i) (h, nf))
    as [h1 nf1]. cbn [fst] in Hd.
  apply IH. intros l Hl. rewrite Hd. apply Hdoms. right. assumption.
Qed.

Lemma occurrences_NoDup l xs :
  NoDup xs -> occurrences l xs = if decide (l ∈ xs) then 1%nat else 0%nat.
Proof.
  unfold occurrences. induction 1 as [|x xs Hx Hnd IH]; [reflexivity|].
  rewrite filter_cons.
  destruct (decide (x = l)) as [->|Hne]; cbn [length]; rewrite IH.
  - rewrite decide_False by assumption.
    rewrite decide_True by left. reflexivity.
  - destruct (decide (l ∈ xs)) as [Hin|Hout].
    + rewrite decide_True by (right; assumption). reflexivity.
    + rewrite decide_False; [reflexivity|].
      intros Hin. apply elem_of_cons in Hin as [->|Hin]; contradiction.
Qed.

Lemma occurrences_targets l front :
  l ∈ population ->
  occurrences l (concat (dominated <$> front)) = length (filter (fun l' => Dominates l' l) front).
Proof.
  intros Hl. induction front as [|x front IH]; [reflexivity|].
  cbn [fmap list_fmap concat]. unfold occurrences in *.
  rewrite filter_app, length_app, IH, filter_cons.
  fold (occurrences l (dominated x)).
  rewrite occurrences_NoDup by (apply NoDup_filter; exact population_distinct).
  unfold dominated.
  destruct (decide (Dominates x l)) as [Hd|Hd].
  - rewrite decide_True by (apply list_elem_of_filter; auto). reflexivity.
  - rewrite decide_False; [reflexivity|].
    intros Hin. apply list_elem_of_filter in Hin as [? _]. contradiction.
Qed.

Lemma occurrences_targets_outside l front :
  l ∉ population -> occurrences l (concat (dominated <$> front)) = 0%nat.
Proof.
  intros Hl. unfold occurrences.
  destruct (filter (fun x => x = l) (concat (dominated <$> front))) as [|x xs] eqn:E;
    [reflexivity|].
  assert (Hin : x ∈ filter (fun x => x = l) (concat (dominated <$> front)))
    by (rewrite E; left).
  apply list_elem_of_filter in Hin as [-> Hin].
  apply elem_of_concat in Hin as (ys & Hys & Hin).
  apply list_elem_of_fmap in Hys as (y & -> & _).
  apply list_elem_of_filter in Hin as [_ Hin]. contradiction.
Qed.

(** Counting inside a duplicate-free part of the population. *)
Lemma filter_part_le (P : loc -> Prop) `{forall x, Decision (P x)} xs :
  NoDup xs -> (forall x, x ∈ xs -> x ∈ population) ->
  (length (filter P xs) <= length (filter P population))%nat /\
  (length (filter P xs) = length (filter P population) ->
   forall x, x ∈ population -> P x -> x ∈ xs).
Proof.
  intros Hnd Hsub.
  assert (Hsm : filter P xs ⊆+ filter P population).
  { apply NoDup_submseteq; [apply NoDup_filter; assumption|].
    intros x Hx. apply list_elem_of_filter in Hx as [HP Hx].
    apply list_elem_of_filter. auto. }
  split; [apply submseteq_length; assumption|].
  intros Hlen x Hx HP.
  assert (Hperm : filter P xs ≡ₚ filter P population)
    by (apply submseteq_length_Permutation; [assumption|lia]).
  assert (Hin : x ∈ filter P xs)
    by (rewrite Hperm; apply list_elem_of_filter; auto).
  apply list_elem_of_filter in Hin as [_ Hin]. assumption.
Qed.

Lemma filter_part_eq (P : loc -> Prop) `{forall x, Decision (P x)} xs :
  NoDup xs -> (forall x, x ∈ xs -> x ∈ population) ->
  (forall x, x ∈ population -> P x -> x ∈ xs) ->
  length (filter P xs) = length (filter P population).
Proof.
  intros Hnd Hsub Hall. apply Permutation_length.
  apply NoDup_Permutation; [apply NoDup_filter; assumption
                           |apply NoDup_filter; exact population_distinct|].
  intros x. rewrite !list_elem_of_filter. split; intros [HP Hx]; auto.
Qed.

(** *** The loop invariant *)

(** Every genome that dominates a member of front [i] lies in an earlier
    front. *)
Definition layered (fronts : list (list loc)) : Prop :=
  forall i F l l', fronts !! i = Some F -> l ∈ F ->
    l' ∈ population -> Dominates l' l -> l' ∈ concat (take i fronts).

(** [done] are the fronts whose members have been relaxed, [cur] is
    [fronts[front_index]]. *)
Record peel_inv (h : gmap loc Layout) (done : list (list loc))
    (cur : list loc) : Prop := {
  inv_metrics : keeps_metrics h;
  inv_doms : forall l, l ∈ population -> dominated_solutions (h !!! l) = dominated_indices l;
  inv_nodup : NoDup (concat done ++ cur);
  inv_sub : forall l, l ∈ concat done ++ cur -> l ∈ population;
  inv_count : forall l, l ∈ population ->
    domination_count (h !!! l)
    = dominator_count l - Z.of_nat (length (filter (fun l' => Dominates l' l) (concat done)));
  inv_placed : forall l, l ∈ population ->
    (l ∈ concat done ++ cur <-> domination_count (h !!! l) = 0);
  inv_layered : layered (done ++ [cur])
}.

Lemma concat_snoc (done : list (list loc)) cur :
  concat (done ++ [cur]) = concat done ++ cur.
Proof. rewrite concat_app. cbn. rewrite app_nil_r. reflexivity. Qed.

Lemma peel_step front_index h done cur :
  peel_inv h done cur ->
  peel_inv (peel_front population front_index h cur).1 (done ++ [cur])
           (peel_front population front_index h cur).2.
Proof.
  intros [Hk Hd Hnd Hsub Hc Hp Hl].
  unfold peel_front. rewrite peel_front_targets
    by (intros l Hin; apply Hd, Hsub, elem_of_app; right; assumption).
  destruct (relax_fold front_index (concat (dominated <$> cur)) h [])
    as (Hk' & Hd' & Hc' & next & Hr & Hndn & Hin).
  destruct (fold_left (relax_loc front_index) (concat (dominated <$> cur)) (h, []))
    as [h' nf]. cbn [fst snd app] in *. subst nf.
  assert (Hbound : forall l, l ∈ population ->
            (length (filter (fun l' => Dominates l' l) (concat done))
             + length (filter (fun l' => Dominates l' l) cur)
             <= length (dominators l))%nat).
  { intros l Hlp. rewrite <- length_app, <- filter_app.
    apply (filter_part_le (fun l' => Dominates l' l)); assumption. }
  assert (Hnext : forall l, l ∈ next -> l ∈ population).
  { intros l Hln. destruct (decide (l ∈ population)) as [|Hout]; [assumption|].
    apply Hin in Hln. rewrite (occurrences_targets_outside l cur Hout) in Hln. lia. }
  assert (Hplaced' : forall l, l ∈ population ->
            (l ∈ (concat done ++ cur) ++ next <-> domination_count (h' !!! l) = 0)).
  { intros l Hlp. rewrite elem_of_app, (Hp l Hlp), Hin, Hc', (Hc l Hlp).
    rewrite (occurrences_targets l cur Hlp). specialize (Hbound l Hlp).
    unfold dominator_count. lia. }
  split.
  - auto.
  - intros l Hlp. rewrite Hd'. auto.
  - rewrite concat_snoc. apply NoDup_app. split; [assumption|].
    split; [|assumption].
    intros l Hl1 Hl2. pose proof (Hsub l Hl1) as Hlp.
    apply (Hp l Hlp) in Hl1. apply Hin in Hl2. lia.
  - intros l. rewrite concat_snoc, elem_of_app. intros [?|?]; auto.
  - intros l Hlp. rewrite Hc', (Hc l Hlp), (occurrences_targets l cur Hlp).
    rewrite concat_snoc, filter_app, length_app. lia.
  - intros l Hlp. rewrite concat_snoc. auto.
  - intros i F l l' Hi HlF Hl' HD.
    destruct (decide (i < length (done ++ [cur]))%nat) as [Hlt|Hge].
    + rewrite lookup_app_l in Hi by assumption.
      rewrite take_app_le by lia. eapply Hl; eassumption.
    + rewrite lookup_app_r in Hi by lia.
      apply list_lookup_singleton_Some in Hi as [Hi <-].
      rewrite take_app_length' by lia. rewrite concat_snoc.
      pose proof (Hnext l HlF) as Hlp.
      assert (Hz : domination_count (h' !!! l) = 0).
      { apply Hplaced'; [assumption|]. apply elem_of_app. right. assumption. }
      rewrite Hc', (Hc l Hlp), (occurrences_targets l cur Hlp) in Hz.
      specialize (Hbound l Hlp).
      apply (proj2 (filter_part_le (fun l' => Dominates l' l) (concat done ++ cur)
                      Hnd Hsub)); [|assumption..].
      rewrite filter_app, length_app. unfold dominator_count in Hz. fold (dominators l). lia.
Qed.

Lemma peel_init h :
  keeps_metrics h ->
  (forall l, l ∈ population ->
     domination_count (h !!! l) = dominator_count l /\
     dominated_solutions (h !!! l) = dominated_indices l) ->
  peel_inv h [] (filter (fun l => dominator_count l = 0) population).
Proof.
  intros Hk Hall. split; cbn [concat app].
  - assumption.
  - intros l Hl. apply Hall. assumption.
  - apply NoDup_filter. exact population_distinct.
  - intros l Hl. apply list_elem_of_filter in Hl as [_ Hl]. assumption.
  - intros l Hl. rewrite (proj1 (Hall l Hl)). cbn. lia.
  - intros l Hl. rewrite (proj1 (Hall l Hl)), list_elem_of_filter. tauto.
  - intros i F l l' Hi HlF Hl' HD.
    apply list_lookup_singleton_Some in Hi as [-> <-].
    apply list_elem_of_filter in HlF as [Hz _].
    assert (Hin : l' ∈ dominators l) by (apply list_elem_of_filter; auto).
    unfold dominator_count in Hz. destruct (dominators l); [inversion Hin|cbn in Hz; lia].
Qed.

(** When the current front is empty every genome has been placed: an
    unplaced genome of least objective sum would have all its dominators
    placed, and so a count of zero. *)
Lemma peel_complete h done :
  peel_inv h done [] -> forall l, l ∈ population -> l ∈ concat done.
Proof.
  intros [Hk Hd Hnd Hsub Hc Hp Hl] l Hlp. rewrite app_nil_r in *.
  destruct (decide (l ∈ concat done)) as [|Hout]; [assumption|]. exfalso.
  set (U := filter (fun x => x ∉ concat done) population).
  assert (HU : U <> []).
  { intros E. assert (Hin : l ∈ U) by (apply list_elem_of_filter; auto).
    rewrite E in Hin. inversion Hin. }
  destruct (exists_least (fun x => objective_sum (h0 !!! x)) U HU)
    as (x & Hx & Hmin).
  apply list_elem_of_filter in Hx as [Hxout Hxp].
  destruct (decide (Forall (fun l' => l' ∈ concat done) (dominators x))) as [Hall|Hnall].
  - apply Hxout, (Hp x Hxp). rewrite (Hc x Hxp). unfold dominator_count, dominators.
    rewrite (filter_part_eq (fun l' => Dominates l' x) (concat done)); [lia|assumption..|].
    intros l' Hl' HD. rewrite Forall_forall in Hall. apply Hall.
    apply list_elem_of_filter. auto.
  - apply not_Forall_Exists in Hnall; [|apply _].
    apply Exists_exists in Hnall as (l' & Hl' & Hl'out). cbn in Hl'out.
    apply list_elem_of_filter in Hl' as [HD Hl'].
    assert (Hin : l' ∈ U) by (apply list_elem_of_filter; auto).
    apply Hmin in Hin. apply dominates_objective_sum in HD.
    eapply Qlt_not_le; eassumption.
Qed.

Lemma placed_length h done cur :
  peel_inv h done cur ->
  (length (concat done) + length cur <= length population)%nat.
Proof.
  intros [_ _ Hnd Hsub _ _ _]. rewrite <- length_app.
  apply submseteq_length, NoDup_submseteq; assumption.
Qed.

(** The [while] loop stops within its bound, and what it returns, without
    the last empty front, is a layered partition of the population. *)
Lemma peel_terminates fuel : forall h done cur,
  peel_inv h done cur ->
  (length population - length (concat done) < fuel)%nat ->
  exists h' fronts,
    peel fuel population h (done ++ [cur]) (length done) = Ok (h', fronts ++ [[]]) /\
    keeps_metrics h' /\ concat fronts ≡ₚ population /\ layered fronts.
Proof.
  induction fuel as [|fuel IH]; intros h done cur Hinv Hfuel; [lia|].
  cbn [peel]. rewrite list_lookup_total_middle by reflexivity.
  case_bool_decide as Hcur.
  - pose proof (peel_step (length done) h done cur Hinv) as Hinv'.
    pose proof (placed_length h done cur Hinv) as Hlen.
    destruct (peel_front population (length done) h cur) as [h' next].
    cbn [fst snd] in Hinv'.
    replace (S (length done)) with (length (done ++ [cur]))
      by (rewrite length_app; cbn; lia).
    apply IH; [assumption|]. rewrite concat_snoc, length_app. lia.
  - assert (cur = []) by (destruct cur; [reflexivity|cbn in Hcur; lia]). subst cur.
    exists h, done. split; [reflexivity|].
    split; [apply Hinv|]. split.
    + apply NoDup_Permutation.
      * pose proof (inv_nodup _ _ _ Hinv) as Hnd. rewrite app_nil_r in Hnd. exact Hnd.
      * exact population_distinct.
      * intros l. split.
        -- intros Hl. apply (inv_sub _ _ _ Hinv). rewrite app_nil_r. exact Hl.
        -- apply (peel_complete h done Hinv).
    + intros i F l l' Hi HlF Hl' HD.
      pose proof (lookup_lt_Some _ _ _ Hi) as Hlt.
      rewrite <- (take_app_le done [[]] i) by lia.
      apply (inv_layered _ _ _ Hinv i F l l'); [|assumption..].
      apply lookup_app_l_Some. assumption.
Qed.

Lemma keeps_metrics_refl : keeps_metrics h0.
Proof. intros l. split; reflexivity. Qed.

Lemma sort_spec :
  exists h' fronts,
    fast_non_dominated_sort h0 population = Ok (h', fronts) /\
    keeps_metrics h' /\ concat fronts ≡ₚ population /\ layered fronts.
Proof.
  unfold fast_non_dominated_sort.
  destruct (first_loop_spec population [] h0 [] eq_refl keeps_metrics_refl)
    as (Hk & Hall & Hfront); [intros l Hl; inversion Hl|].
  destruct (fold_left (scan population) population (h0, [])) as [h1 front0].
  cbn [fst snd app] in *. subst front0.
  destruct (peel_terminates (S (length population)) h1 []
              (filter (fun l => dominator_count l = 0) population))
    as (h' & fronts & Heq & Hk' & Hperm & Hlay).
  { apply peel_init; assumption. }
  { cbn. lia. }
  cbn [app length] in Heq. rewrite Heq, removelast_last.
  exists h', fronts. auto.
Qed.
End NonDominatedSort.

(** The domination rule in words: every component is at most the other's and
    some component is strictly less. *)
Lemma dominates_rule a b :
  dominates a b = true <->
  Forall (fun so => (so.1 <= so.2)%Q) (zip (objective_vector a) (objective_vector b)) /\
  Exists (fun so => (so.1 < so.2)%Q) (zip (objective_vector a) (objective_vector b)).
Proof.
  unfold dominates. cbv zeta. rewrite andb_true_iff.
  generalize (zip (objective_vector a) (objective_vector b)). intros l.
  assert (Hall : forall l : list (Q * Q),
            forallb (fun so => Qle_bool so.1 so.2) l = true <->
            Forall (fun so : Q * Q => (so.1 <= so.2)%Q) l).
  { clear l. induction l as [|x l IH]; cbn.
    - split; [constructor|reflexivity].
    - rewrite andb_true_iff, IH, Qle_bool_iff, Forall_cons; reflexivity. }
  assert (Hex : forall l : list (Q * Q),
            existsb (fun so => Qlt_bool so.1 so.2) l = true <->
            Exists (fun so : Q * Q => (so.1 < so.2)%Q) l).
  { clear l Hall. induction l as [|x l IH]; cbn.
    - split; [discriminate|inversion 1].
    - rewrite orb_true_iff, IH, Qlt_bool_iff, Exists_cons; reflexivity. }
  rewrite Hall, Hex. reflexivity.
Qed.

Lemma NoDup_concat_lookup {A} (fs : list (list A)) : forall i j F G x,
  NoDup (concat fs) -> fs !! i = Some F -> fs !! j = Some G ->
  x ∈ F -> x ∈ G -> i = j.
Proof.
  induction fs as [|f fs IH]; intros i j F G x Hnd Hi Hj HF HG; [discriminate|].
  cbn [concat] in Hnd. apply NoDup_app in Hnd as (_ & Hdisj & Hnd).
  destruct i as [|i], j as [|j]; cbn in Hi, Hj.
  - reflexivity.
  - injection Hi as <-. exfalso. apply (Hdisj x HF).
    apply elem_of_concat. exists G. split; [|assumption].
    eapply list_elem_of_lookup_2; eassumption.
  - injection Hj as <-. exfalso. apply (Hdisj x HG).
    apply elem_of_concat. exists F. split; [|assumption].
    eapply list_elem_of_lookup_2; eassumption.
  - f_equal. eapply IH; eassumption.
Qed.

(** C5. In the fronts returned by the non-dominated sort of a population of
    distinct genomes, no member of a front dominates another member of the
    same front. *)
Theorem same_front_no_domination h population h' fronts :
  NoDup population ->
  fast_non_dominated_sort h population = Ok (h', fronts) ->
  forall F a b, F ∈ fronts -> a ∈ F -> b ∈ F ->
    dominates (h' !!! a) (h' !!! b) = false /\
    dominates (h' !!! b) (h' !!! a) = false.
Proof.
  intros Hnd Hsort.
  destruct (sort_spec population Hnd h) as (h1 & fs & Heq & Hk & Hperm & Hlay).
  rewrite Heq in Hsort. injection Hsort as <- <-.
  assert (Hone : forall F a b, F ∈ fs -> a ∈ F -> b ∈ F ->
            dominates (h1 !!! a) (h1 !!! b) = false).
  { intros F a b HF Ha Hb.
    destruct (dominates (h1 !!! a) (h1 !!! b)) eqn:E; [exfalso|reflexivity].
    rewrite (keeps_metrics_dominates h h1 a b Hk) in E.
    apply list_elem_of_lookup_1 in HF as [i Hi].
    assert (Hap : a ∈ population).
    { rewrite <- Hperm. apply elem_of_concat. exists F. split; [|assumption].
      eapply list_elem_of_lookup_2; eassumption. }
    pose proof (Hlay i F b a Hi Hb Hap E) as Hearlier.
    apply elem_of_concat in Hearlier as (G & HG & HaG).
    apply list_elem_of_lookup_1 in HG as [j Hj].
    pose proof (lookup_lt_Some _ _ _ Hj) as Hjlt. rewrite length_take in Hjlt.
    rewrite lookup_take_lt in Hj by lia.
    assert (Hndc : NoDup (concat fs)) by (rewrite Hperm; assumption).
    assert (i = j) by (eapply (NoDup_concat_lookup fs i j F G a); eassumption).
    lia. }
  intros F a b HF Ha Hb. split; eapply Hone; eassumption.
Qed.

(** C6. The non-dominated sort of a population of distinct genomes returns
    (its loop bound is not reached) and its fronts partition the population:
    their concatenation is a rearrangement of the population, their sizes add
    up to its size, and no genome is in two fronts. *)
Theorem fronts_partition_population h population :
  NoDup population ->
  exists h' fronts,
    fast_non_dominated_sort h population = Ok (h', fronts) /\
    concat fronts ≡ₚ population /\
    list_sum (map length fronts) = length population /\
    forall i j F G l, fronts !! i = Some F -> fronts !! j = Some G ->
      l ∈ F -> l ∈ G -> i = j.
Proof.
  intros Hnd.
  destruct (sort_spec population Hnd h) as (h1 & fs & Heq & Hk & Hperm & Hlay).
  exists h1, fs. split; [assumption|]. split; [assumption|]. split.
  - rewrite <- length_concat. apply Permutation_length. assumption.
  - intros i j F G l. apply NoDup_concat_lookup. rewrite Hperm. assumption.
Qed.

(** Five genomes: the four of [tied_front] and one dominated by all of them. *)
Definition ranked_heap : gmap loc Layout :=
  <[5%positive := genome 3 6]> tied_front_heap.

Definition ranked_population : list loc := [1; 2; 3; 4; 5]%positive.

Definition ranked_store : gmap loc Layout :=
  match fast_non_dominated_sort ranked_heap ranked_population with
  | Ok (h', _) => h'
  | _ => ∅
  end.

Lemma same_front_no_domination_witness :
  dominates (ranked_store !!! 2%positive) (ranked_store !!! 4%positive) = false /\
  dominates (ranked_store !!! 4%positive) (ranked_store !!! 2%positive) = false.
Proof.
  apply (same_front_no_domination ranked_heap ranked_population ranked_store
           [[1; 2; 3; 4]; [5]]%positive
           ltac:(by_evaluation) ltac:(vm_compute; reflexivity)
           [1; 2; 3; 4]%positive).
  - left.
  - right. left.
  - right. right. right. left.
Defined.

Lemma fronts_partition_population_witness :
  exists h' fronts,
    fast_non_dominated_sort ranked_heap ranked_population = Ok (h', fronts) /\
    concat fronts ≡ₚ ranked_population /\
    list_sum (map length fronts) = length ranked_population /\
    forall i j F G l, fronts !! i = Some F -> fronts !! j = Some G ->
      l ∈ F -> l ∈ G -> i = j.
Proof.
  apply (fronts_partition_population ranked_heap ranked_population).
  by_evaluation.
Defined.

Example ranked_fronts :
  exists h', fast_non_dominated_sort ranked_heap ranked_population
             = Ok (h', [[1; 2; 3; 4]; [5]]%positive).
Proof. eexists. vm_compute. reflexivity. Qed.

(** ** A whole generation *)

Lemma calculate_crowding_distance_perm h front :
  (calculate_crowding_distance h front).2 ≡ₚ front.
Proof.
  unfold calculate_crowding_distance. case_bool_decide as Hlen; [reflexivity|].
  set (h0 := fold_left _ front h).
  destruct (fold_left crowd_objective objectives (h0, front)) as [h' front'] eqn:E.
  apply (crowd_fold objectives objectives_metric_only h0 front h' front'); [|exact E].
  destruct front; [cbn in Hlen; lia|congruence].
Qed.

Lemma crowd_all_perm fronts : forall h acc,
  exists fronts', (fold_left
                     (fun acc front =>
                        let '(h', front') := calculate_crowding_distance acc.1 front in
                        (h', acc.2 ++ [front']))
                     fronts (h, acc)).2 = acc ++ fronts' /\
                  Forall2 Permutation fronts' fronts.
Proof.
  induction fronts as [|front fronts IH]; intros h acc; cbn [fold_left].
  - exists []. rewrite app_nil_r. split; [reflexivity|constructor].
  - pose proof (calculate_crowding_distance_perm h front) as Hperm. cbn [fst snd].
    destruct (calculate_crowding_distance h front) as [h' front']. cbn [snd] in Hperm.
    destruct (IH h' (acc ++ [front'])) as (fronts' & Heq & Hall).
    exists (front' :: fronts'). rewrite Heq, <- app_assoc.
    split; [reflexivity|]. constructor; assumption.
Qed.

Lemma concat_Forall2_perm {A} (xs ys : list (list A)) :
  Forall2 Permutation xs ys -> concat xs ≡ₚ concat ys.
Proof.
  induction 1 as [|x y xs ys Hxy _ IH]; cbn [concat]; [reflexivity|].
  rewrite Hxy, IH. reflexivity.
Qed.

(** Every child made by [make_offspring] is a new object. *)
Lemma make_offspring_fresh self population : forall draws st st' offspring,
  outcome (make_offspring self st population draws) = Ok (st', offspring) ->
  NoDup offspring /\
  (forall l, l ∈ offspring -> l ∉ dom (layouts st)) /\
  (forall l, l ∈ offspring -> l ∈ dom (layouts st')) /\
  dom (layouts st) ⊆ dom (layouts st').
Proof.
  assert (Hnone : forall st : store,
            NoDup (@nil loc) /\
            (forall l, l ∈ @nil loc -> l ∉ dom (layouts st)) /\
            (forall l, l ∈ @nil loc -> l ∈ dom (layouts st)) /\
            dom (layouts st) ⊆ dom (layouts st)).
  { intros st. split; [constructor|].
    split; [intros l Hl; inversion Hl|].
    split; [intros l Hl; inversion Hl|]. reflexivity. }
  induction population as [|layout population IH]; intros draws st st' offspring.
  { destruct draws; cbn; intros [= <- <-]; apply Hnone. }
  destruct draws as [|[[idx1 idx2]|] draws]; cbn [make_offspring].
  - intros [= <- <-]. apply Hnone.
  - rewrite outcome_bind.
    destruct (outcome (mutate_layout self st layout idx1 idx2))
      as [[st1 mutated]| |] eqn:Hmut; [|discriminate..].
    rewrite outcome_bind.
    destruct (outcome (make_offspring self st1 population draws))
      as [[st2 rest]| |] eqn:Hrest; [|discriminate..].
    cbn. intros [= <- <-].
    apply mutate_layout_outcome in Hmut as (d' & _ & Hchild & _ & Hl).
    destruct (IH draws st1 st2 rest Hrest) as (Hnd & Hnew & Hin & Hsub).
    assert (Hdom1 : forall l, l ∈ dom (layouts st1) <-> l = mutated \/ l ∈ dom (layouts st)).
    { intros l. rewrite Hl, dom_insert_L, elem_of_union, elem_of_singleton.
      reflexivity. }
    assert (Hfresh : mutated ∉ dom (layouts st))
      by (rewrite Hchild; apply is_fresh).
    split.
    { constructor; [|assumption]. intros Hm. apply (Hnew _ Hm).
      apply Hdom1. left. reflexivity. }
    split.
    { intros l Hlin. apply elem_of_cons in Hlin as [->|Hlin]; [assumption|].
      intros Hd. apply (Hnew _ Hlin). apply Hdom1. right. assumption. }
    split.
    { intros l Hlin. apply elem_of_cons in Hlin as [->|Hlin]; [|auto].
      apply Hsub. apply Hdom1. left. reflexivity. }
    intros l Hd. apply Hsub, Hdom1. right. assumption.
  - apply IH.
Qed.

Lemma NoDup_of_submseteq {A} (l k : list A) : l ⊆+ k -> NoDup k -> NoDup l.
Proof.
  intros Hsub Hnd. apply submseteq_Permutation in Hsub as [k' Hperm].
  rewrite Hperm in Hnd. apply NoDup_app in Hnd as [Hl _]. assumption.
Qed.

(** One generation, once the offspring has been evaluated: the ranked pool is
    the parents followed by the new children, all distinct objects.  When the
    pool has more than [population_size] genomes the generation returns
    exactly [population_size] distinct genomes of the pool; when it has at
    most [population_size] (no child was drawn) the truncation raises
    IndexError. *)
Lemma generation_outcome self st population draws population_size st1 offspring :
  NoDup population ->
  (forall l, l ∈ population -> l ∈ dom (layouts st)) ->
  outcome (make_offspring self st population draws) = Ok (st1, offspring) ->
  NoDup (population ++ offspring) /\
  ((length population + length offspring <= population_size)%nat ->
   outcome (generation self st population draws population_size) = Raise IndexError) /\
  ((population_size < length population + length offspring)%nat ->
   exists st' new_population,
     outcome (generation self st population draws population_size)
       = Ok (st', new_population) /\
     length new_population = population_size /\
     NoDup new_population /\
     forall l, l ∈ new_population -> l ∈ population ++ offspring).
Proof.
  intros Hnd Hdom Hoff.
  destruct (make_offspring_fresh self population draws st st1 offspring Hoff)
    as (Hndo & Hnew & _ & _).
  assert (Hpool : NoDup (population ++ offspring)).
  { apply NoDup_app. split; [assumption|]. split; [|assumption].
    intros l Hl Hlo. apply (Hnew l Hlo). auto. }
  split; [assumption|].
  unfold generation. rewrite outcome_bind, Hoff. cbv beta iota zeta.
  rewrite outcome_bind. cbn [lift outcome snd].
  destruct (sort_spec (population ++ offspring) Hpool (layouts st1))
    as (h2 & fronts & Hsort & _ & Hperm & _).
  rewrite Hsort. cbv beta iota zeta.
  destruct (crowd_all_perm fronts h2 []) as (fronts' & Hfs & Hall).
  unfold crowd_all.
  destruct (fold_left _ fronts (h2, [])) as [h3 fs]. cbn [snd app] in Hfs. subst fs.
  assert (Hperm' : concat fronts' ≡ₚ population ++ offspring).
  { rewrite (concat_Forall2_perm _ _ Hall). assumption. }
  assert (Hlen : length (concat fronts') = (length population + length offspring)%nat).
  { rewrite (Permutation_length Hperm'), length_app. reflexivity. }
  split.
  - intros Hfit. rewrite outcome_bind. cbn [lift outcome snd].
    unfold select_next_generation.
    rewrite take_whole_fronts_all_fit by (cbn; lia). reflexivity.
  - intros Hover.
    destruct (truncation_fills_population h3 fronts' population_size)
      as (whole & front & rest & Hsplit & Hsel & Hsize); [lia|].
    rewrite outcome_bind. cbn [lift outcome snd]. rewrite Hsel. cbn.
    eexists _, _. split; [reflexivity|].
    split; [apply Hsize; assumption|].
    set (sorted := stable_sort _ front).
    assert (Hsub : concat whole ++ take (population_size - length (concat whole)) sorted
                   ⊆+ population ++ offspring).
    { rewrite <- Hperm', Hsplit, concat_app. cbn [concat].
      apply submseteq_skips_l. apply submseteq_inserts_r.
      transitivity sorted.
      - apply sublist_submseteq, sublist_take.
      - apply Permutation_submseteq, stable_sort_perm. }
    split; [eapply NoDup_of_submseteq; eassumption|].
    intros l Hl. eapply elem_of_submseteq; eassumption.
Qed.

(** The second loop relies on the genomes being distinct objects: listed
    twice, a dominated genome is relaxed twice and reaches count zero only
    once, so the fronts of this three-entry list hold two entries. *)
Example repeated_object_is_ranked_once :
  exists h', fast_non_dominated_sort ranked_heap [1; 5; 5]%positive
             = Ok (h', [[1]; [5]]%positive).
Proof. eexists. vm_compute. reflexivity. Qed.

(** * Further properties of the optimizer *)

(** ** The bigram table *)

Definition table_sum (t : bigram_table) : Z := fold_right Z.add 0 (t.*2).

(** The windows [word_with_spaces[i:i+2]] of one word, in order. *)
Definition windows (word : pystr) : list pystr :=
  let word_with_spaces := [SPACE] ++ word ++ [SPACE] in
  map (slice2 word_with_spaces) (seq 0 (length word_with_spaces - 1)).

Lemma add_word_windows bigrams total_length word count :
  add_word (bigrams, total_length) (word, count) =
  (fold_left (fun b w => dict_add w count b) (windows word) bigrams,
   total_length + (Z.of_nat (length word) + 1) * count).
Proof.
  unfold add_word, windows. cbv zeta. f_equal.
  generalize (seq 0 (length ([SPACE] ++ word ++ [SPACE]) - 1)) bigrams.
  intros idxs. induction idxs as [|i idxs IH]; intros b; [reflexivity|].
  cbn [fold_left map]. apply IH.
Qed.

Lemma length_windows word : length (windows word) = S (length word).
Proof.
  unfold windows. cbv zeta. rewrite length_map, length_seq.
  cbn [app length]. rewrite length_app. cbn. lia.
Qed.

Lemma windows_length word w : w ∈ windows word -> length w = 2%nat.
Proof.
  unfold windows. cbv zeta. intros Hin.
  apply list_elem_of_fmap in Hin as (i & -> & Hi).
  apply elem_of_seq in Hi. unfold slice2.
  rewrite length_take, length_drop. cbn [app length] in *.
  rewrite length_app in *. cbn [length] in *. lia.
Qed.

Lemma table_sum_dict_add k c t : table_sum (dict_add k c t) = table_sum t + c.
Proof.
  unfold table_sum. induction t as [|[k' v] t IH]; cbn [dict_add].
  - cbn. lia.
  - destruct (decide (k' = k)); cbn in *; lia.
Qed.

Lemma table_sum_add_all ws c : forall t,
  table_sum (fold_left (fun b w => dict_add w c b) ws t)
  = table_sum t + Z.of_nat (length ws) * c.
Proof.
  induction ws as [|w ws IH]; intros t; cbn [fold_left length]; [lia|].
  rewrite IH, table_sum_dict_add. lia.
Qed.

Lemma fold_add_word_sum words : forall acc,
  table_sum acc.1 = acc.2 ->
  table_sum (fold_left add_word words acc).1 = (fold_left add_word words acc).2.
Proof.
  induction words as [|[word count] words IH]; intros [t n] Hacc; [assumption|].
  cbn [fold_left]. apply IH. rewrite add_word_windows. cbn [fst snd] in *.
  rewrite table_sum_add_all, length_windows, Hacc. lia.
Qed.

Lemma bigram_counts_sum_to_total_aux words :
  table_sum (calculate_bigrams_from_words words).1
  = (calculate_bigrams_from_words words).2.
Proof. apply fold_add_word_sum. reflexivity. Qed.

(** X1. The counts of the bigram table add up to [total_length]: every word
    of length n puts n + 1 windows of weight [count] into the table. *)
Theorem bigram_counts_sum_to_total words :
  table_sum (calculate_bigrams_from_words words).1
  = (calculate_bigrams_from_words words).2.
Proof.
  unfold calculate_bigrams_from_words. apply fold_add_word_sum. reflexivity.
Qed.

(** [bigrams.get(bigram)] *)
Fixpoint table_get (bigram : pystr) (t : bigram_table) : option Z :=
  match t with
  | [] => None
  | (k, v) :: rest => if decide (k = bigram) then Some v else table_get bigram rest
  end.

Lemma table_get_dict_add b k c t :
  table_get b (dict_add k c t) =
  if decide (k = b) then Some (default 0 (table_get b t) + c) else table_get b t.
Proof.
  induction t as [|[k' v] t IH]; cbn [dict_add table_get].
  - destruct (decide (k = b)); reflexivity.
  - destruct (decide (k' = k)) as [->|Hne]; cbn [table_get].
    + destruct (decide (k = b)); reflexivity.
    + destruct (decide (k' = b)) as [->|Hnb].
      * rewrite decide_False by congruence. reflexivity.
      * exact IH.
Qed.

Lemma dict_add_keys k c t x :
  x ∈ (dict_add k c t).*1 <-> x = k \/ x ∈ t.*1.
Proof.
  induction t as [|[k' v] t IH]; cbn [dict_add].
  - cbn. rewrite list_elem_of_singleton. split; [auto|]. intros [?|H]; [auto|inversion H].
  - destruct (decide (k' = k)) as [->|Hne]; cbn; rewrite !elem_of_cons.
    + tauto.
    + rewrite IH. tauto.
Qed.

Lemma dict_add_NoDup k c t : NoDup t.*1 -> NoDup (dict_add k c t).*1.
Proof.
  induction t as [|[k' v] t IH]; cbn [dict_add]; intros Hnd.
  - cbn. apply NoDup_singleton.
  - cbn in Hnd. apply NoDup_cons in Hnd as [Hk Hnd].
    destruct (decide (k' = k)) as [->|Hne]; cbn.
    + constructor; assumption.
    + constructor; [|auto]. rewrite dict_add_keys. intros [?|?]; [congruence|auto].
Qed.

(** The table entries are well formed: no key twice, every key two
    characters long. *)
Definition table_ok (t : bigram_table) : Prop :=
  NoDup t.*1 /\ Forall (fun k => length k = 2%nat) t.*1.

Lemma table_ok_add_all c ws : forall t,
  Forall (fun w => length w = 2%nat) ws -> table_ok t ->
  table_ok (fold_left (fun b w => dict_add w c b) ws t).
Proof.
  induction ws as [|w ws IH]; intros t Hws Hok; [assumption|].
  apply Forall_cons in Hws as [Hw Hws]. cbn [fold_left]. apply IH; [assumption|].
  destruct Hok as [Hnd Hlen]. split; [apply dict_add_NoDup; assumption|].
  rewrite Forall_forall in *. intros x Hx.
  apply dict_add_keys in Hx as [->|Hx]; auto.
Qed.

Lemma table_ok_fold words : forall acc,
  table_ok acc.1 -> table_ok (fold_left add_word words acc).1.
Proof.
  induction words as [|[word count] words IH]; intros [t n] Hok; [assumption|].
  cbn [fold_left]. apply IH. rewrite add_word_windows. cbn [fst] in *.
  apply table_ok_add_all; [|assumption].
  rewrite Forall_forall. intros w. apply windows_length.
Qed.

(** X2. In a table built from any corpus no bigram is listed twice and every
    key has exactly two characters, so the evaluator's guard
    [len(bigram) != 2] skips none of its entries. *)
Theorem bigram_table_keys words :
  NoDup (calculate_bigrams_from_words words).1.*1 /\
  Forall (fun k => length k = 2%nat) (calculate_bigrams_from_words words).1.*1.
Proof.
  apply (table_ok_fold words ([], 0)). split; [constructor|constructor].
Qed.

(** How often [bigram] is a window of [word]. *)
Definition count_window (bigram : pystr) (word : pystr) : nat :=
  length (filter (fun w => w = bigram) (windows word)).

Definition weighted_count (bigram : pystr) (words : list (pystr * Z)) : Z :=
  fold_right (fun wc acc => wc.2 * Z.of_nat (count_window bigram wc.1) + acc) 0 words.

Lemma filter_eq_absent {A} `{EqDecision A} (b : A) (ws : list A) :
  b ∉ ws -> length (filter (fun w => w = b) ws) = 0%nat.
Proof.
  intros Hout. destruct (filter _ ws) as [|x xs] eqn:E; [reflexivity|].
  exfalso. assert (Hx : x ∈ filter (fun w => w = b) ws) by (rewrite E; left).
  apply list_elem_of_filter in Hx as [-> ?]. contradiction.
Qed.

Lemma table_get_add_all b c ws : forall t,
  table_get b (fold_left (fun t w => dict_add w c t) ws t) =
  if decide (b ∈ ws)
  then Some (default 0 (table_get b t)
             + c * Z.of_nat (length (filter (fun w => w = b) ws)))
  else table_get b t.
Proof.
  induction ws as [|w ws IH]; intros t; cbn [fold_left].
  - rewrite decide_False by (inversion 1). reflexivity.
  - rewrite IH, table_get_dict_add, filter_cons.
    destruct (decide (w = b)) as [->|Hne].
    + rewrite (decide_True (P := b ∈ b :: ws)) by left. cbn [default length].
      unfold id. destruct (decide (b ∈ ws)); f_equal; [lia|].
      destruct (filter _ ws) as [|x xs] eqn:E; [cbn; lia|].
      exfalso. assert (Hx : x ∈ filter (fun w => w = b) ws) by (rewrite E; left).
      apply list_elem_of_filter in Hx as [-> ?]. contradiction.
    + destruct (decide (b ∈ ws)) as [Hin|Hout].
      * rewrite decide_True by (right; assumption). reflexivity.
      * rewrite decide_False; [reflexivity|].
        intros Hin. apply elem_of_cons in Hin as [?|?]; [congruence|contradiction].
Qed.

Lemma weighted_count_cons b word count words :
  weighted_count b ((word, count) :: words)
  = count * Z.of_nat (count_window b word) + weighted_count b words.
Proof. reflexivity. Qed.

Lemma weighted_count_absent b words :
  ~ Exists (fun wc => b ∈ windows wc.1) words -> weighted_count b words = 0.
Proof.
  induction words as [|[w c] words IH]; intros Hno; [reflexivity|].
  rewrite weighted_count_cons, IH by (intros H; apply Hno; right; exact H).
  unfold count_window. rewrite filter_eq_absent; [lia|].
  intros Hin. apply Hno. left. exact Hin.
Qed.

Lemma table_get_fold b words : forall acc,
  table_get b (fold_left add_word words acc).1 =
  if decide (Exists (fun wc => b ∈ windows wc.1) words)
  then Some (default 0 (table_get b acc.1) + weighted_count b words)
  else table_get b acc.1.
Proof.
  induction words as [|[word count] words IH]; intros [t n]; cbn [fold_left].
  - rewrite decide_False by (inversion 1). reflexivity.
  - rewrite IH, add_word_windows, weighted_count_cons. cbn [fst snd].
    rewrite table_get_add_all. fold (count_window b word).
    destruct (decide (b ∈ windows word)) as [Hin|Hout].
    + rewrite (decide_True (P := Exists _ (_ :: _))) by (left; exact Hin).
      destruct (decide (Exists _ words)) as [He|Hn]; cbn [default from_option];
        unfold id; f_equal; [lia|].
      rewrite (weighted_count_absent b words Hn). lia.
    + unfold count_window at 1. rewrite (filter_eq_absent b _ Hout).
      destruct (decide (Exists _ words)) as [He|Hn].
      * rewrite decide_True by (right; exact He). f_equal. lia.
      * rewrite decide_False; [reflexivity|].
        intros He. apply Exists_cons in He as [?|?]; contradiction.
Qed.

(** X3. A bigram is a key of the table exactly when it is a window of some
    padded corpus word, and its value is then the sum over the words of
    count times the number of times it occurs in the word. *)
Theorem bigram_count_is_weighted_occurrences words bigram :
  table_get bigram (calculate_bigrams_from_words words).1 =
  if decide (Exists (fun wc => bigram ∈ windows wc.1) words)
  then Some (weighted_count bigram words)
  else None.
Proof.
  unfold calculate_bigrams_from_words. rewrite table_get_fold. cbn.
  destruct (decide _); [f_equal; lia|reflexivity].
Qed.

(** ** Bounds on the metrics *)

(** The accumulators after bigrams of total weight [S] have been visited:
    SFB, scissors and wide scissors share the weight, the lateral-stretch
    accumulator is at most the weight. *)
Definition counters_bounded (c : counters) (S : Z) : Prop :=
  0 <= sfb_acc c /\ 0 <= scissors_acc c /\ 0 <= wide_scissors_acc c /\
  sfb_acc c + scissors_acc c + wide_scissors_acc c <= S /\
  (0 <= lat_str_acc c)%Q /\ (lat_str_acc c <= inject_Z S)%Q.

Lemma inject_Z_nonneg n : 0 <= n -> (0 <= inject_Z n)%Q.
Proof. intros Hn. change (inject_Z 0 <= inject_Z n)%Q. rewrite <- Zle_Qle. exact Hn. Qed.

Lemma inject_Z_pos n : 0 < n -> (0 < inject_Z n)%Q.
Proof. intros Hn. change (inject_Z 0 < inject_Z n)%Q. rewrite <- Zlt_Qlt. exact Hn. Qed.

Lemma Qhalf_bounds q : (0 <= q)%Q -> (0 <= q / 2)%Q /\ (q / 2 <= q)%Q.
Proof.
  intros Hq. split.
  - apply Qle_shift_div_l; [reflexivity|]. lra.
  - apply Qle_shift_div_r; [reflexivity|]. lra.
Qed.

Lemma hand_rows_bounded near far1 far2 p1 p2 n c S :
  far1 <> far2 -> 0 <= n -> counters_bounded c S ->
  counters_bounded (hand_rows near far1 far2 p1 p2 n c) (S + n).
Proof.
  intros Hfar Hn (H1 & H2 & H3 & H4 & H5 & H6).
  assert (HnQ : (0 <= inject_Z n)%Q) by (apply inject_Z_nonneg; exact Hn).
  assert (Hweak : counters_bounded c (S + n)).
  { unfold counters_bounded. rewrite inject_Z_plus.
    repeat split; try assumption; try lia; lra. }
  unfold hand_rows. destruct ((row p1 <=? 2) && (row p2 <=? 2)); [|exact Hweak].
  set (c1 := if Z.abs (row p1 - row p2) =? 2 then _ else c).
  assert (Hc1 : 0 <= sfb_acc c1 /\ 0 <= scissors_acc c1 /\ 0 <= wide_scissors_acc c1 /\
                sfb_acc c1 + scissors_acc c1 + wide_scissors_acc c1 <= S + n /\
                lat_str_acc c1 = lat_str_acc c).
  { unfold c1. destruct (Z.abs (row p1 - row p2) =? 2);
      [destruct (Z.abs (col p1 - col p2) =? 1)|]; cbn; repeat split; lia. }
  destruct Hc1 as (A1 & A2 & A3 & A4 & A5).
  set (b1 := ((col p1 =? near) && (col p2 =? far1)) || ((col p1 =? far1) && (col p2 =? near))).
  set (b2 := ((col p1 =? near) && (col p2 =? far2)) || ((col p1 =? far2) && (col p2 =? near))).
  assert (Hexcl : b1 = true -> b2 = true -> False).
  { unfold b1, b2. rewrite !orb_true_iff, !andb_true_iff, !Z.eqb_eq. lia. }
  unfold counters_bounded. rewrite inject_Z_plus.
  destruct (Qhalf_bounds (inject_Z n) HnQ) as [Hh0 Hh1].
  destruct b1, b2;
    cbn [add_lat sfb_acc scissors_acc wide_scissors_acc lat_str_acc];
    rewrite ?A5;
    try (exfalso; apply Hexcl; reflexivity);
    generalize dependent (inject_Z n / 2)%Q; intros half Hh0 Hh1;
    repeat split; first [assumption | lia | lra].
Qed.

Lemma classify_bounded char1 char2 p1 p2 n c S :
  0 <= n -> counters_bounded c S ->
  counters_bounded (classify char1 char2 p1 p2 n c) (S + n).
Proof.
  intros Hn Hc.
  assert (Hweak : counters_bounded c (S + n)).
  { destruct Hc as (H1 & H2 & H3 & H4 & H5 & H6).
    assert (HnQ : (0 <= inject_Z n)%Q) by (apply inject_Z_nonneg; exact Hn).
    unfold counters_bounded. rewrite inject_Z_plus.
    repeat split; try assumption; try lia; lra. }
  unfold classify.
  destruct ((finger p1 =? finger p2) && negb (char1 =? char2)%N).
  { destruct Hweak as (H1 & H2 & H3 & H4 & H5 & H6), Hc as (G1 & G2 & G3 & G4 & _).
    unfold counters_bounded. cbn. repeat split; try assumption; lia. }
  destruct (negb (finger p1 =? finger p2)); [|exact Hweak].
  destruct ((col p1 <=? 5) && (col p2 <=? 5)).
  { apply hand_rows_bounded; [lia|assumption..]. }
  destruct ((col p1 >=? 6) && (col p2 >=? 6)); [|exact Hweak].
  apply hand_rows_bounded; [lia|assumption..].
Qed.

Lemma accumulate_bounded layout bigrams : forall c S,
  Forall (fun e : pystr * Z => 0 <= e.2) bigrams ->
  counters_bounded c S ->
  counters_bounded (fold_left (metric_step layout) bigrams c) (S + table_sum bigrams).
Proof.
  induction bigrams as [|[k n] bigrams IH]; intros c S Hpos Hc; cbn [fold_left].
  - unfold table_sum. cbn. rewrite Z.add_0_r. assumption.
  - apply Forall_cons in Hpos as [Hn Hpos]. cbn [snd] in Hn.
    replace (S + table_sum ((k, n) :: bigrams)) with ((S + n) + table_sum bigrams)
      by (unfold table_sum; cbn; lia).
    apply IH; [assumption|].
    assert (Hweak : counters_bounded c (S + n)).
    { destruct Hc as (H1 & H2 & H3 & H4 & H5 & H6).
      assert (HnQ : (0 <= inject_Z n)%Q) by (apply inject_Z_nonneg; exact Hn).
      unfold counters_bounded. rewrite inject_Z_plus.
      repeat split; try assumption; try lia; lra. }
    unfold metric_step.
    destruct k as [|char1 [|char2 [|? ?]]]; try exact Hweak.
    destruct (layout !! char1) as [p1|]; [|exact Hweak].
    destruct (layout !! char2) as [p2|]; [|exact Hweak].
    apply classify_bounded; assumption.
Qed.

Lemma dict_add_nonneg k c t :
  0 <= c -> Forall (fun e : pystr * Z => 0 <= e.2) t ->
  Forall (fun e : pystr * Z => 0 <= e.2) (dict_add k c t).
Proof.
  intros Hc. induction t as [|[k' v] t IH]; cbn [dict_add]; intros Ht.
  - constructor; [cbn; lia|constructor].
  - apply Forall_cons in Ht as [Hv Ht]. cbn in Hv.
    destruct (decide (k' = k)); constructor; cbn; auto; lia.
Qed.

Lemma table_nonneg words : forall acc,
  Forall (fun wc : pystr * Z => 0 <= wc.2) words ->
  Forall (fun e : pystr * Z => 0 <= e.2) acc.1 ->
  Forall (fun e : pystr * Z => 0 <= e.2) (fold_left add_word words acc).1.
Proof.
  induction words as [|[word count] words IH]; intros [t n] Hw Ht; [assumption|].
  apply Forall_cons in Hw as [Hc Hw]. cbn [snd] in Hc.
  cbn [fold_left]. apply IH; [assumption|]. rewrite add_word_windows. cbn [fst] in *.
  generalize (windows word) t Ht. intros ws.
  induction ws as [|w ws IHw]; intros t' Ht'; [assumption|].
  cbn [fold_left]. apply IHw. apply dict_add_nonneg; assumption.
Qed.

(** X4. For a corpus with non-negative counts, whenever the evaluator returns
    a metric vector its components are percentages: none is negative, the
    SFB and scissors rates together are at most 100 (no bigram is counted in
    both) and the lateral-stretch rate is at most 100. *)
Theorem metrics_are_percentages layout words m :
  Forall (fun wc : pystr * Z => 0 <= wc.2) words ->
  outcome (calculate_metrics layout (calculate_bigrams_from_words words).1
             (calculate_bigrams_from_words words).2) = Ok m ->
  (0 <= sfb m)%Q /\ (0 <= scissors m)%Q /\ (0 <= lat_stretch m)%Q /\
  (sfb m + scissors m <= 100)%Q /\ (lat_stretch m <= 100)%Q /\
  skip_bigrams m = scissors m.
Proof.
  intros Hw.
  pose proof (bigram_counts_sum_to_total_aux words) as Hsum.
  pose proof (table_nonneg words ([], 0) Hw ltac:(constructor)) as Hpos.
  fold (calculate_bigrams_from_words words) in Hpos.
  destruct (calculate_bigrams_from_words words) as [bigrams total]. cbn [fst snd] in *.
  destruct (Z.eq_dec total 0) as [->|Hnz].
  { rewrite calculate_metrics_zero. discriminate. }
  rewrite calculate_metrics_nonzero by assumption. cbv zeta. intros [= <-]. cbn.
  pose proof (accumulate_bounded layout bigrams (mkCounters 0 0 0%Q 0) 0 Hpos) as Hb.
  fold (accumulate layout bigrams) in Hb. rewrite Z.add_0_l, Hsum in Hb.
  destruct Hb as (H1 & H2 & H3 & H4 & H5 & H6).
  { unfold counters_bounded. cbn [sfb_acc scissors_acc wide_scissors_acc lat_str_acc].
    repeat split; first [lia | apply Qle_refl]. }
  assert (Htot : 0 < total) by lia.
  assert (HtQ : (0 < inject_Z total)%Q) by (apply inject_Z_pos; exact Htot).
  apply inject_Z_nonneg in H1, H2.
  rewrite Zle_Qle in H4. rewrite !inject_Z_plus in H4.
  set (s := inject_Z (sfb_acc (accumulate layout bigrams))) in *.
  set (c := inject_Z (scissors_acc (accumulate layout bigrams))) in *.
  set (w := inject_Z (wide_scissors_acc (accumulate layout bigrams))) in *.
  assert (Hw0 : (0 <= w)%Q) by (apply inject_Z_nonneg; exact H3).
  repeat split.
  - apply Qle_shift_div_l; [assumption|]. lra.
  - apply Qle_shift_div_l; [assumption|]. lra.
  - apply Qle_shift_div_l; [assumption|]. lra.
  - assert (E : (s * 100 / inject_Z total + c * 100 / inject_Z total
                 == (s + c) * 100 / inject_Z total)%Q).
    { field. intros Hz. rewrite Hz in HtQ. exact (Qlt_irrefl 0 HtQ). }
    rewrite E. apply Qle_shift_div_r; [assumption|]. lra.
  - apply Qle_shift_div_r; [assumption|]. lra.
Qed.

Definition qx_metrics : LayoutMetrics :=
  match outcome (calculate_metrics
                   (assign_shuffled moveable_letters moveable_positions)
                   (calculate_bigrams_from_words [(str "qx", 1)]).1
                   (calculate_bigrams_from_words [(str "qx", 1)]).2) with
  | Ok m => m
  | _ => inhabitant
  end.

Lemma metrics_are_percentages_witness :
  (0 <= sfb qx_metrics)%Q /\ (0 <= scissors qx_metrics)%Q /\
  (0 <= lat_stretch qx_metrics)%Q /\
  (sfb qx_metrics + scissors qx_metrics <= 100)%Q /\
  (lat_stretch qx_metrics <= 100)%Q /\
  skip_bigrams qx_metrics = scissors qx_metrics.
Proof.
  apply (metrics_are_percentages
           (assign_shuffled moveable_letters moveable_positions)
           [(str "qx", 1)] qx_metrics).
  - repeat constructor. cbn. lia.
  - vm_compute. reflexivity.
Defined.

(** ** What the evaluator reads *)

Lemma accumulate_ext d d' bigrams : forall c,
  (forall k x, k ∈ bigrams.*1 -> x ∈ k -> d' !! x = d !! x) ->
  fold_left (metric_step d') bigrams c = fold_left (metric_step d) bigrams c.
Proof.
  induction bigrams as [|[k n] bigrams IH]; intros c Hagree; [reflexivity|].
  cbn [fold_left].
  assert (Hstep : metric_step d' c (k, n) = metric_step d c (k, n)).
  { unfold metric_step. destruct k as [|char1 [|char2 [|? ?]]]; try reflexivity.
    rewrite (Hagree [char1; char2] char1), (Hagree [char1; char2] char2);
      first [reflexivity | left | (right; left)]. }
  rewrite Hstep. apply IH. intros k' x Hk' Hx. apply (Hagree k' x); [|assumption].
  right. assumption.
Qed.

(** X5. The evaluator reads a layout only at the characters that occur in the
    bigram table: two layouts that agree on them get the same metric vector
    (and the same log), whatever they do elsewhere. *)
Theorem metrics_read_only_corpus_characters d d' bigrams total_length :
  (forall k x, k ∈ bigrams.*1 -> x ∈ k -> d' !! x = d !! x) ->
  calculate_metrics d' bigrams total_length = calculate_metrics d bigrams total_length.
Proof.
  intros Hagree. unfold calculate_metrics, mbind, traced_bind.
  rewrite !foldM_visit. rewrite (accumulate_ext d d' bigrams _ Hagree). reflexivity.
Qed.

Lemma metrics_read_only_corpus_characters_witness :
  calculate_metrics example_layout (calculate_bigrams_from_words [(str "qx", 1)]).1 3
  = calculate_metrics base_layout (calculate_bigrams_from_words [(str "qx", 1)]).1 3.
Proof.
  apply metrics_read_only_corpus_characters.
  intros k x Hk Hx. unfold example_layout. apply lookup_insert_ne.
  intros <-.
  assert (Hno : Forall (fun k : pystr => ch "b" ∉ k)
                  (calculate_bigrams_from_words [(str "qx", 1)]).1.*1)
    by by_evaluation.
  rewrite Forall_forall in Hno. exact (Hno k Hk Hx).
Defined.

(** X6. A swap mutation of two letters that occur in no bigram of a table
    leaves the metric vector computed from that table unchanged. *)
Theorem swap_of_unused_letters_keeps_metrics d idx1 idx2 d' char1 char2
    bigrams total_length :
  swap_mutation d idx1 idx2 = Ok d' ->
  moveable_chars_of d !! idx1 = Some char1 ->
  moveable_chars_of d !! idx2 = Some char2 ->
  (forall k, k ∈ bigrams.*1 -> (char1 ∉ k) /\ (char2 ∉ k)) ->
  calculate_metrics d' bigrams total_length = calculate_metrics d bigrams total_length.
Proof.
  intros Hswap H1 H2 Hunused.
  assert (Hagree : forall k x, k ∈ bigrams.*1 -> x ∈ k -> d' !! x = d !! x).
  { intros k x Hk Hx. destruct (Hunused k Hk) as [N1 N2].
    assert (x <> char1) by (intros ->; contradiction).
    assert (x <> char2) by (intros ->; contradiction).
    revert Hswap. unfold swap_mutation. rewrite H1, H2.
    destruct (bool_decide _); [|intros [= <-]; reflexivity].
    destruct (d !! char2); [|intros [= <-]; reflexivity].
    destruct (d !! char1); [|intros [= <-]; reflexivity].
    intros [= <-]. rewrite !lookup_insert_ne by congruence. reflexivity. }
  unfold calculate_metrics, mbind, traced_bind.
  rewrite !foldM_visit. rewrite (accumulate_ext d d' bigrams _ Hagree). reflexivity.
Qed.

Lemma swap_of_unused_letters_keeps_metrics_witness :
  calculate_metrics mutated_example
    (calculate_bigrams_from_words [(str "ab", 1)]).1 3
  = calculate_metrics (assign_shuffled moveable_letters moveable_positions)
      (calculate_bigrams_from_words [(str "ab", 1)]).1 3.
Proof.
  apply (swap_of_unused_letters_keeps_metrics
           (assign_shuffled moveable_letters moveable_positions) 0 23
           mutated_example (ch "q") (ch "/")).
  - vm_compute. reflexivity.
  - vm_compute. reflexivity.
  - vm_compute. reflexivity.
  - intros k Hk.
    assert (Hno : Forall (fun k : pystr => (ch "q" ∉ k) /\ (ch "/" ∉ k))
                    (calculate_bigrams_from_words [(str "ab", 1)]).1.*1)
      by by_evaluation.
    rewrite Forall_forall in Hno. exact (Hno k Hk).
Defined.

(** ** Swap mutation *)

Lemma moveable_chars_of_same_keys d d' :
  (forall c, is_Some (d' !! c) <-> is_Some (d !! c)) ->
  moveable_chars_of d' = moveable_chars_of d.
Proof.
  intros Hkeys. unfold moveable_chars_of.
  induction moveable_letters as [|c l IH]; [reflexivity|].
  rewrite !filter_cons, IH.
  destruct (decide (is_Some (d !! c))) as [Hs|Hn].
  - rewrite decide_True by (apply Hkeys; assumption). reflexivity.
  - rewrite decide_False; [reflexivity|]. intros Hs. apply Hn, Hkeys. assumption.
Qed.

(** What a successful swap does, read off [swap_mutation]. *)
Lemma swap_mutation_result d idx1 idx2 d' :
  swap_mutation d idx1 idx2 = Ok d' ->
  d' = d \/
  exists char1 char2 p1 p2,
    moveable_chars_of d !! idx1 = Some char1 /\
    moveable_chars_of d !! idx2 = Some char2 /\
    d !! char1 = Some p1 /\ d !! char2 = Some p2 /\
    d' = <[char2 := p1]> (<[char1 := p2]> d).
Proof.
  unfold swap_mutation.
  destruct (bool_decide _); [|intros [= <-]; left; reflexivity].
  destruct (moveable_chars_of d !! idx1) as [char1|]; [|discriminate].
  destruct (moveable_chars_of d !! idx2) as [char2|]; [|discriminate].
  destruct (d !! char2) as [p2|] eqn:E2; [|intros [= <-]; left; reflexivity].
  destruct (d !! char1) as [p1|] eqn:E1; [|intros [= <-]; left; reflexivity].
  intros [= <-]. right. exists char1, char2, p1, p2. auto.
Qed.

(** X7. Swap mutation is its own inverse: the same pair of indices applied to
    the mutated layout gives the original layout back. *)
Theorem swap_mutation_involutive d idx1 idx2 d' :
  swap_mutation d idx1 idx2 = Ok d' -> swap_mutation d' idx1 idx2 = Ok d.
Proof.
  intros Hswap. pose proof Hswap as Hres.
  apply swap_mutation_result in Hres
    as [->|(char1 & char2 & p1 & p2 & H1 & H2 & L1 & L2 & ->)]; [assumption|].
  set (d' := <[char2 := p1]> (<[char1 := p2]> d)).
  assert (Hlk : forall c, d' !! c =
                 if decide (c = char2) then Some p1
                 else if decide (c = char1) then Some p2 else d !! c).
  { intros c. unfold d'. destruct (decide (c = char2)) as [->|N2].
    - apply lookup_insert_eq.
    - rewrite lookup_insert_ne by congruence.
      destruct (decide (c = char1)) as [->|N1].
      + apply lookup_insert_eq.
      + apply lookup_insert_ne. congruence. }
  assert (Hkeys : moveable_chars_of d' = moveable_chars_of d).
  { apply moveable_chars_of_same_keys. intros c. rewrite Hlk.
    repeat case_decide; subst; split; eauto. }
  unfold swap_mutation in *. rewrite Hkeys, H1, H2 in *.
  destruct (bool_decide _); [|unfold d'; congruence].
  rewrite (Hlk char2), (Hlk char1), decide_True by reflexivity.
  destruct (decide (char1 = char2)) as [->|Hne].
  - assert (p1 = p2) by congruence. subst p2.
    f_equal. apply map_eq. intros c.
    destruct (decide (c = char2)) as [->|N].
    + rewrite lookup_insert_eq. congruence.
    + rewrite !lookup_insert_ne by congruence. rewrite Hlk, !decide_False by assumption.
      reflexivity.
  - rewrite decide_True by reflexivity.
    f_equal. apply map_eq. intros c.
    destruct (decide (c = char2)) as [->|N2].
    + rewrite lookup_insert_eq. congruence.
    + rewrite lookup_insert_ne by congruence.
      destruct (decide (c = char1)) as [->|N1].
      * rewrite lookup_insert_eq. congruence.
      * rewrite lookup_insert_ne by congruence.
        rewrite Hlk, !decide_False by assumption. reflexivity.
Qed.

Lemma swap_mutation_involutive_witness :
  swap_mutation mutated_example 0 23
  = Ok (assign_shuffled moveable_letters moveable_positions).
Proof.
  apply (swap_mutation_involutive
           (assign_shuffled moveable_letters moveable_positions) 0 23 mutated_example).
  vm_compute. reflexivity.
Defined.

Lemma filter_keeps_all {A} (P : A -> Prop) `{forall x, Decision (P x)} (l : list A) :
  (forall x, x ∈ l -> P x) -> filter P l = l.
Proof.
  induction l as [|x l IH]; intros Hall; [reflexivity|].
  rewrite filter_cons_True by (apply Hall; left).
  f_equal. apply IH. intros y Hy. apply Hall. right. assumption.
Qed.

Lemma moveable_chars_of_valid d :
  valid_layout d -> moveable_chars_of d = moveable_letters.
Proof.
  intros Hv. unfold moveable_chars_of. apply filter_keeps_all.
  intros c Hc. destruct (valid_into d Hv c Hc) as (p & Hp & _). eauto.
Qed.

(** X8. On a layout the program has produced, a swap with two distinct
    indices below 24 never fails, exchanges the positions of the two sampled
    letters, leaves every other character where it was, and yields a layout
    different from its parent. *)
Theorem swap_mutation_exchanges d idx1 idx2 :
  produced d ->
  (idx1 < 24)%nat -> (idx2 < 24)%nat -> idx1 <> idx2 ->
  exists d' char1 char2,
    swap_mutation d idx1 idx2 = Ok d' /\
    moveable_letters !! idx1 = Some char1 /\
    moveable_letters !! idx2 = Some char2 /\
    d' !! char1 = d !! char2 /\ d' !! char2 = d !! char1 /\
    (forall c, c <> char1 -> c <> char2 -> d' !! c = d !! c) /\
    d' <> d.
Proof.
  intros Hprod Hi1 Hi2 Hne. pose proof (produced_valid d Hprod) as Hv.
  destruct (lookup_lt_is_Some_2 moveable_letters idx1) as [char1 H1]; [cbn; lia|].
  destruct (lookup_lt_is_Some_2 moveable_letters idx2) as [char2 H2]; [cbn; lia|].
  assert (Hc : char1 <> char2).
  { intros ->. apply Hne.
    eapply NoDup_lookup; [apply NoDup_moveable_letters|eassumption..]. }
  assert (Hm1 : char1 ∈ moveable_letters) by (eapply list_elem_of_lookup_2; eassumption).
  assert (Hm2 : char2 ∈ moveable_letters) by (eapply list_elem_of_lookup_2; eassumption).
  destruct (valid_into d Hv char1 Hm1) as (p1 & L1 & _).
  destruct (valid_into d Hv char2 Hm2) as (p2 & L2 & _).
  exists (<[char2 := p1]> (<[char1 := p2]> d)), char1, char2.
  split.
  { unfold swap_mutation. rewrite (moveable_chars_of_valid d Hv), H1, H2, L1, L2.
    reflexivity. }
  split; [assumption|]. split; [assumption|].
  assert (E1 : (<[char2 := p1]> (<[char1 := p2]> d)) !! char1 = Some p2).
  { rewrite lookup_insert_ne by congruence. apply lookup_insert_eq. }
  split; [congruence|].
  split; [rewrite lookup_insert_eq; congruence|].
  split; [intros c N1 N2; rewrite !lookup_insert_ne by congruence; reflexivity|].
  intros Heq. rewrite Heq in E1.
  apply Hc. apply (valid_inj d Hv char1 char2 p2); assumption.
Qed.

Lemma swap_mutation_exchanges_witness :
  exists d' char1 char2,
    swap_mutation mutated_example 3 7 = Ok d' /\
    moveable_letters !! 3%nat = Some char1 /\
    moveable_letters !! 7%nat = Some char2 /\
    d' !! char1 = mutated_example !! char2 /\
    d' !! char2 = mutated_example !! char1 /\
    (forall c, c <> char1 -> c <> char2 -> d' !! c = mutated_example !! c) /\
    d' <> mutated_example.
Proof.
  apply (swap_mutation_exchanges mutated_example 3 7); [|lia..].
  apply (produced_mutation (assign_shuffled moveable_letters moveable_positions) 0 23).
  - apply produced_random; reflexivity.
  - vm_compute. reflexivity.
Defined.

(** ** Random initialization *)

(** X9. Random initialization can draw every layout that satisfies the
    layout invariant, hence every layout reachable by mutations: it is
    [assign_shuffled] of the letters in source order and of some rearrangement
    of the moveable positions. *)
Theorem every_valid_layout_is_initial d :
  valid_layout d ->
  exists shuffled_positions,
    shuffled_positions ≡ₚ moveable_positions /\
    assign_shuffled moveable_letters shuffled_positions = d.
Proof.
  intros Hv. pose proof Hv as [Va Vi Vj Vd].
  set (f := fun c => default (mkPos 0 0 0) (d !! c)).
  assert (Hf : forall c, c ∈ moveable_letters -> d !! c = Some (f c)).
  { intros c Hc. destruct (Vi c Hc) as (q & Hq & _). unfold f. rewrite Hq. reflexivity. }
  exists (f <$> moveable_letters). split.
  - apply submseteq_length_Permutation.
    + apply NoDup_submseteq.
      * apply NoDup_fmap_2_strong; [|apply NoDup_moveable_letters].
        intros c c' Hc Hc' Heq. apply (Vj c c' (f c)); auto.
        rewrite Heq. auto.
      * intros q Hq. apply list_elem_of_fmap in Hq as (c & -> & Hc).
        destruct (Vi c Hc) as (q & Hq & Hin). rewrite (Hf c Hc) in Hq.
        injection Hq as ->. assumption.
    + rewrite length_fmap. reflexivity.
  - apply map_eq. intros c.
    change (assign_shuffled moveable_letters (f <$> moveable_letters))
      with (assign_from base_layout moveable_letters (f <$> moveable_letters)).
    destruct (decide (c ∈ moveable_letters)) as [Hin|Hout].
    + pose proof Hin as Hin'. apply list_elem_of_lookup_1 in Hin' as [i Hi].
      rewrite (assign_from_lookup moveable_letters (f <$> moveable_letters)
                 base_layout i c (f c)).
      * symmetry. auto.
      * apply NoDup_moveable_letters.
      * assumption.
      * rewrite list_lookup_fmap, Hi. reflexivity.
    + rewrite assign_from_notin by assumption.
      destruct (base_layout !! c) as [p|] eqn:Hb.
      * symmetry. auto.
      * destruct (d !! c) as [p|] eqn:Hd; [|reflexivity].
        destruct (Vd c) as [[q Hq]|Hm]; [eauto|congruence|contradiction].
Qed.

Lemma every_valid_layout_is_initial_witness :
  exists shuffled_positions,
    shuffled_positions ≡ₚ moveable_positions /\
    assign_shuffled moveable_letters shuffled_positions = mutated_example.
Proof.
  apply (every_valid_layout_is_initial mutated_example).
  apply produced_valid.
  apply (produced_mutation (assign_shuffled moveable_letters moveable_positions) 0 23).
  - apply produced_random; reflexivity.
  - vm_compute. reflexivity.
Defined.

(** ** Domination as an order *)

Ltac split_domination H :=
  unfold dominates, objective_vector in H;
  cbn [zip zip_with forallb existsb fst snd] in H;
  apply andb_prop in H as [? H];
  repeat match goal with
  | H' : _ && _ = true |- _ => apply andb_prop in H' as [? ?]
  end;
  repeat match goal with
  | H' : Qle_bool _ _ = true |- _ => apply Qle_bool_iff in H'
  end.

Ltac some_component :=
  first [ apply Qlt_bool_iff; lra
        | apply orb_true_iff; left; apply Qlt_bool_iff; lra
        | apply orb_true_iff; right; some_component ].

(** X10. Domination is transitive: a genome that dominates a second one
    dominates every genome the second one dominates. *)
Theorem dominates_transitive a b c :
  dominates a b = true -> dominates b c = true -> dominates a c = true.
Proof.
  intros Hab Hbc. split_domination Hbc. clear Hbc. split_domination Hab.
  unfold dominates, objective_vector.
  cbn [zip zip_with forallb existsb fst snd].
  apply andb_true_intro. split.
  - repeat (apply andb_true_intro; split); try reflexivity;
      apply Qle_bool_iff; lra.
  - repeat match goal with
    | H : _ || _ = true |- _ => apply orb_prop in H as [H|H]
    end;
    try discriminate;
    apply Qlt_bool_iff in Hab; some_component.
Qed.

Lemma dominates_transitive_witness :
  dominates (genome 0 0) (genome 2 2) = true.
Proof.
  apply (dominates_transitive (genome 0 0) (genome 1 1) (genome 2 2));
    vm_compute; reflexivity.
Defined.

(** X11. Domination is asymmetric, hence irreflexive: two genomes never
    dominate each other, and no genome dominates itself or a genome with the
    same eight objective values. *)
Theorem dominates_asymmetric a b :
  dominates a b = true ->
  dominates b a = false /\ dominates a a = false /\
  objective_vector a <> objective_vector b.
Proof.
  intros Hab. split; [|split].
  - destruct (dominates b a) eqn:E; [|reflexivity].
    apply dominates_objective_sum in Hab, E. lra.
  - destruct (dominates a a) eqn:E; [|reflexivity].
    apply dominates_objective_sum in E. lra.
  - intros Heq. apply dominates_objective_sum in Hab.
    unfold objective_sum in Hab. rewrite Heq in Hab. lra.
Qed.

Lemma dominates_asymmetric_witness :
  dominates (genome 1 1) (genome 0 0) = false /\
  dominates (genome 0 0) (genome 0 0) = false /\
  objective_vector (genome 0 0) <> objective_vector (genome 1 1).
Proof.
  apply (dominates_asymmetric (genome 0 0) (genome 1 1)).
  vm_compute. reflexivity.
Defined.

Lemma dominates_weighted_score a b :
  skip_bigrams (english_metrics a) = scissors (english_metrics a) ->
  skip_bigrams (finnish_metrics a) = scissors (finnish_metrics a) ->
  skip_bigrams (english_metrics b) = scissors (english_metrics b) ->
  skip_bigrams (finnish_metrics b) = scissors (finnish_metrics b) ->
  dominates a b = true ->
  (0.8 * three_sum (english_metrics a) + 0.2 * three_sum (finnish_metrics a)
   < 0.8 * three_sum (english_metrics b) + 0.2 * three_sum (finnish_metrics b))%Q.
Proof.
  intros Ea Fa Eb Fb Hab. split_domination Hab.
  rewrite Ea, Eb, Fa, Fb in *. unfold three_sum.
  repeat match goal with
  | H : _ || _ = true |- _ => apply orb_prop in H as [H|H]
  end;
  try discriminate;
  apply Qlt_bool_iff in Hab; lra.
Qed.



(** ** More on the non-dominated sort *)

(** The attributes the sort never writes. *)
Definition same_genome (L L' : Layout) : Prop :=
  positions L = positions L' /\
  english_metrics L = english_metrics L' /\
  finnish_metrics L = finnish_metrics L' /\
  weighted_score L = weighted_score L' /\
  crowding_distance L = crowding_distance L'.

Lemma same_genome_refl L : same_genome L L.
Proof. repeat split. Qed.

Lemma same_genome_trans L1 L2 L3 :
  same_genome L1 L2 -> same_genome L2 L3 -> same_genome L1 L3.
Proof.
  intros (A1 & A2 & A3 & A4 & A5) (B1 & B2 & B3 & B4 & B5).
  repeat split; congruence.
Qed.

Section SortDetail.
Variable population : list loc.
Hypothesis population_distinct : NoDup population.
Variable h0 : gmap loc Layout.

(** [h'] differs from [h] only in attributes the sort writes, and only on
    members of the population. *)
Definition writes_only (h h' : gmap loc Layout) : Prop :=
  (forall l, same_genome (h' !!! l) (h !!! l)) /\
  (forall l, l ∉ population -> h' !!! l = h !!! l).

Lemma writes_only_refl h : writes_only h h.
Proof. split; [intros; apply same_genome_refl|reflexivity]. Qed.

Lemma writes_only_trans h1 h2 h3 :
  writes_only h1 h2 -> writes_only h2 h3 -> writes_only h1 h3.
Proof.
  intros [A1 A2] [B1 B2]. split.
  - intros l. eapply same_genome_trans; [apply B1|apply A1].
  - intros l Hl. rewrite B2, A2 by assumption. reflexivity.
Qed.

Lemma writes_only_update f l h :
  l ∈ population -> (forall L, same_genome (f L) L) ->
  writes_only h (update f l h).
Proof.
  intros Hl Hf. split; intros l'; rewrite update_lookup;
    destruct (decide (l = l')) as [<-|Hne].
  - apply Hf.
  - apply same_genome_refl.
  - contradiction.
  - reflexivity.
Qed.

Lemma fold_writes {S A} (proj : S -> gmap loc Layout) (step : S -> A -> S) xs :
  (forall s x, x ∈ xs -> writes_only (proj s) (proj (step s x))) ->
  forall s, writes_only (proj s) (proj (fold_left step xs s)).
Proof.
  induction xs as [|x xs IH]; intros Hstep s; cbn [fold_left].
  - apply writes_only_refl.
  - eapply writes_only_trans; [apply Hstep; left|].
    apply IH. intros s' y Hy. apply Hstep. right. assumption.
Qed.

Lemma compare_with_writes layout_i h jl :
  layout_i ∈ population -> writes_only h (compare_with layout_i h jl).
Proof.
  intros Hin. destruct jl as [j layout_j]. unfold compare_with.
  destruct (dominates (h !!! layout_i) (h !!! layout_j)).
  { apply writes_only_update; [assumption|]. intros L. repeat split. }
  destruct (dominates (h !!! layout_j) (h !!! layout_i)).
  { apply writes_only_update; [assumption|]. intros L. repeat split. }
  apply writes_only_refl.
Qed.

Lemma scan_writes acc layout_i :
  layout_i ∈ population ->
  writes_only acc.1 (scan population acc layout_i).1.
Proof.
  intros Hin. destruct acc as [h front0]. unfold scan. cbn [fst].
  set (h1 := update (set_domination_count 0) layout_i h).
  set (h2 := update (set_dominated_solutions []) layout_i h1).
  set (h3 := fold_left (compare_with layout_i) (enumerate population) h2).
  assert (H3 : writes_only h h3).
  { eapply writes_only_trans;
      [apply (writes_only_update (set_domination_count 0) layout_i h);
       [assumption|intros L; repeat split]|].
    eapply writes_only_trans;
      [apply (writes_only_update (set_dominated_solutions []) layout_i h1);
       [assumption|intros L; repeat split]|].
    apply (fold_writes id (compare_with layout_i)).
    intros s x _. apply compare_with_writes. assumption. }
  destruct (domination_count (h3 !!! layout_i) =? 0); cbn [fst]; [|assumption].
  eapply writes_only_trans; [exact H3|].
  apply writes_only_update; [assumption|]. intros L. repeat split.
Qed.

Lemma relax_loc_writes front_index acc pj :
  pj ∈ population -> writes_only acc.1 (relax_loc front_index acc pj).1.
Proof.
  intros Hin. unfold relax_loc.
  set (h1 := update _ pj acc.1).
  assert (H1 : writes_only acc.1 h1)
    by (apply writes_only_update; [assumption|intros L; repeat split]).
  destruct (domination_count (h1 !!! pj) =? 0); cbn [fst]; [|assumption].
  eapply writes_only_trans; [exact H1|].
  apply writes_only_update; [assumption|]. intros L. repeat split.
Qed.

(** The first loop gives rank 0 to the genomes it puts in the first front. *)
Lemma scan_rank h front0 layout_i :
  keeps_metrics h0 h -> dominator_count population h0 layout_i = 0 ->
  rank ((scan population (h, front0) layout_i).1 !!! layout_i) = 0.
Proof.
  intros Hk Hz.
  destruct (scan_spec population h0 h front0 layout_i Hk) as (_ & _ & _ & _ & Hf).
  rewrite decide_True in Hf by assumption. revert Hf. unfold scan.
  destruct (domination_count (_ !!! layout_i) =? 0); cbn [fst snd].
  - intros _. rewrite update_lookup_eq. reflexivity.
  - intros Hf. apply (f_equal length) in Hf. rewrite length_app in Hf.
    cbn in Hf. lia.
Qed.

Lemma first_loop_rank post : forall pre h front0,
  population = pre ++ post ->
  keeps_metrics h0 h ->
  (forall l, l ∈ pre -> dominator_count population h0 l = 0 -> rank (h !!! l) = 0) ->
  forall l, l ∈ population -> dominator_count population h0 l = 0 ->
    rank ((fold_left (scan population) post (h, front0)).1 !!! l) = 0.
Proof.
  induction post as [|layout_i post IH]; intros pre h front0 Hsplit Hk Hpre.
  - cbn. rewrite app_nil_r in Hsplit. subst pre. assumption.
  - cbn [fold_left].
    pose proof (scan_rank h front0 layout_i Hk) as Hr.
    destruct (scan_spec population h0 h front0 layout_i Hk) as (Hk1 & Hother & _).
    destruct (scan population (h, front0) layout_i) as [h1 front1].
    cbn [fst snd] in *.
    assert (Hnotin : layout_i ∉ pre).
    { pose proof population_distinct as Hnd. rewrite Hsplit in Hnd.
      apply NoDup_app in Hnd as (_ & Hdisj & _).
      intros Hin. apply (Hdisj _ Hin). left. }
    apply (IH (pre ++ [layout_i]) h1 front1).
    + rewrite <- app_assoc. exact Hsplit.
    + assumption.
    + intros l Hl Hz. apply elem_of_app in Hl as [Hl|Hl].
      * rewrite Hother by (intros ->; contradiction). auto.
      * apply list_elem_of_singleton in Hl as ->. auto.
Qed.

(** The second loop gives rank [front_index + 1] to the genomes it appends
    to the next front and leaves the other ranks alone. *)
Lemma relax_fold_rank front_index targets : forall h nf,
  let r := fold_left (relax_loc front_index) targets (h, nf) in
  exists extra, r.2 = nf ++ extra /\
    forall l, rank (r.1 !!! l)
              = if decide (l ∈ extra) then Z.of_nat front_index + 1 else rank (h !!! l).
Proof.
  induction targets as [|t ts IH]; intros h nf r.
  - subst r. cbn. exists []. rewrite app_nil_r. split; [reflexivity|].
    intros l. rewrite decide_False by (inversion 1). reflexivity.
  - subst r. cbn [fold_left]. unfold relax_loc at 2 4. cbn [fst snd].
    set (h1 := update (fun L => set_domination_count (domination_count L - 1) L) t h).
    assert (Hr1 : forall l, rank (h1 !!! l) = rank (h !!! l)).
    { intros l. unfold h1. rewrite update_lookup.
      destruct (decide (t = l)) as [->|_]; reflexivity. }
    destruct (domination_count (h1 !!! t) =? 0).
    + set (h2 := update (set_rank (Z.of_nat front_index + 1)) t h1).
      destruct (IH h2 (nf ++ [t])) as (extra & Hr & Hrank).
      exists (t :: extra). split; [rewrite Hr, <- app_assoc; reflexivity|].
      intros l. rewrite Hrank.
      destruct (decide (l ∈ extra)) as [Hin|Hout].
      * rewrite decide_True by (right; assumption). reflexivity.
      * unfold h2. rewrite update_lookup.
        destruct (decide (t = l)) as [->|Hne].
        -- rewrite decide_True by left. reflexivity.
        -- rewrite decide_False; [apply Hr1|].
           intros Hin. apply elem_of_cons in Hin as [->|Hin]; contradiction.
    + destruct (IH h1 nf) as (extra & Hr & Hrank).
      exists extra. split; [assumption|].
      intros l. rewrite Hrank, Hr1. reflexivity.
Qed.

Lemma dominated_in_population l l' : l' ∈ dominated population h0 l -> l' ∈ population.
Proof. intros Hin. apply list_elem_of_filter in Hin as [_ Hin]. assumption. Qed.

Lemma targets_in_population front l :
  l ∈ concat (dominated population h0 <$> front) ->
  l ∈ population /\ exists y, y ∈ front /\ Dominates h0 y l.
Proof.
  intros Hin. apply elem_of_concat in Hin as (ys & Hys & Hin).
  apply list_elem_of_fmap in Hys as (y & -> & Hy).
  apply list_elem_of_filter in Hin as [HD Hin]. eauto.
Qed.

Lemma occurrences_pos l targets : (0 < occurrences l targets)%nat -> l ∈ targets.
Proof.
  unfold occurrences. intros Hpos.
  destruct (filter (fun x => x = l) targets) as [|x xs] eqn:E; [cbn in Hpos; lia|].
  assert (Hin : x ∈ filter (fun x => x = l) targets) by (rewrite E; left).
  apply list_elem_of_filter in Hin as [-> Hin]. assumption.
Qed.

(** What the [while] loop maintains besides [peel_inv]. *)
Record peel_detail (h : gmap loc Layout) (done : list (list loc))
    (cur : list loc) : Prop := {
  det_nonempty : Forall (fun F => F <> []) done;
  det_first : exists rest,
    done ++ [cur]
    = filter (fun l => dominator_count population h0 l = 0) population :: rest;
  det_parent : forall i F l, (done ++ [cur]) !! S i = Some F -> l ∈ F ->
    exists G l', (done ++ [cur]) !! i = Some G /\ l' ∈ G /\ Dominates h0 l' l;
  det_rank : forall i F l, (done ++ [cur]) !! i = Some F -> l ∈ F ->
    rank (h !!! l) = Z.of_nat i;
  det_writes : writes_only h0 h
}.

Lemma lookup_snoc_cases {A} (xs : list A) (y : A) i x :
  (xs ++ [y]) !! i = Some x ->
  xs !! i = Some x \/ (i = length xs /\ x = y).
Proof.
  intros Hi. destruct (decide (i < length xs)%nat) as [Hlt|Hge].
  - left. rewrite lookup_app_l in Hi by assumption. assumption.
  - right. rewrite lookup_app_r in Hi by lia.
    apply list_lookup_singleton_Some in Hi as [Hi <-]. split; [lia|reflexivity].
Qed.

Lemma peel_detail_step h done cur :
  cur <> [] ->
  peel_inv population h0 h done cur ->
  peel_detail h done cur ->
  peel_detail (peel_front population (length done) h cur).1 (done ++ [cur])
              (peel_front population (length done) h cur).2.
Proof.
  intros Hne Hinv [Hn Hf Hp Hr Hw].
  unfold peel_front. rewrite (peel_front_targets population h0)
    by (intros l Hin; apply (inv_doms _ _ _ _ _ Hinv), (inv_sub _ _ _ _ _ Hinv),
          elem_of_app; right; assumption).
  destruct (relax_fold h0 (length done)
              (concat (dominated population h0 <$> cur)) h [])
    as (_ & _ & _ & next & Hnext & _ & Hin).
  destruct (relax_fold_rank (length done)
              (concat (dominated population h0 <$> cur)) h [])
    as (next' & Hnext' & Hrank).
  pose proof (fold_writes fst (relax_loc (length done))
                (concat (dominated population h0 <$> cur))
                (fun s x Hx => relax_loc_writes (length done) s x
                                 (proj1 (targets_in_population cur x Hx)))
                (h, [])) as Hw'.
  destruct (fold_left (relax_loc (length done))
              (concat (dominated population h0 <$> cur)) (h, [])) as [h' nf].
  cbn [fst snd app] in *. subst nf. subst next'.
  assert (Hold : forall i F l, (done ++ [cur]) !! i = Some F -> l ∈ F -> l ∉ next).
  { intros i F l Hi HlF Hln. apply Hin in Hln as [Hge _].
    assert (Hpl : l ∈ concat done ++ cur).
    { rewrite <- concat_snoc. apply elem_of_concat. exists F.
      split; [eapply list_elem_of_lookup_2; eassumption|assumption]. }
    pose proof (inv_sub _ _ _ _ _ Hinv l Hpl) as Hlp.
    apply (inv_placed _ _ _ _ _ Hinv l Hlp) in Hpl. lia. }
  split.
  - apply Forall_app. split; [assumption|]. constructor; [assumption|constructor].
  - destruct Hf as [rest Hf]. exists (rest ++ [next]). rewrite Hf. reflexivity.
  - intros i F l Hi HlF.
    apply lookup_snoc_cases in Hi as [Hi|[Hi ->]].
    + destruct (Hp i F l Hi HlF) as (G & l' & HG & Hl' & HD).
      exists G, l'. split; [apply lookup_app_l_Some; assumption|auto].
    + rewrite length_app in Hi. cbn in Hi. assert (i = length done) by lia. subst i.
      apply Hin in HlF as [Hge Hocc].
      assert (Hpos : (0 < occurrences l (concat (dominated population h0 <$> cur)))%nat) by lia.
      apply occurrences_pos, targets_in_population in Hpos as (_ & y & Hy & HD).
      exists cur, y. split; [|auto].
      rewrite <- app_assoc. apply list_lookup_middle. reflexivity.
  - intros i F l Hi HlF. rewrite Hrank.
    apply lookup_snoc_cases in Hi as [Hi|[Hi ->]].
    + rewrite decide_False by (eapply Hold; eassumption). eapply Hr; eassumption.
    + rewrite decide_True by assumption. rewrite Hi, length_app. cbn. lia.
  - eapply writes_only_trans; eassumption.
Qed.

Lemma peel_detail_terminates fuel : forall h done cur,
  peel_inv population h0 h done cur ->
  peel_detail h done cur ->
  (length population - length (concat done) < fuel)%nat ->
  exists h' fronts,
    peel fuel population h (done ++ [cur]) (length done) = Ok (h', fronts ++ [[]]) /\
    peel_detail h' fronts [].
Proof.
  induction fuel as [|fuel IH]; intros h done cur Hinv Hdet Hfuel; [lia|].
  cbn [peel]. rewrite list_lookup_total_middle by reflexivity.
  case_bool_decide as Hcur.
  - assert (Hne : cur <> []) by (intros ->; cbn in Hcur; lia).
    pose proof (peel_step population population_distinct h0 (length done) h done cur Hinv)
      as Hinv'.
    pose proof (peel_detail_step h done cur Hne Hinv Hdet) as Hdet'.
    pose proof (placed_length population h0 h done cur Hinv) as Hlen.
    destruct (peel_front population (length done) h cur) as [h' next].
    cbn [fst snd] in Hinv', Hdet'.
    replace (S (length done)) with (length (done ++ [cur]))
      by (rewrite length_app; cbn; lia).
    apply IH; [assumption..|]. rewrite concat_snoc, length_app.
    destruct cur; [congruence|cbn in *; lia].
  - assert (cur = []) by (destruct cur; [reflexivity|cbn in Hcur; lia]). subst cur.
    exists h, done. split; [reflexivity|assumption].
Qed.

Lemma sort_detail :
  exists h' fronts,
    fast_non_dominated_sort h0 population = Ok (h', fronts) /\
    peel_detail h' fronts [].
Proof.
  unfold fast_non_dominated_sort.
  destruct (first_loop_spec population population_distinct h0 population [] h0 []
              eq_refl (keeps_metrics_refl h0))
    as (Hk & Hall & Hfront); [intros l Hl; inversion Hl|].
  pose proof (first_loop_rank population [] h0 [] eq_refl (keeps_metrics_refl h0)
                ltac:(intros l Hl; inversion Hl)) as Hrank.
  pose proof (fold_writes fst (scan population) population
                (fun s x Hx => scan_writes s x Hx) (h0, [])) as Hw.
  destruct (fold_left (scan population) population (h0, [])) as [h1 front0].
  cbn [fst snd app] in *. subst front0.
  destruct (peel_detail_terminates (S (length population)) h1 []
              (filter (fun l => dominator_count population h0 l = 0) population))
    as (h' & fronts & Heq & Hdet).
  { apply peel_init; assumption. }
  { split; cbn [app].
    - constructor.
    - exists []. reflexivity.
    - intros i F l Hi. destruct i; discriminate.
    - intros i F l Hi HlF. apply list_lookup_singleton_Some in Hi as [-> <-].
      apply list_elem_of_filter in HlF as [Hz Hlp]. auto.
    - assumption. }
  { cbn. lia. }
  cbn [app length] in Heq. rewrite Heq, removelast_last.
  exists h', fronts. auto.
Qed.
End SortDetail.

Lemma sort_full population h h' fronts :
  NoDup population ->
  fast_non_dominated_sort h population = Ok (h', fronts) ->
  keeps_metrics h h' /\ concat fronts ≡ₚ population /\
  layered population h fronts /\ peel_detail population h h' fronts [].
Proof.
  intros Hnd Hsort.
  destruct (sort_spec population Hnd h) as (h1 & fs & Heq & Hk & Hperm & Hlay).
  destruct (sort_detail population Hnd h) as (h2 & fs2 & Heq2 & Hdet).
  rewrite Heq in Hsort. injection Hsort as <- <-.
  rewrite Heq in Heq2. injection Heq2 as <- <-. auto.
Qed.

Lemma dominator_count_zero population h l :
  dominator_count population h l = 0 <->
  Forall (fun l' => dominates (h !!! l') (h !!! l) = false) population.
Proof.
  unfold dominator_count. rewrite Forall_forall. split.
  - intros Hz l' Hl'.
    destruct (dominates (h !!! l') (h !!! l)) eqn:E; [exfalso|reflexivity].
    assert (Hin : l' ∈ dominators population h l)
      by (apply list_elem_of_filter; auto).
    destruct (dominators population h l); [inversion Hin|cbn in Hz; lia].
  - intros Hall.
    destruct (dominators population h l) as [|x xs] eqn:E; [reflexivity|exfalso].
    assert (Hin : x ∈ dominators population h l) by (rewrite E; left).
    apply list_elem_of_filter in Hin as [HD Hin]. unfold Dominates in HD.
    rewrite (Hall x Hin) in HD. discriminate.
Qed.

Lemma front_member population h h' fronts i F l :
  peel_detail population h h' fronts [] ->
  fronts !! i = Some F -> l ∈ F -> (fronts ++ [[]]) !! i = Some F.
Proof. intros _ Hi _. apply lookup_app_l_Some. assumption. Qed.

(** X13. The first front returned for a non-empty population of distinct
    genomes is not empty and consists of the genomes that no member of the
    population dominates, in population order. *)
Theorem first_front_is_pareto_set h population h' fronts :
  NoDup population -> population <> [] ->
  fast_non_dominated_sort h population = Ok (h', fronts) ->
  exists F, fronts !! 0%nat = Some F /\ F <> [] /\
    F = filter (fun l => Forall (fun l' => dominates (h !!! l') (h !!! l) = false)
                           population) population.
Proof.
  intros Hnd Hne Hsort.
  destruct (sort_full population h h' fronts Hnd Hsort) as (_ & Hperm & _ & Hdet).
  destruct Hdet as [Hn [rest Hf] _ _ _].
  destruct fronts as [|F fs].
  - cbn in Hperm. apply Permutation_nil_l in Hperm. congruence.
  - exists F. split; [reflexivity|]. split; [apply (Forall_inv Hn)|].
    cbn in Hf. injection Hf as -> _.
    apply list_filter_iff. intros l. apply dominator_count_zero.
Qed.

Lemma first_front_is_pareto_set_witness :
  exists F, [[1; 2; 3; 4]; [5]]%positive !! 0%nat = Some F /\ F <> [] /\
    F = filter (fun l => Forall (fun l' => dominates (ranked_heap !!! l')
                                             (ranked_heap !!! l) = false)
                           ranked_population) ranked_population.
Proof.
  apply (first_front_is_pareto_set ranked_heap ranked_population ranked_store
           [[1; 2; 3; 4]; [5]]%positive
           ltac:(by_evaluation) ltac:(discriminate) ltac:(vm_compute; reflexivity)).
Defined.

Lemma nonempty_fronts_length {A} (fs : list (list A)) :
  Forall (fun F => F <> []) fs -> (length fs <= length (concat fs))%nat.
Proof.
  induction 1 as [|F fs HF _ IH]; [reflexivity|].
  cbn. rewrite length_app. destruct F; [congruence|cbn; lia].
Qed.

(** X14. No front returned for a population of distinct genomes is empty,
    so there are at most as many fronts as genomes. *)
Theorem returned_fronts_nonempty h population h' fronts :
  NoDup population ->
  fast_non_dominated_sort h population = Ok (h', fronts) ->
  Forall (fun F => F <> []) fronts /\ (length fronts <= length population)%nat.
Proof.
  intros Hnd Hsort.
  destruct (sort_full population h h' fronts Hnd Hsort) as (_ & Hperm & _ & Hdet).
  pose proof (det_nonempty _ _ _ _ _ Hdet) as Hn. split; [assumption|].
  rewrite <- (Permutation_length Hperm). apply nonempty_fronts_length. assumption.
Qed.

Lemma returned_fronts_nonempty_witness :
  Forall (fun F => F <> []) [[1; 2; 3; 4]; [5]]%positive /\
  (length [[1; 2; 3; 4]; [5]]%positive <= length ranked_population)%nat.
Proof.
  apply (returned_fronts_nonempty ranked_heap ranked_population ranked_store
           [[1; 2; 3; 4]; [5]]%positive
           ltac:(by_evaluation) ltac:(vm_compute; reflexivity)).
Defined.

(** X15. After the sort the [rank] attribute of every genome is the index
    of the front that contains it. *)
Theorem rank_is_front_index h population h' fronts :
  NoDup population ->
  fast_non_dominated_sort h population = Ok (h', fronts) ->
  forall i F l, fronts !! i = Some F -> l ∈ F -> rank (h' !!! l) = Z.of_nat i.
Proof.
  intros Hnd Hsort i F l Hi HlF.
  destruct (sort_full population h h' fronts Hnd Hsort) as (_ & _ & _ & Hdet).
  apply (det_rank _ _ _ _ _ Hdet i F l); [|assumption].
  eapply front_member; eassumption.
Qed.

Lemma rank_is_front_index_witness :
  rank (ranked_store !!! 5%positive) = Z.of_nat 1.
Proof.
  apply (rank_is_front_index ranked_heap ranked_population ranked_store
           [[1; 2; 3; 4]; [5]]%positive
           ltac:(by_evaluation) ltac:(vm_compute; reflexivity)
           1%nat [5%positive] 5%positive eq_refl).
  left.
Defined.

(** X16. Every member of a front after the first is dominated by some
    member of the front just before it. *)
Theorem later_front_dominated_by_previous h population h' fronts :
  NoDup population ->
  fast_non_dominated_sort h population = Ok (h', fronts) ->
  forall i F l, fronts !! S i = Some F -> l ∈ F ->
    exists G l', fronts !! i = Some G /\ l' ∈ G /\
      dominates (h' !!! l') (h' !!! l) = true.
Proof.
  intros Hnd Hsort i F l Hi HlF.
  destruct (sort_full population h h' fronts Hnd Hsort) as (Hk & _ & _ & Hdet).
  destruct (det_parent _ _ _ _ _ Hdet i F l) as (G & l' & HG & Hl' & HD);
    [eapply front_member; eassumption|assumption|].
  exists G, l'. split; [|split; [assumption|]].
  - pose proof (lookup_lt_Some _ _ _ Hi) as Hlt.
    rewrite lookup_app_l in HG by lia. assumption.
  - rewrite (keeps_metrics_dominates h h' l' l Hk). exact HD.
Qed.

Lemma later_front_dominated_by_previous_witness :
  exists G l', [[1; 2; 3; 4]; [5]]%positive !! 0%nat = Some G /\ l' ∈ G /\
    dominates (ranked_store !!! l') (ranked_store !!! 5%positive) = true.
Proof.
  apply (later_front_dominated_by_previous ranked_heap ranked_population ranked_store
           [[1; 2; 3; 4]; [5]]%positive
           ltac:(by_evaluation) ltac:(vm_compute; reflexivity)
           0%nat [5%positive] 5%positive eq_refl).
  left.
Defined.

Lemma dominator_has_smaller_rank h population h' fronts a b :
  NoDup population ->
  fast_non_dominated_sort h population = Ok (h', fronts) ->
  a ∈ population -> b ∈ population ->
  dominates (h !!! a) (h !!! b) = true ->
  rank (h' !!! a) < rank (h' !!! b).
Proof.
  intros Hnd Hsort Ha Hb HD.
  destruct (sort_full population h h' fronts Hnd Hsort) as (Hk & Hperm & Hlay & Hdet).
  assert (Hbin : b ∈ concat fronts) by (rewrite Hperm; assumption).
  apply elem_of_concat in Hbin as (F & HF & HbF).
  apply list_elem_of_lookup_1 in HF as [i Hi].
  pose proof (Hlay i F b a Hi HbF Ha HD) as Hearlier.
  apply elem_of_concat in Hearlier as (G & HG & HaG).
  apply list_elem_of_lookup_1 in HG as [j Hj].
  pose proof (lookup_lt_Some _ _ _ Hj) as Hjlt. rewrite length_take in Hjlt.
  rewrite lookup_take_lt in Hj by lia.
  rewrite (det_rank _ _ _ _ _ Hdet j G a), (det_rank _ _ _ _ _ Hdet i F b);
    [lia|try (eapply front_member; eassumption); assumption..].
Qed.

(** X17. After the sort, ranks respect domination: if one member of the
    population dominates another, its [rank] is strictly smaller. *)
Theorem domination_orders_ranks h population h' fronts :
  NoDup population ->
  fast_non_dominated_sort h population = Ok (h', fronts) ->
  forall a b, a ∈ population -> b ∈ population ->
    dominates (h' !!! a) (h' !!! b) = true ->
    rank (h' !!! a) < rank (h' !!! b).
Proof.
  intros Hnd Hsort a b Ha Hb HD.
  destruct (sort_full population h h' fronts Hnd Hsort) as (Hk & _).
  rewrite (keeps_metrics_dominates h h' a b Hk) in HD.
  eapply dominator_has_smaller_rank; eassumption.
Qed.

Lemma domination_orders_ranks_witness :
  rank (ranked_store !!! 2%positive) < rank (ranked_store !!! 5%positive).
Proof.
  apply (domination_orders_ranks ranked_heap ranked_population ranked_store
           [[1; 2; 3; 4]; [5]]%positive
           ltac:(by_evaluation) ltac:(vm_compute; reflexivity)).
  - by_evaluation.
  - by_evaluation.
  - vm_compute. reflexivity.
Defined.

(** X18. The sort writes only [rank], [domination_count] and
    [dominated_solutions], and only on members of the population: every
    object keeps its layout, metrics, weighted score and crowding distance,
    and objects outside the population are unchanged. *)
Theorem sort_writes_only_rank_attributes h population h' fronts :
  NoDup population ->
  fast_non_dominated_sort h population = Ok (h', fronts) ->
  (forall l, same_genome (h' !!! l) (h !!! l)) /\
  (forall l, l ∉ population -> h' !!! l = h !!! l).
Proof.
  intros Hnd Hsort.
  destruct (sort_full population h h' fronts Hnd Hsort) as (_ & _ & _ & Hdet).
  exact (det_writes _ _ _ _ _ Hdet).
Qed.

Lemma sort_writes_only_rank_attributes_witness :
  (forall l, same_genome (ranked_store !!! l) (ranked_heap !!! l)) /\
  (forall l, l ∉ ranked_population -> ranked_store !!! l = ranked_heap !!! l).
Proof.
  apply (sort_writes_only_rank_attributes ranked_heap ranked_population ranked_store
           [[1; 2; 3; 4]; [5]]%positive
           ltac:(by_evaluation) ltac:(vm_compute; reflexivity)).
Defined.

(** ** More on the crowding distance *)

(** Every attribute but [crowding_distance]. *)
Definition same_but_crowding (L L' : Layout) : Prop :=
  positions L = positions L' /\
  english_metrics L = english_metrics L' /\
  finnish_metrics L = finnish_metrics L' /\
  weighted_score L = weighted_score L' /\
  rank L = rank L' /\
  domination_count L = domination_count L' /\
  dominated_solutions L = dominated_solutions L'.

(** [h'] differs from [h] only in the crowding distance of members of
    [members]. *)
Definition crowding_writes (members : list loc) (h h' : gmap loc Layout) : Prop :=
  (forall l, same_but_crowding (h' !!! l) (h !!! l)) /\
  (forall l, l ∉ members -> h' !!! l = h !!! l).

Lemma crowding_writes_refl members h : crowding_writes members h h.
Proof. split; [intros; repeat split|reflexivity]. Qed.

Lemma crowding_writes_trans members h1 h2 h3 :
  crowding_writes members h1 h2 -> crowding_writes members h2 h3 ->
  crowding_writes members h1 h3.
Proof.
  intros [A1 A2] [B1 B2]. split.
  - intros l. destruct (A1 l) as (a1 & a2 & a3 & a4 & a5 & a6 & a7).
    destruct (B1 l) as (b1 & b2 & b3 & b4 & b5 & b6 & b7).
    repeat split; congruence.
  - intros l Hl. rewrite B2, A2 by assumption. reflexivity.
Qed.

Lemma crowding_writes_update members d l h :
  l ∈ members ->
  crowding_writes members h
    (update (fun L => set_crowding_distance (d L) L) l h).
Proof.
  intros Hl. split; intros l'; rewrite update_lookup;
    destruct (decide (l = l')) as [<-|Hne];
    try contradiction; try reflexivity; repeat split.
Qed.

Lemma crowding_writes_fold {B} members
    (step : gmap loc Layout -> B -> gmap loc Layout) bs :
  (forall h b, b ∈ bs -> crowding_writes members h (step h b)) ->
  forall h, crowding_writes members h (fold_left step bs h).
Proof.
  induction bs as [|b bs IH]; intros Hstep h; cbn [fold_left].
  - apply crowding_writes_refl.
  - eapply crowding_writes_trans; [apply Hstep; left|].
    apply IH. intros h' y Hy. apply Hstep. right. assumption.
Qed.

Lemma crowding_writes_perm members members' h h' :
  members ≡ₚ members' -> crowding_writes members h h' ->
  crowding_writes members' h h'.
Proof.
  intros Hperm [A B]. split; [assumption|].
  intros l Hl. apply B. rewrite Hperm. assumption.
Qed.

Lemma crowd_objective_writes h front obj :
  front <> [] ->
  crowding_writes front h (crowd_objective (h, front) obj).1 /\
  (crowd_objective (h, front) obj).2 ≡ₚ front.
Proof.
  intros Hne. unfold crowd_objective.
  set (sorted := sort_by_key (fun l => obj (h !!! l)) front).
  assert (Hperm : sorted ≡ₚ front) by apply stable_sort_perm.
  assert (Hlen : (0 < length sorted)%nat).
  { rewrite (Permutation_length Hperm). destruct front; [congruence|cbn; lia]. }
  assert (Hmem : forall i, (i < length sorted)%nat -> sorted !!! i ∈ front).
  { intros i Hi. rewrite <- Hperm. apply list_elem_of_lookup_total_2. assumption. }
  set (ha := update (set_crowding_distance Inf) (sorted !!! 0%nat) h).
  set (hb := update (set_crowding_distance Inf) (sorted !!! (length sorted - 1)%nat) ha).
  assert (Hb : crowding_writes front h hb).
  { apply (crowding_writes_trans front h ha hb).
    - apply (crowding_writes_update front (fun _ => Inf)). apply Hmem. lia.
    - apply (crowding_writes_update front (fun _ => Inf)). apply Hmem. lia. }
  destruct (Qlt_bool 0 _); cbn [fst snd]; (split; [|assumption]); [|assumption].
  eapply crowding_writes_trans; [exact Hb|].
  apply crowding_writes_fold. intros h' i Hi. unfold add_distance.
  apply (crowding_writes_update front
           (fun L => fdist_add (crowding_distance L) _)).
  apply Hmem. apply elem_of_seq in Hi. lia.
Qed.

Lemma crowd_objectives_writes objs : forall h front,
  front <> [] ->
  crowding_writes front h (fold_left crowd_objective objs (h, front)).1 /\
  (fold_left crowd_objective objs (h, front)).2 ≡ₚ front.
Proof.
  induction objs as [|obj objs IH]; intros h front Hne; cbn [fold_left].
  - split; [apply crowding_writes_refl|reflexivity].
  - destruct (crowd_objective_writes h front obj Hne) as [Hw Hperm].
    destruct (crowd_objective (h, front) obj) as [h1 f1]. cbn [fst snd] in *.
    assert (Hne1 : f1 <> []).
    { intros ->. apply Permutation_nil_l in Hperm. congruence. }
    destruct (IH h1 f1 Hne1) as [Hw' Hperm'].
    split; [|rewrite Hperm'; assumption].
    eapply crowding_writes_trans; [exact Hw|].
    eapply crowding_writes_perm; eassumption.
Qed.

Lemma calculate_crowding_distance_writes h front :
  crowding_writes front h (calculate_crowding_distance h front).1.
Proof.
  assert (Hset : forall d, crowding_writes front h
            (fold_left (fun h layout => update (set_crowding_distance d) layout h)
                       front h)).
  { intros d. apply crowding_writes_fold. intros h' l Hl.
    apply (crowding_writes_update front (fun _ => d)). assumption. }
  unfold calculate_crowding_distance. case_bool_decide as Hlen; cbn [fst snd].
  - apply Hset.
  - assert (Hne : front <> []) by (destruct front; [cbn in Hlen; lia|congruence]).
    destruct (crowd_objectives_writes objectives
                (fold_left (fun h layout => update (set_crowding_distance (Fin 0)) layout h)
                           front h) front Hne) as [Hw _].
    exact (crowding_writes_trans front _ _ _ (Hset (Fin 0)) Hw).
Qed.

(** X19. [calculate_crowding_distance] writes only the crowding distance of
    members of the front: every object keeps its layout, metrics, weighted
    score, rank and domination data, objects outside the front are
    unchanged, and the front is only reordered. *)
Theorem crowding_writes_only_front_distances h front :
  (forall l, same_but_crowding ((calculate_crowding_distance h front).1 !!! l)
                               (h !!! l)) /\
  (forall l, l ∉ front -> (calculate_crowding_distance h front).1 !!! l = h !!! l) /\
  (calculate_crowding_distance h front).2 ≡ₚ front.
Proof.
  destruct (calculate_crowding_distance_writes h front) as [A B].
  split; [exact A|]. split; [exact B|].
  apply calculate_crowding_distance_perm.
Qed.

(** A crowding distance that is infinite or lies between 0 and [n]. *)
Definition cd_between (n : nat) (d : fdist) : Prop :=
  match d with
  | Inf => True
  | Fin q => (0 <= q <= inject_Z (Z.of_nat n))%Q
  end.

Lemma inject_nat_S n : (inject_Z (Z.of_nat (S n)) == inject_Z (Z.of_nat n) + 1)%Q.
Proof. rewrite Nat2Z.inj_succ. unfold Z.succ. rewrite inject_Z_plus. reflexivity. Qed.

Lemma cd_between_S n d : cd_between n d -> cd_between (S n) d.
Proof.
  destruct d as [q|]; [|auto]. cbn. rewrite inject_nat_S. intros [H0 Hn]. split; lra.
Qed.

Lemma cd_between_add n d q :
  (0 <= q <= 1)%Q -> cd_between n d -> cd_between (S n) (fdist_add d q).
Proof.
  destruct d as [a|]; [|auto]. cbn. rewrite inject_nat_S. intros [H0 H1] [Ha Hn].
  split; lra.
Qed.

Lemma sorted_lookup_le {A} `{!Inhabited A} (key : A -> Q) (l : list A) :
  StronglySorted (key_le key) l ->
  forall i j, (i <= j)%nat -> (j < length l)%nat ->
    (key (l !!! i) <= key (l !!! j))%Q.
Proof.
  induction 1 as [|y l Hs IH Hall]; intros i j Hij Hj; [cbn in Hj; lia|].
  destruct i as [|i], j as [|j]; cbn [lookup_total list_lookup_total].
  - apply Qle_refl.
  - rewrite Forall_forall in Hall. apply Hall.
    apply list_elem_of_lookup_total_2. cbn in Hj. lia.
  - lia.
  - apply IH; cbn in Hj; lia.
Qed.

Lemma set_all_value d front : forall h l,
  l ∈ front ->
  crowding_distance
    (fold_left (fun h layout => update (set_crowding_distance d) layout h) front h
       !!! l) = d.
Proof.
  induction front as [|x front IH] using rev_ind; intros h l Hl; [inversion Hl|].
  rewrite fold_left_app. cbn [fold_left]. rewrite update_lookup.
  destruct (decide (x = l)) as [->|Hne]; [reflexivity|].
  apply IH. apply elem_of_app in Hl as [Hl|Hl]; [assumption|].
  apply list_elem_of_singleton in Hl. congruence.
Qed.

Lemma add_distance_fold_other sorted vals range l : forall idxs h,
  l ∉ (fun i => sorted !!! i) <$> idxs ->
  fold_left (add_distance sorted vals range) idxs h !!! l = h !!! l.
Proof.
  induction idxs as [|i idxs IH]; intros h Hl; [reflexivity|].
  cbn [fold_left]. rewrite fmap_cons in Hl. apply not_elem_of_cons in Hl as [Hne Hl].
  rewrite IH by assumption. unfold add_distance.
  apply update_lookup_ne. congruence.
Qed.

Lemma add_distance_fold_between sorted vals range l n : forall idxs h,
  NoDup ((fun i => sorted !!! i) <$> idxs) ->
  (forall i, i ∈ idxs ->
     (0 <= (vals !!! (i + 1)%nat - vals !!! (i - 1)%nat) / range <= 1)%Q) ->
  cd_between n (crowding_distance (h !!! l)) ->
  cd_between (S n)
    (crowding_distance (fold_left (add_distance sorted vals range) idxs h !!! l)).
Proof.
  induction idxs as [|i idxs IH]; intros h Hnd Hd Hl.
  - cbn. apply cd_between_S. assumption.
  - rewrite fmap_cons in Hnd. apply NoDup_cons in Hnd as [Hi Hnd].
    cbn [fold_left].
    destruct (decide (sorted !!! i = l)) as [E|E].
    + subst l. rewrite add_distance_fold_other by assumption.
      unfold add_distance. rewrite update_lookup_eq. cbn.
      apply cd_between_add; [apply Hd; left|assumption].
    + apply IH; [assumption| |].
      * intros j Hj. apply Hd. right. assumption.
      * unfold add_distance. rewrite update_lookup_ne by assumption. assumption.
Qed.

Lemma crowd_objective_between h front obj n :
  metric_only obj -> NoDup front -> front <> [] ->
  (forall l, l ∈ front -> cd_between n (crowding_distance (h !!! l))) ->
  forall l, l ∈ front ->
    cd_between (S n) (crowding_distance ((crowd_objective (h, front) obj).1 !!! l)).
Proof.
  intros Hobj Hnd Hne Hall l Hl. unfold crowd_objective.
  set (sorted := sort_by_key (fun l => obj (h !!! l)) front).
  assert (Hperm : sorted ≡ₚ front) by apply stable_sort_perm.
  assert (Hnds : NoDup sorted) by (rewrite Hperm; assumption).
  set (ha := update (set_crowding_distance Inf) (sorted !!! 0%nat) h).
  set (hb := update (set_crowding_distance Inf) (sorted !!! (length sorted - 1)%nat) ha).
  assert (Hstep : cd_step h hb).
  { eapply cd_step_trans; apply cd_step_set_inf. }
  assert (Hhb : cd_between n (crowding_distance (hb !!! l))).
  { unfold hb, ha. rewrite !update_lookup.
    repeat (destruct (decide _)); cbn; auto. }
  set (vals := map (fun l => obj (hb !!! l)) sorted).
  assert (Hval : forall k, (k < length sorted)%nat ->
            vals !!! k = obj (h !!! (sorted !!! k))).
  { intros k Hk. unfold vals.
    change (map (fun l => obj (hb !!! l)) sorted)
      with ((fun l => obj (hb !!! l)) <$> sorted).
    rewrite (list_lookup_total_fmap (fun l => obj (hb !!! l)) sorted k Hk).
    apply metric_only_cd_step; assumption. }
  assert (Hlenv : length vals = length sorted) by apply length_map.
  destruct (Qlt_bool 0 (py_max vals - py_min vals)) eqn:Er; cbn [fst];
    [|apply cd_between_S; assumption].
  apply Qlt_bool_iff in Er.
  apply add_distance_fold_between; [| |assumption].
  - apply NoDup_fmap_2_strong; [|apply NoDup_seq].
    intros i j Hi Hj Heq. apply elem_of_seq in Hi, Hj.
    apply (NoDup_lookup sorted i j (sorted !!! i)); [assumption| |].
    + apply list_lookup_lookup_total_lt. lia.
    + rewrite Heq. apply list_lookup_lookup_total_lt. lia.
  - intros i Hi. apply elem_of_seq in Hi.
    assert (Hlo : (py_min vals <= vals !!! (i - 1)%nat)%Q).
    { apply py_min_le, list_elem_of_lookup_total_2. lia. }
    assert (Hhi : (vals !!! (i + 1)%nat <= py_max vals)%Q).
    { apply py_max_ge, list_elem_of_lookup_total_2. lia. }
    assert (Hmid : (vals !!! (i - 1)%nat <= vals !!! (i + 1)%nat)%Q).
    { rewrite !Hval by lia.
      apply (sorted_lookup_le (fun l => obj (h !!! l)) sorted);
        [apply sort_by_key_sorted|lia..]. }
    split.
    + apply Qle_shift_div_l; [assumption|]. lra.
    + apply Qle_shift_div_r; [assumption|]. lra.
Qed.

Lemma crowd_objectives_between objs : Forall metric_only objs ->
  forall h front n,
  NoDup front -> front <> [] ->
  (forall l, l ∈ front -> cd_between n (crowding_distance (h !!! l))) ->
  forall l, l ∈ front ->
    cd_between (n + length objs)
      (crowding_distance ((fold_left crowd_objective objs (h, front)).1 !!! l)).
Proof.
  induction 1 as [|obj objs Hobj _ IH]; intros h front n Hnd Hne Hall l Hl.
  - cbn. rewrite Nat.add_0_r. auto.
  - cbn [fold_left length].
    pose proof (crowd_objective_between h front obj n Hobj Hnd Hne Hall) as Hstep.
    destruct (crowd_objective_writes h front obj Hne) as [_ Hperm].
    destruct (crowd_objective (h, front) obj) as [h1 f1]. cbn [fst snd] in *.
    replace (n + S (length objs))%nat with (S n + length objs)%nat by lia.
    apply (IH h1 f1 (S n)).
    + rewrite Hperm. assumption.
    + intros ->. apply Permutation_nil_l in Hperm. congruence.
    + intros l' Hl'. apply Hstep. rewrite <- Hperm. assumption.
    + rewrite Hperm. assumption.
Qed.

(** X20. After [calculate_crowding_distance] on a front of distinct
    genomes, the crowding distance of every member is either infinite or a
    number between 0 and 8: each of the eight objectives adds a
    non-negative share of at most 1. *)
Theorem crowding_distance_range h front l :
  NoDup front -> l ∈ front ->
  match crowding_distance ((calculate_crowding_distance h front).1 !!! l) with
  | Inf => True
  | Fin q => (0 <= q <= 8)%Q
  end.
Proof.
  intros Hnd Hl. unfold calculate_crowding_distance.
  case_bool_decide as Hlen; cbn [fst].
  - rewrite set_all_value by assumption. exact I.
  - assert (Hne : front <> []) by (destruct front; [cbn in Hlen; lia|congruence]).
    apply (crowd_objectives_between objectives objectives_metric_only _ front 0 Hnd Hne);
      [|assumption].
    intros l' Hl'. rewrite set_all_value by assumption. cbn. split; apply Qle_refl.
Qed.

Lemma crowding_distance_range_witness :
  match crowding_distance
          ((calculate_crowding_distance ranked_heap ranked_population).1 !!! 2%positive)
  with
  | Inf => True
  | Fin q => (0 <= q <= 8)%Q
  end.
Proof.
  apply (crowding_distance_range ranked_heap ranked_population 2%positive).
  - by_evaluation.
  - by_evaluation.
Defined.

(** ** More on the truncation *)

Section StableSortOrder.
Context {A : Type} (before : A -> A -> bool).
Hypothesis before_total : forall x y, before x y = true \/ before y x = true.
Hypothesis before_trans : forall x y z,
  before x y = true -> before y z = true -> before x z = true.

Lemma insert_sorted_before x l :
  StronglySorted (fun a b => before a b = true) l ->
  StronglySorted (fun a b => before a b = true) (insert_sorted before x l).
Proof.
  induction 1 as [|y l Hs IH Hall]; cbn.
  - constructor; constructor.
  - destruct (before x y) eqn:E.
    + constructor; [constructor; assumption|].
      constructor; [exact E|].
      eapply Forall_impl; [exact Hall|].
      intros z Hz. cbn in *. eapply before_trans; eassumption.
    + assert (Hyx : before y x = true).
      { destruct (before_total x y) as [H|H]; [congruence|assumption]. }
      constructor; [exact IH|].
      rewrite (insert_sorted_perm before x l). constructor; assumption.
Qed.

Lemma stable_sort_sorted l :
  StronglySorted (fun a b => before a b = true) (stable_sort before l).
Proof.
  induction l as [|x l IH]; cbn; [constructor|].
  apply insert_sorted_before. exact IH.
Qed.
End StableSortOrder.

Lemma fdist_le_total a b : fdist_le a b = true \/ fdist_le b a = true.
Proof.
  destruct a as [x|], b as [y|]; cbn; auto.
  destruct (Qle_bool x y) eqn:E; [auto|right].
  apply Qle_bool_iff. apply Qlt_le_weak, Qnot_le_lt.
  intros Hle. apply Qle_bool_iff in Hle. congruence.
Qed.

Lemma fdist_le_trans a b c :
  fdist_le a b = true -> fdist_le b c = true -> fdist_le a c = true.
Proof.
  destruct a as [x|], b as [y|], c as [z|]; cbn; try congruence.
  rewrite !Qle_bool_iff. apply Qle_trans.
Qed.

(** The shape of what the truncation returns. *)
Lemma truncation_shape h fronts population_size new_population :
  select_next_generation h fronts population_size = Ok new_population ->
  exists whole front rest chosen left_out,
    fronts = whole ++ front :: rest /\
    new_population = concat whole ++ chosen /\
    chosen ++ left_out ≡ₚ front /\
    left_out <> [] /\
    length new_population = population_size /\
    forall x y, x ∈ chosen -> y ∈ left_out ->
      fdist_le (crowding_distance (h !!! y)) (crowding_distance (h !!! x)) = true.
Proof.
  intros Hsel.
  destruct (decide (length (concat fronts) <= population_size)%nat) as [Hfit|Hover].
  { unfold select_next_generation in Hsel.
    rewrite take_whole_fronts_all_fit in Hsel by (cbn; lia). discriminate. }
  destruct (take_whole_fronts_overflow fronts population_size [])
    as (whole & front & rest & Hsplit & Heq & Hle & Hlt); [cbn; lia..|].
  cbn [app] in *. unfold select_next_generation in Hsel. rewrite Heq in Hsel.
  set (before := fun x y => fdist_le (crowding_distance (h !!! y))
                                     (crowding_distance (h !!! x))) in *.
  set (sorted := stable_sort before front) in *.
  set (k := (population_size - length (concat whole))%nat) in *.
  assert (Hsorted : StronglySorted (fun a b => before a b = true) sorted).
  { apply stable_sort_sorted.
    - intros x y. apply fdist_le_total.
    - intros x y z Hxy Hyz. unfold before in *. eapply fdist_le_trans; eassumption. }
  assert (Hperm : sorted ≡ₚ front) by apply stable_sort_perm.
  assert (Hnew : new_population = concat whole ++ take k sorted).
  { destruct (bool_decide _) eqn:Hfill in Hsel; injection Hsel as <-; [reflexivity|].
    apply bool_decide_eq_false in Hfill.
    replace k with 0%nat by (unfold k; lia). rewrite take_0, app_nil_r. reflexivity. }
  exists whole, front, rest, (take k sorted), (drop k sorted).
  split; [assumption|]. split; [assumption|].
  split; [rewrite take_drop; assumption|].
  split.
  { intros Hnil. apply (f_equal length) in Hnil. rewrite length_drop in Hnil.
    rewrite (Permutation_length Hperm) in Hnil. cbn in Hnil. unfold k in Hnil. lia. }
  split.
  { rewrite Hnew, length_app, length_take, (Permutation_length Hperm). unfold k. lia. }
  intros x y Hx Hy.
  rewrite <- (take_drop k sorted) in Hsorted.
  exact (StronglySorted_app_1_elem_of _ _ _ x y Hsorted Hx Hy).
Qed.

(** X21. When the truncation returns, the new population has exactly
    [population_size] genomes: all the fronts before the first front that
    does not fit, in order, followed by members of that front; the members
    taken have a crowding distance at least as large as that of every member
    left out, and at least one member is left out. *)
Theorem truncation_prefers_less_crowded h fronts population_size new_population :
  select_next_generation h fronts population_size = Ok new_population ->
  length new_population = population_size /\
  exists whole front rest chosen left_out,
    fronts = whole ++ front :: rest /\
    new_population = concat whole ++ chosen /\
    chosen ++ left_out ≡ₚ front /\
    left_out <> [] /\
    forall x y, x ∈ chosen -> y ∈ left_out ->
      fdist_le (crowding_distance (h !!! y)) (crowding_distance (h !!! x)) = true.
Proof.
  intros Hsel.
  destruct (truncation_shape h fronts population_size new_population Hsel)
    as (whole & front & rest & chosen & left_out & H1 & H2 & H3 & H4 & H5 & H6).
  split; [assumption|]. exists whole, front, rest, chosen, left_out. auto.
Qed.

(** The ranked example after the crowding distance of each front. *)
Definition crowded_example : gmap loc Layout * list (list loc) :=
  crowd_all ranked_store [[1; 2; 3; 4]; [5]]%positive.

Lemma truncation_prefers_less_crowded_witness :
  length [4; 1; 3]%positive = 3%nat /\
  exists whole front rest chosen left_out,
    crowded_example.2 = whole ++ front :: rest /\
    [4; 1; 3]%positive = concat whole ++ chosen /\
    chosen ++ left_out ≡ₚ front /\
    left_out <> [] /\
    forall x y, x ∈ chosen -> y ∈ left_out ->
      fdist_le (crowding_distance (crowded_example.1 !!! y))
               (crowding_distance (crowded_example.1 !!! x)) = true.
Proof.
  apply (truncation_prefers_less_crowded crowded_example.1 crowded_example.2 3
           [4; 1; 3]%positive).
  vm_compute. reflexivity.
Defined.

(** ** More on a whole generation *)

Lemma crowd_all_writes fronts : forall h acc l,
  same_but_crowding
    ((fold_left
        (fun acc front =>
           let '(h', front') := calculate_crowding_distance acc.1 front in
           (h', acc.2 ++ [front']))
        fronts (h, acc)).1 !!! l) (h !!! l).
Proof.
  induction fronts as [|front fronts IH]; intros h acc l; cbn [fold_left].
  - repeat split.
  - pose proof (calculate_crowding_distance_writes h front) as [Hw _]. cbn [fst snd].
    destruct (calculate_crowding_distance h front) as [h' front']. cbn [fst] in Hw.
    specialize (IH h' (acc ++ [front']) l).
    destruct IH as (a1 & a2 & a3 & a4 & a5 & a6 & a7).
    destruct (Hw l) as (b1 & b2 & b3 & b4 & b5 & b6 & b7).
    repeat split; congruence.
Qed.

Lemma same_but_crowding_dominates a a' b b' :
  same_but_crowding a a' -> same_but_crowding b b' ->
  dominates a b = dominates a' b'.
Proof.
  intros (_ & Ea & Fa & _) (_ & Eb & Fb & _).
  apply dominates_same_metrics; split; assumption.
Qed.

(** X22. One generation is elitist.  When it returns, the new population
    consists of exactly [population_size] distinct genomes of the pool
    (parents and offspring), and for a genome [x] that is kept and a genome
    [y] of the pool that is dropped: the rank of [x] is at most the rank of
    [y]; at equal rank the crowding distance of [x] is at least that of [y];
    and [y] does not dominate [x]. *)
Theorem generation_is_elitist self st population draws population_size
    st1 offspring st' new_population :
  NoDup population ->
  (forall l, l ∈ population -> l ∈ dom (layouts st)) ->
  outcome (make_offspring self st population draws) = Ok (st1, offspring) ->
  outcome (generation self st population draws population_size)
    = Ok (st', new_population) ->
  length new_population = population_size /\
  NoDup new_population /\
  (forall l, l ∈ new_population -> l ∈ population ++ offspring) /\
  forall x y, x ∈ new_population -> y ∈ population ++ offspring ->
    y ∉ new_population ->
    rank (layouts st' !!! x) <= rank (layouts st' !!! y) /\
    (rank (layouts st' !!! x) = rank (layouts st' !!! y) ->
     fdist_le (crowding_distance (layouts st' !!! y))
              (crowding_distance (layouts st' !!! x)) = true) /\
    dominates (layouts st' !!! y) (layouts st' !!! x) = false.
Proof.
  intros Hnd Hdom Hoff Hgen.
  destruct (make_offspring_fresh self population draws st st1 offspring Hoff)
    as (Hndo & Hfresh & _ & _).
  assert (Hpool : NoDup (population ++ offspring)).
  { apply NoDup_app. split; [assumption|]. split; [|assumption].
    intros l Hl Hlo. apply (Hfresh l Hlo). auto. }
  unfold generation in Hgen. rewrite outcome_bind, Hoff in Hgen.
  cbv beta iota zeta in Hgen. rewrite outcome_bind in Hgen.
  cbn [lift outcome snd] in Hgen.
  destruct (fast_non_dominated_sort (layouts st1) (population ++ offspring))
    as [[h2 fronts]| |] eqn:Hsort; [|discriminate..].
  cbv beta iota zeta in Hgen.
  destruct (sort_full _ _ _ _ Hpool Hsort) as (Hk & Hperm & Hlay & Hdet).
  destruct (crowd_all_perm fronts h2 []) as (fronts' & Hfs & Hall).
  pose proof (crowd_all_writes fronts h2 []) as Hw.
  unfold crowd_all in Hgen.
  destruct (fold_left _ fronts (h2, [])) as [h3 fs]. cbn [fst snd app] in Hfs, Hw.
  subst fs. rewrite outcome_bind in Hgen. cbn [lift outcome snd] in Hgen.
  destruct (select_next_generation h3 fronts' population_size)
    as [np| |] eqn:Hsel; [|discriminate..].
  cbn in Hgen. injection Hgen as <- <-. cbn [layouts].
  destruct (truncation_shape h3 fronts' population_size np Hsel)
    as (whole & front & rest & chosen & left_out & Hsplit & Hnp & Hfront & _ & Hlen & Hcd).
  assert (Hperm' : concat fronts' ≡ₚ population ++ offspring).
  { rewrite (concat_Forall2_perm _ _ Hall). assumption. }
  assert (Hcat : concat fronts' = concat whole ++ front ++ concat rest).
  { rewrite Hsplit, concat_app. reflexivity. }
  assert (Hsub : np ⊆+ population ++ offspring).
  { rewrite <- Hperm', Hcat, Hnp. apply submseteq_skips_l.
    rewrite <- Hfront, <- app_assoc. apply submseteq_inserts_r. reflexivity. }
  assert (Hrank : forall i F l, fronts' !! i = Some F -> l ∈ F ->
            rank (h3 !!! l) = Z.of_nat i).
  { intros i F l Hi HlF.
    destruct (Forall2_lookup_l _ _ _ i F Hall Hi) as (G & HG & HFG).
    destruct (Hw l) as (_ & _ & _ & _ & -> & _).
    apply (det_rank _ _ _ _ _ Hdet i G l).
    - apply lookup_app_l_Some. assumption.
    - rewrite <- HFG. assumption. }
  assert (Hkept : forall x, x ∈ np ->
            (rank (h3 !!! x) < Z.of_nat (length whole)) \/
            (rank (h3 !!! x) = Z.of_nat (length whole) /\ x ∈ chosen)).
  { intros x Hx. rewrite Hnp in Hx. apply elem_of_app in Hx as [Hx|Hx].
    - left. apply elem_of_concat in Hx as (F & HF & HxF).
      apply list_elem_of_lookup_1 in HF as [i Hi].
      rewrite (Hrank i F x); [|rewrite Hsplit; apply lookup_app_l_Some|]; try assumption.
      apply lookup_lt_Some in Hi. lia.
    - right. split; [|assumption].
      apply (Hrank (length whole) front x).
      + rewrite Hsplit. apply list_lookup_middle. reflexivity.
      + rewrite <- Hfront. apply elem_of_app. left. assumption. }
  assert (Hdropped : forall y, y ∈ population ++ offspring -> y ∉ np ->
            (Z.of_nat (length whole) < rank (h3 !!! y)) \/
            (rank (h3 !!! y) = Z.of_nat (length whole) /\ y ∈ left_out)).
  { intros y Hy Hyn. rewrite <- Hperm', Hcat in Hy. rewrite Hnp in Hyn.
    apply elem_of_app in Hy as [Hy|Hy].
    { exfalso. apply Hyn. apply elem_of_app. left. assumption. }
    apply elem_of_app in Hy as [Hy|Hy].
    - right. split.
      + apply (Hrank (length whole) front y); [|assumption].
        rewrite Hsplit. apply list_lookup_middle. reflexivity.
      + rewrite <- Hfront in Hy. apply elem_of_app in Hy as [Hy|Hy]; [|assumption].
        exfalso. apply Hyn. apply elem_of_app. right. assumption.
    - left. apply elem_of_concat in Hy as (G & HG & HyG).
      apply list_elem_of_lookup_1 in HG as [j Hj].
      rewrite (Hrank (length whole + S j)%nat G y); [lia| |assumption].
      rewrite Hsplit, lookup_app_r by lia.
      replace (length whole + S j - length whole)%nat with (S j) by lia.
      exact Hj. }
  split; [assumption|].
  split; [eapply NoDup_of_submseteq; eassumption|].
  split; [intros l Hl; eapply elem_of_submseteq; eassumption|].
  intros x y Hx Hy Hyn.
  pose proof (Hkept x Hx) as Hkx. pose proof (Hdropped y Hy Hyn) as Hdy.
  assert (Hle : rank (h3 !!! x) <= rank (h3 !!! y)).
  { destruct Hkx as [?|[? _]], Hdy as [?|[? _]]; lia. }
  split; [assumption|]. split.
  - intros Heq. destruct Hkx as [?|[? Hxc]], Hdy as [?|[? Hyl]]; try lia.
    apply Hcd; assumption.
  - destruct (dominates (h3 !!! y) (h3 !!! x)) eqn:HD; [exfalso|reflexivity].
    rewrite (same_but_crowding_dominates _ (h2 !!! y) _ (h2 !!! x)) in HD
      by apply Hw.
    rewrite (keeps_metrics_dominates (layouts st1) h2 y x Hk) in HD.
    assert (Hxp : x ∈ population ++ offspring)
      by (eapply elem_of_submseteq; eassumption).
    pose proof (dominator_has_smaller_rank _ _ _ _ y x Hpool Hsort Hy Hxp HD) as Hlt.
    destruct (Hw x) as (_ & _ & _ & _ & Rx & _).
    destruct (Hw y) as (_ & _ & _ & _ & Ry & _). lia.
Qed.

Definition example_offspring : store * list loc :=
  match outcome (make_offspring scissors_optimizer parent_store [1%positive]
                   [Some (0, 1)%nat]) with
  | Ok r => r
  | _ => (parent_store, [])
  end.

Definition example_generation : store * list loc :=
  match outcome (generation scissors_optimizer parent_store [1%positive]
                   [Some (0, 1)%nat] 1) with
  | Ok r => r
  | _ => (parent_store, [])
  end.

Lemma generation_is_elitist_witness :
  length example_generation.2 = 1%nat /\
  NoDup example_generation.2 /\
  (forall l, l ∈ example_generation.2 -> l ∈ [1%positive] ++ example_offspring.2) /\
  forall x y, x ∈ example_generation.2 -> y ∈ [1%positive] ++ example_offspring.2 ->
    y ∉ example_generation.2 ->
    rank (layouts example_generation.1 !!! x) <= rank (layouts example_generation.1 !!! y) /\
    (rank (layouts example_generation.1 !!! x) = rank (layouts example_generation.1 !!! y) ->
     fdist_le (crowding_distance (layouts example_generation.1 !!! y))
              (crowding_distance (layouts example_generation.1 !!! x)) = true) /\
    dominates (layouts example_generation.1 !!! y)
              (layouts example_generation.1 !!! x) = false.
Proof.
  apply (generation_is_elitist scissors_optimizer parent_store [1%positive]
           [Some (0, 1)%nat] 1 example_offspring.1 example_offspring.2
           example_generation.1 example_generation.2).
  - by_evaluation.
  - intros l Hl. apply list_elem_of_singleton in Hl as ->. by_evaluation.
  - vm_compute. reflexivity.
  - vm_compute. reflexivity.
Defined.

(** ** The returned Pareto front *)

(** What [evaluate_layout] guarantees about the genome it builds. *)
Definition evaluated_genome (L : Layout) : Prop :=
  skip_bigrams (english_metrics L) = scissors (english_metrics L) /\
  skip_bigrams (finnish_metrics L) = scissors (finnish_metrics L) /\
  (weighted_score L
   == 0.8 * three_sum (english_metrics L) + 0.2 * three_sum (finnish_metrics L))%Q.

Lemma evaluated_is_evaluated_genome self d p : evaluated_genome (evaluated self d p).
Proof. repeat split; reflexivity. Qed.

Lemma evaluated_genome_dominates a b :
  evaluated_genome a -> evaluated_genome b -> dominates a b = true ->
  (weighted_score a < weighted_score b)%Q.
Proof.
  intros (Ea & Fa & Wa) (Eb & Fb & Wb) HD. rewrite Wa, Wb.
  apply dominates_weighted_score; assumption.
Qed.

(** Every member of a front has a member of the first front with a weighted
    score that is not larger. *)
Lemma first_front_scores_least h population h' fronts :
  NoDup population ->
  fast_non_dominated_sort h population = Ok (h', fronts) ->
  (forall l, l ∈ population -> evaluated_genome (h !!! l)) ->
  forall i F l, fronts !! i = Some F -> l ∈ F ->
    exists G m, fronts !! 0%nat = Some G /\ m ∈ G /\
      (weighted_score (h !!! m) <= weighted_score (h !!! l))%Q.
Proof.
  intros Hnd Hsort Hev.
  destruct (sort_full population h h' fronts Hnd Hsort) as (_ & Hperm & _ & Hdet).
  assert (Hpop : forall i F l, fronts !! i = Some F -> l ∈ F -> l ∈ population).
  { intros i F l Hi HlF. rewrite <- Hperm. apply elem_of_concat. exists F.
    split; [eapply list_elem_of_lookup_2; eassumption|assumption]. }
  induction i as [|i IH]; intros F l Hi HlF.
  - exists F, l. split; [assumption|]. split; [assumption|apply Qle_refl].
  - destruct (det_parent _ _ _ _ _ Hdet i F l) as (G & l' & HG & Hl' & HD);
      [apply lookup_app_l_Some; assumption|assumption|].
    pose proof (lookup_lt_Some _ _ _ Hi) as Hlt.
    rewrite lookup_app_l in HG by lia.
    destruct (IH G l' HG Hl') as (G0 & m & HG0 & Hm & Hle).
    exists G0, m. split; [assumption|]. split; [assumption|].
    apply Qlt_le_weak. eapply Qle_lt_trans; [exact Hle|].
    apply evaluated_genome_dominates; [apply Hev; eauto..|exact HD].
Qed.

(** The sort at line 410 returns for distinct genomes; the returned list
    is the first front, sorted. *)
Lemma pareto_front_shape h population :
  NoDup population ->
  exists h' fronts,
    fast_non_dominated_sort h population = Ok (h', fronts) /\
    pareto_front h population
    = Ok (h', sort_by_key (fun l => weighted_score (h' !!! l))
                (match fronts with F :: _ => F | [] => [] end)) /\
    match fronts with F :: _ => F | [] => [] end
    = filter (fun l => Forall (fun l' => dominates (h !!! l') (h !!! l) = false)
                         population) population /\
    (population <> [] -> match fronts with F :: _ => F | [] => [] end <> []).
Proof.
  intros Hnd.
  destruct (sort_spec population Hnd h) as (h' & fronts & Hsort & _).
  exists h', fronts. split; [assumption|].
  split; [unfold pareto_front; rewrite Hsort; reflexivity|].
  destruct (sort_full population h h' fronts Hnd Hsort) as (_ & Hperm & _ & Hdet).
  destruct Hdet as [Hn [rest Hf] _ _ _].
  destruct fronts as [|F fs].
  - cbn in Hperm. apply Permutation_nil_l in Hperm. subst population.
    split; [reflexivity|congruence].
  - split; [|intros _; apply (Forall_inv Hn)].
    cbn in Hf. injection Hf as -> _.
    apply list_filter_iff. intros l. apply dominator_count_zero.
Qed.

(** X23. The list that [optimize] returns for a final population of
    distinct evaluated genomes is a rearrangement of the genomes that no
    member of the population dominates, in ascending order of
    [weighted_score], and its first element has the least weighted score of
    the whole population. *)
Theorem pareto_front_sorted_and_best h population h' returned :
  NoDup population ->
  (forall l, l ∈ population -> evaluated_genome (h !!! l)) ->
  pareto_front h population = Ok (h', returned) ->
  returned ≡ₚ
    filter (fun l => Forall (fun l' => dominates (h !!! l') (h !!! l) = false)
                       population) population /\
  StronglySorted (fun a b => (weighted_score (h' !!! a) <= weighted_score (h' !!! b))%Q)
                 returned /\
  forall first l, returned !! 0%nat = Some first -> l ∈ population ->
    (weighted_score (h' !!! first) <= weighted_score (h' !!! l))%Q.
Proof.
  intros Hnd Hev Hret.
  destruct (pareto_front_shape h population Hnd)
    as (h1 & fronts & Hsort & Heq & Hfront & _).
  rewrite Heq in Hret. injection Hret as <- <-.
  destruct (sort_full population h h1 fronts Hnd Hsort) as (_ & Hperm & _ & Hdet).
  pose proof (det_writes _ _ _ _ _ Hdet) as [Hsame _].
  assert (Hw : forall l, weighted_score (h1 !!! l) = weighted_score (h !!! l)).
  { intros l. destruct (Hsame l) as (_ & _ & _ & E & _). exact E. }
  set (front := match fronts with F :: _ => F | [] => [] end) in *.
  set (sorted := sort_by_key (fun l => weighted_score (h1 !!! l)) front).
  assert (Hsp : sorted ≡ₚ front) by apply stable_sort_perm.
  assert (Hss : StronglySorted (key_le (fun l => weighted_score (h1 !!! l))) sorted)
    by apply sort_by_key_sorted.
  split; [rewrite Hsp, Hfront; reflexivity|]. split; [exact Hss|].
  intros first l Hfirst Hl.
  assert (Hlin : l ∈ concat fronts) by (rewrite Hperm; assumption).
  apply elem_of_concat in Hlin as (F & HF & HlF).
  apply list_elem_of_lookup_1 in HF as [i Hi].
  destruct (first_front_scores_least h population h1 fronts Hnd Hsort Hev i F l Hi HlF)
    as (G & m & HG & Hm & Hle).
  assert (Hmf : m ∈ sorted).
  { rewrite Hsp. unfold front. destruct fronts; [discriminate|].
    cbn in HG. injection HG as ->. assumption. }
  rewrite !Hw. eapply Qle_trans; [|exact Hle]. rewrite <- !Hw.
  apply list_lookup_total_correct in Hfirst. rewrite <- Hfirst.
  apply (sorted_bounds (fun l => weighted_score (h1 !!! l)) sorted m Hss Hmf).
Qed.

(** Two evaluated genomes: the source-order layout, on which the corpus
    bigram is a scissors, and a mutation of it on which it is not. *)
Definition evaluated_heap : gmap loc Layout :=
  list_to_map
    [(1%positive,
      evaluated scissors_optimizer
        (assign_shuffled moveable_letters moveable_positions) 1%positive);
     (2%positive, evaluated scissors_optimizer mutated_example 2%positive)].

Definition returned_example : gmap loc Layout * list loc :=
  match pareto_front evaluated_heap [1; 2]%positive with
  | Ok r => r
  | _ => (∅, [])
  end.

Lemma pareto_front_sorted_and_best_witness :
  returned_example.2 ≡ₚ
    filter (fun l => Forall (fun l' => dominates (evaluated_heap !!! l')
                                         (evaluated_heap !!! l) = false)
                       [1; 2]%positive) [1; 2]%positive /\
  StronglySorted (fun a b => (weighted_score (returned_example.1 !!! a)
                              <= weighted_score (returned_example.1 !!! b))%Q)
                 returned_example.2 /\
  forall first l, returned_example.2 !! 0%nat = Some first -> l ∈ [1; 2]%positive ->
    (weighted_score (returned_example.1 !!! first)
     <= weighted_score (returned_example.1 !!! l))%Q.
Proof.
  apply (pareto_front_sorted_and_best evaluated_heap [1; 2]%positive
           returned_example.1 returned_example.2).
  - by_evaluation.
  - intros l Hl. apply elem_of_cons in Hl as [->|Hl];
      [|apply list_elem_of_singleton in Hl as ->];
      repeat split; vm_compute; reflexivity.
  - vm_compute. reflexivity.
Defined.

(** ** The whole of [optimize] *)

(** Relations on stores that every attribute write respects. *)
Section AttributeWrites.
Variable R : gmap loc Layout -> gmap loc Layout -> Prop.
Hypothesis R_refl : forall h, R h h.
Hypothesis R_trans : forall h1 h2 h3, R h1 h2 -> R h2 h3 -> R h1 h3.
Hypothesis R_update : forall f l h, R h (update f l h).

Lemma R_fold {S A} (proj : S -> gmap loc Layout) (step : S -> A -> S) xs :
  (forall s x, R (proj s) (proj (step s x))) ->
  forall s, R (proj s) (proj (fold_left step xs s)).
Proof.
  intros Hstep. induction xs as [|x xs IH]; intros s; cbn [fold_left].
  - apply R_refl.
  - eapply R_trans; [apply Hstep|apply IH].
Qed.

Lemma compare_with_R layout_i h jl : R h (compare_with layout_i h jl).
Proof.
  destruct jl as [j layout_j]. unfold compare_with.
  repeat (destruct (dominates _ _)); auto.
Qed.

Lemma scan_R population acc layout_i : R acc.1 (scan population acc layout_i).1.
Proof.
  destruct acc as [h front0]. unfold scan. cbn [fst].
  set (h1 := update (set_domination_count 0) layout_i h).
  set (h2 := update (set_dominated_solutions []) layout_i h1).
  set (h3 := fold_left (compare_with layout_i) (enumerate population) h2).
  assert (H3 : R h h3).
  { eapply R_trans; [apply (R_update (set_domination_count 0) layout_i h)|].
    eapply R_trans; [apply (R_update (set_dominated_solutions []) layout_i h1)|].
    apply (R_fold id (compare_with layout_i)). intros s x. apply compare_with_R. }
  destruct (domination_count (h3 !!! layout_i) =? 0); cbn [fst]; [|assumption].
  eapply R_trans; [exact H3|apply R_update].
Qed.

Lemma relax_R population front_index acc j :
  R acc.1 (relax population front_index acc j).1.
Proof.
  destruct acc as [h next_front]. unfold relax. cbn [fst].
  set (h1 := update _ (population !!! j) h).
  assert (H1 : R h h1) by apply R_update.
  destruct (domination_count (h1 !!! (population !!! j)) =? 0); cbn [fst];
    [|assumption].
  eapply R_trans; [exact H1|apply R_update].
Qed.

Lemma peel_front_R population front_index h front :
  R h (peel_front population front_index h front).1.
Proof.
  unfold peel_front.
  apply (R_fold fst
           (fun acc layout_i =>
              fold_left (relax population front_index)
                        (dominated_solutions (acc.1 !!! layout_i)) acc)
           front (fun s x => R_fold fst (relax population front_index) _
                               (fun s' j => relax_R population front_index s' j) s)
           (h, [])).
Qed.

Lemma peel_R population fuel : forall h fronts front_index h' fronts',
  peel fuel population h fronts front_index = Ok (h', fronts') -> R h h'.
Proof.
  induction fuel as [|fuel IH]; intros h fronts front_index h' fronts';
    cbn [peel]; [discriminate|].
  case_bool_decide.
  - pose proof (peel_front_R population front_index h (fronts !!! front_index)) as H1.
    destruct (peel_front population front_index h (fronts !!! front_index))
      as [h1 next]. cbn [fst] in H1.
    intros Hp. eapply R_trans; [exact H1|]. eapply IH. exact Hp.
  - intros [= <- <-]. apply R_refl.
Qed.

Lemma sort_R h population h' fronts :
  fast_non_dominated_sort h population = Ok (h', fronts) -> R h h'.
Proof.
  unfold fast_non_dominated_sort.
  pose proof (R_fold fst (scan population) population
                (fun s x => scan_R population s x) (h, [])) as H1.
  destruct (fold_left (scan population) population (h, [])) as [h1 front0].
  cbn [fst] in H1.
  destruct (peel (S (length population)) population h1 [front0] 0)
    as [[h2 fs]| |] eqn:Hp; [|discriminate..].
  intros [= <- <-]. eapply R_trans; [exact H1|].
  eapply peel_R. exact Hp.
Qed.

Lemma crowd_objective_R acc obj : R acc.1 (crowd_objective acc obj).1.
Proof.
  destruct acc as [h front]. unfold crowd_objective. cbn [fst].
  set (sorted := sort_by_key (fun l => obj (h !!! l)) front).
  set (ha := update (set_crowding_distance Inf) (sorted !!! 0%nat) h).
  set (hb := update (set_crowding_distance Inf) (sorted !!! (length sorted - 1)%nat) ha).
  assert (Hb : R h hb) by (eapply R_trans; apply R_update).
  destruct (Qlt_bool 0 _); cbn [fst]; [|assumption].
  eapply R_trans; [exact Hb|].
  apply (R_fold id). intros s i. unfold add_distance. apply R_update.
Qed.

Lemma calculate_crowding_distance_R h front :
  R h (calculate_crowding_distance h front).1.
Proof.
  assert (Hset : forall d, R h
            (fold_left (fun h layout => update (set_crowding_distance d) layout h)
                       front h)).
  { intros d. apply (R_fold id). intros s l. apply R_update. }
  unfold calculate_crowding_distance. case_bool_decide; cbn [fst]; [apply Hset|].
  eapply R_trans; [apply (Hset (Fin 0))|].
  apply (R_fold fst crowd_objective objectives
           (fun s obj => crowd_objective_R s obj) (_, front)).
Qed.

Lemma crowd_all_R h fronts : R h (crowd_all h fronts).1.
Proof.
  unfold crowd_all.
  apply (R_fold fst
           (fun acc front =>
              let '(h', front') := calculate_crowding_distance acc.1 front in
              (h', acc.2 ++ [front']))
           fronts) with (s := (h, [])).
  intros s front. pose proof (calculate_crowding_distance_R s.1 front) as H1.
  destruct (calculate_crowding_distance s.1 front). exact H1.
Qed.
End AttributeWrites.

Lemma dom_update_subseteq f l (h : gmap loc Layout) : dom h ⊆ dom (update f l h).
Proof.
  unfold update. intros x Hx. rewrite dom_insert. apply elem_of_union. right. assumption.
Qed.

Lemma sort_dom h population h' fronts :
  fast_non_dominated_sort h population = Ok (h', fronts) -> dom h ⊆ dom h'.
Proof.
  apply (sort_R (fun h h' => dom h ⊆ dom h')).
  - reflexivity.
  - intros h1 h2 h3 H12 H23. etransitivity; eassumption.
  - apply dom_update_subseteq.
Qed.

Lemma crowd_all_dom h fronts : dom h ⊆ dom (crowd_all h fronts).1.
Proof.
  apply (crowd_all_R (fun h h' => dom h ⊆ dom h')).
  - reflexivity.
  - intros h1 h2 h3 H12 H23. etransitivity; eassumption.
  - apply dom_update_subseteq.
Qed.

(** A genome as [evaluate_layout] leaves it: its layout dict is one that
    initialization and mutations produce, its metrics are those of that
    dict on the two corpora, and its weighted score is computed from them. *)
Definition genome_ok (self : optimizer) (st : store) (l : loc) : Prop :=
  l ∈ dom (layouts st) /\
  positions (layouts st !!! l) ∈ dom (dicts st) /\
  produced (dicts st !!! positions (layouts st !!! l)) /\
  english_metrics (layouts st !!! l)
  = metrics_of (dicts st !!! positions (layouts st !!! l))
               (english_bigrams self) (english_total self) /\
  finnish_metrics (layouts st !!! l)
  = metrics_of (dicts st !!! positions (layouts st !!! l))
               (finnish_bigrams self) (finnish_total self) /\
  weighted_score (layouts st !!! l)
  = (0.8 * three_sum (english_metrics (layouts st !!! l))
     + 0.2 * three_sum (finnish_metrics (layouts st !!! l)))%Q.

Lemma genome_ok_evaluated_genome self st l :
  genome_ok self st l -> evaluated_genome (layouts st !!! l).
Proof.
  intros (_ & _ & _ & He & Hf & Hw). unfold evaluated_genome.
  rewrite Hw, He, Hf. repeat split; reflexivity.
Qed.

Lemma lookup_total_weaken {A} `{!Inhabited A} (m m' : gmap loc A) l :
  m ⊆ m' -> l ∈ dom m -> m' !!! l = m !!! l.
Proof.
  intros Hsub Hl. apply elem_of_dom in Hl as [x Hx].
  rewrite (lookup_total_correct m l x Hx).
  apply lookup_total_correct. eapply lookup_weaken; eassumption.
Qed.

(** Attribute writes on genomes keep [genome_ok]. *)
Lemma genome_ok_writes self st h' l :
  dom (layouts st) ⊆ dom h' ->
  positions (h' !!! l) = positions (layouts st !!! l) ->
  english_metrics (h' !!! l) = english_metrics (layouts st !!! l) ->
  finnish_metrics (h' !!! l) = finnish_metrics (layouts st !!! l) ->
  weighted_score (h' !!! l) = weighted_score (layouts st !!! l) ->
  genome_ok self st l -> genome_ok self (mkStore (dicts st) h') l.
Proof.
  intros Hdom Hp He Hf Hw (H1 & H2 & H3 & H4 & H5 & H6).
  unfold genome_ok. cbn [dicts layouts]. rewrite Hp, He, Hf, Hw. auto 10.
Qed.

(** Allocations keep [genome_ok]. *)
Lemma genome_ok_extends self st st' l :
  dicts st ⊆ dicts st' -> layouts st ⊆ layouts st' ->
  genome_ok self st l -> genome_ok self st' l.
Proof.
  intros Hd Hl (H1 & H2 & H3 & H4 & H5 & H6). unfold genome_ok.
  rewrite (lookup_total_weaken _ _ l Hl H1).
  rewrite (lookup_total_weaken _ _ _ Hd H2).
  split; [eapply (subseteq_dom (layouts st)); eassumption|].
  split; [eapply (subseteq_dom (dicts st)); eassumption|]. auto.
Qed.

Lemma swap_mutation_returns d idx1 idx2 :
  valid_layout d -> (idx1 < 24)%nat -> (idx2 < 24)%nat ->
  exists d', swap_mutation d idx1 idx2 = Ok d'.
Proof.
  intros Hv Hi1 Hi2.
  destruct (lookup_lt_is_Some_2 moveable_letters idx1) as [char1 H1]; [cbn; lia|].
  destruct (lookup_lt_is_Some_2 moveable_letters idx2) as [char2 H2]; [cbn; lia|].
  unfold swap_mutation. rewrite (moveable_chars_of_valid d Hv), H1, H2.
  rewrite bool_decide_eq_true_2 by (cbn; lia).
  destruct (d !! char2), (d !! char1); eauto.
Qed.

Lemma mutate_layout_returns self st layout idx1 idx2 :
  english_total self <> 0 -> finnish_total self <> 0 ->
  genome_ok self st layout ->
  (idx1 < 24)%nat -> (idx2 < 24)%nat ->
  exists st' child,
    outcome (mutate_layout self st layout idx1 idx2) = Ok (st', child) /\
    dicts st ⊆ dicts st' /\ layouts st ⊆ layouts st' /\
    genome_ok self st' child.
Proof.
  intros He Hf (H1 & H2 & H3 & H4 & H5 & H6) Hi1 Hi2.
  destruct (swap_mutation_returns _ idx1 idx2 (produced_valid _ H3) Hi1 Hi2)
    as [d' Hswap].
  assert (Hout : exists r, outcome (mutate_layout self st layout idx1 idx2) = Ok r).
  { unfold mutate_layout, alloc_dict. cbv zeta. cbn [dicts layouts].
    rewrite outcome_bind. cbn [lift outcome snd].
    rewrite lookup_total_insert_eq, Hswap.
    rewrite evaluate_layout_outcome.
    apply Z.eqb_neq in He, Hf. rewrite He, Hf. cbn [orb]. eauto. }
  destruct Hout as [[st' child] Hout]. exists st', child.
  split; [assumption|].
  apply mutate_layout_outcome in Hout as (d2 & Hswap2 & Hchild & Hd & Hl).
  rewrite Hswap in Hswap2. injection Hswap2 as <-.
  assert (Hnp : dicts st !! fresh (dom (dicts st)) = None)
    by (apply not_elem_of_dom, is_fresh).
  assert (Hnc : layouts st !! child = None)
    by (subst child; apply not_elem_of_dom, is_fresh).
  rewrite insert_insert_eq in Hd.
  split; [rewrite Hd; apply insert_subseteq; assumption|].
  split; [rewrite Hl; apply insert_subseteq; assumption|].
  unfold genome_ok. rewrite Hl, Hd, lookup_total_insert_eq. cbn [evaluated positions
    english_metrics finnish_metrics weighted_score].
  rewrite lookup_total_insert_eq.
  split; [apply elem_of_dom; rewrite lookup_insert_eq; eauto|].
  split; [apply elem_of_dom; rewrite lookup_insert_eq; eauto|].
  split; [eapply produced_mutation; eassumption|]. auto.
Qed.

(** A draw as [random.sample(range(24), 2)] can return it. *)
Definition draw_ok (d : option (nat * nat)) : Prop :=
  match d with
  | Some (idx1, idx2) => (idx1 < 24)%nat /\ (idx2 < 24)%nat /\ idx1 <> idx2
  | None => True
  end.

Lemma make_offspring_returns self :
  english_total self <> 0 -> finnish_total self <> 0 ->
  forall population draws st,
  (forall l, l ∈ population -> genome_ok self st l) ->
  length draws = length population ->
  Forall draw_ok draws ->
  exists st' offspring,
    outcome (make_offspring self st population draws) = Ok (st', offspring) /\
    dicts st ⊆ dicts st' /\ layouts st ⊆ layouts st' /\
    (forall l, l ∈ offspring -> genome_ok self st' l) /\
    (offspring = [] <-> Forall (fun d => d = None) draws).
Proof.
  intros He Hf.
  induction population as [|layout population IH]; intros draws st Hok Hlen Hdraws.
  { destruct draws; [|discriminate]. exists st, []. cbn.
    split; [reflexivity|]. split; [reflexivity|]. split; [reflexivity|].
    split; [intros l Hl; inversion Hl|]. split; [constructor|reflexivity]. }
  destruct draws as [|d draws]; [discriminate|].
  cbn in Hlen. injection Hlen as Hlen.
  apply Forall_cons in Hdraws as [Hd Hdraws].
  destruct d as [[idx1 idx2]|]; cbn [make_offspring].
  - destruct Hd as (Hi1 & Hi2 & _).
    destruct (mutate_layout_returns self st layout idx1 idx2 He Hf
                (Hok layout ltac:(left)) Hi1 Hi2)
      as (st1 & mutated & Hmut & Hd1 & Hl1 & Hchild).
    destruct (IH draws st1) as (st2 & offspring & Hrest & Hd2 & Hl2 & Hoff & _).
    { intros l Hl. eapply genome_ok_extends; [eassumption..|].
      apply Hok. right. assumption. }
    { assumption. }
    { assumption. }
    exists st2, (mutated :: offspring).
    rewrite outcome_bind, Hmut, outcome_bind, Hrest. cbn.
    split; [reflexivity|].
    split; [etransitivity; eassumption|].
    split; [etransitivity; eassumption|].
    split.
    + intros l Hl. apply elem_of_cons in Hl as [->|Hl]; [|auto].
      eapply genome_ok_extends; eassumption.
    + split; [discriminate|]. intros Hall. apply Forall_cons in Hall as [Hnone _].
      discriminate.
  - destruct (IH draws st) as (st2 & offspring & Hrest & Hd2 & Hl2 & Hoff & Hnil).
    { intros l Hl. apply Hok. right. assumption. }
    { assumption. }
    { assumption. }
    exists st2, offspring. repeat (split; [assumption|]).
    rewrite Hnil. split; [intros; constructor; auto|].
    intros Hall. apply Forall_cons in Hall as [_ Hall]. assumption.
Qed.

Definition population_ok (self : optimizer) (st : store) (population : list loc)
    (population_size : nat) : Prop :=
  NoDup population /\ length population = population_size /\
  forall l, l ∈ population -> genome_ok self st l.

(** What one generation does to the store when it returns. *)
Lemma generation_store self st population draws population_size
    st1 offspring st' new_population :
  NoDup (population ++ offspring) ->
  outcome (make_offspring self st population draws) = Ok (st1, offspring) ->
  outcome (generation self st population draws population_size)
    = Ok (st', new_population) ->
  dicts st' = dicts st1 /\ dom (layouts st1) ⊆ dom (layouts st') /\
  forall l, positions (layouts st' !!! l) = positions (layouts st1 !!! l) /\
            english_metrics (layouts st' !!! l) = english_metrics (layouts st1 !!! l) /\
            finnish_metrics (layouts st' !!! l) = finnish_metrics (layouts st1 !!! l) /\
            weighted_score (layouts st' !!! l) = weighted_score (layouts st1 !!! l).
Proof.
  intros Hpool Hoff Hgen.
  unfold generation in Hgen. rewrite outcome_bind, Hoff in Hgen.
  cbv beta iota zeta in Hgen. rewrite outcome_bind in Hgen.
  cbn [lift outcome snd] in Hgen.
  destruct (fast_non_dominated_sort (layouts st1) (population ++ offspring))
    as [[h2 fronts]| |] eqn:Hsort; [|discriminate..].
  cbv beta iota zeta in Hgen.
  destruct (sort_full _ _ _ _ Hpool Hsort) as (_ & _ & _ & Hdet).
  pose proof (det_writes _ _ _ _ _ Hdet) as [Hsame _].
  pose proof (sort_dom _ _ _ _ Hsort) as Hdom2.
  pose proof (crowd_all_dom h2 fronts) as Hdom3.
  pose proof (crowd_all_writes fronts h2 []) as Hw.
  unfold crowd_all in Hgen, Hdom3.
  destruct (fold_left _ fronts (h2, [])) as [h3 fs]. cbn [fst snd] in Hw, Hdom3.
  rewrite outcome_bind in Hgen. cbn [lift outcome snd] in Hgen.
  destruct (select_next_generation h3 fs population_size)
    as [np| |]; [|discriminate..].
  cbn in Hgen. injection Hgen as <- <-. cbn [dicts layouts].
  split; [reflexivity|]. split; [etransitivity; eassumption|].
  intros l. destruct (Hsame l) as (a1 & a2 & a3 & a4 & _).
  destruct (Hw l) as (b1 & b2 & b3 & b4 & _).
  repeat split; congruence.
Qed.

Lemma generation_returns self st population draws population_size :
  english_total self <> 0 -> finnish_total self <> 0 ->
  population_ok self st population population_size ->
  length draws = population_size ->
  Forall draw_ok draws ->
  (Exists (fun d => is_Some d) draws ->
   exists st' new_population,
     outcome (generation self st population draws population_size)
       = Ok (st', new_population) /\
     population_ok self st' new_population population_size) /\
  (Forall (fun d => d = None) draws ->
   outcome (generation self st population draws population_size) = Raise IndexError).
Proof.
  intros He Hf (Hnd & Hlen & Hok) Hdl Hdraws.
  destruct (make_offspring_returns self He Hf population draws st Hok
              ltac:(congruence) Hdraws)
    as (st1 & offspring & Hoff & Hd1 & Hl1 & Hchildren & Hnil).
  destruct (generation_outcome self st population draws population_size st1 offspring
              Hnd (fun l Hl => proj1 (Hok l Hl)) Hoff)
    as (Hpool & Hfit & Hover).
  split.
  - intros Hsome.
    assert (Hne : offspring <> []).
    { intros E. apply Hnil in E. apply Exists_exists in Hsome as (d & Hd & [x Hx]).
      rewrite Forall_forall in E. specialize (E d Hd). congruence. }
    destruct Hover as (st' & np & Hgen & Hnplen & Hnpnd & Hnpsub).
    { destruct offspring; [congruence|cbn; lia]. }
    exists st', np. split; [assumption|].
    split; [assumption|]. split; [assumption|].
    intros l Hl.
    destruct (generation_store self st population draws population_size
                st1 offspring st' np Hpool Hoff Hgen) as (Hdicts & Hdom & Hsame).
    destruct (Hsame l) as (Hp & Hem & Hfm & Hw).
    assert (Hok1 : genome_ok self st1 l).
    { apply Hnpsub, elem_of_app in Hl as [Hl|Hl]; [|auto].
      eapply genome_ok_extends; [eassumption..|auto]. }
    pose proof (genome_ok_writes self st1 (layouts st') l Hdom Hp Hem Hfm Hw Hok1) as H.
    rewrite <- Hdicts in H. destruct st'. exact H.
  - intros Hnone. apply Hfit. apply Hnil in Hnone. subst offspring. cbn. lia.
Qed.

Lemma init_population_returns self :
  english_total self <> 0 -> finnish_total self <> 0 ->
  forall shuffles st,
  Forall (fun s => s.1 ≡ₚ moveable_letters /\ s.2 ≡ₚ moveable_positions) shuffles ->
  exists st' population,
    outcome (init_population self st shuffles) = Ok (st', population) /\
    dicts st ⊆ dicts st' /\ layouts st ⊆ layouts st' /\
    population_ok self st' population (length shuffles) /\
    forall l, l ∈ population -> l ∉ dom (layouts st).
Proof.
  intros He Hf. induction shuffles as [|[sl sp] shuffles IH]; intros st Hall.
  { exists st, []. cbn. split; [reflexivity|]. split; [reflexivity|].
    split; [reflexivity|]. split.
    - split; [constructor|]. split; [reflexivity|]. intros l Hl. inversion Hl.
    - intros l Hl. inversion Hl. }
  apply Forall_cons in Hall as [[Hsl Hsp] Hall]. cbn [fst snd] in Hsl, Hsp.
  cbn [init_population]. unfold create_random_layout, alloc_dict.
  set (p := fresh (dom (dicts st))).
  set (d := assign_shuffled sl sp).
  set (st1 := mkStore (<[p := d]> (dicts st)) (layouts st)).
  rewrite outcome_bind, evaluate_layout_outcome.
  pose proof He as He'. pose proof Hf as Hf'.
  apply Z.eqb_neq in He', Hf'. rewrite He', Hf'. cbn [orb].
  unfold alloc_layout. cbn [dicts layouts st1].
  rewrite lookup_total_insert_eq.
  set (l0 := fresh (dom (layouts st))).
  set (st2 := mkStore (<[p := d]> (dicts st)) (<[l0 := evaluated self d p]> (layouts st))).
  destruct (IH st2 Hall) as (st3 & population & Hinit & Hd3 & Hl3 & (Hnd & Hlen & Hok) & Hnew).
  rewrite outcome_bind, Hinit. cbn.
  assert (Hp : dicts st !! p = None) by (apply not_elem_of_dom, is_fresh).
  assert (Hl0 : layouts st !! l0 = None) by (apply not_elem_of_dom, is_fresh).
  assert (Hd2 : dicts st ⊆ dicts st2) by (apply insert_subseteq; assumption).
  assert (Hl2 : layouts st ⊆ layouts st2) by (apply insert_subseteq; assumption).
  assert (Hok0 : genome_ok self st2 l0).
  { unfold genome_ok, st2. cbn [dicts layouts]. rewrite lookup_total_insert_eq.
    cbn [evaluated positions english_metrics finnish_metrics weighted_score].
    rewrite lookup_total_insert_eq.
    split; [apply elem_of_dom; rewrite lookup_insert_eq; eauto|].
    split; [apply elem_of_dom; rewrite lookup_insert_eq; eauto|].
    split; [apply produced_random; assumption|]. auto. }
  assert (Hin2 : l0 ∈ dom (layouts st2)) by apply Hok0.
  exists st3, (l0 :: population).
  split; [reflexivity|].
  split; [etransitivity; eassumption|].
  split; [etransitivity; eassumption|].
  split.
  - split; [constructor; [intros Hin; exact (Hnew l0 Hin Hin2)|assumption]|].
    split; [cbn; congruence|].
    intros l Hl. apply elem_of_cons in Hl as [->|Hl]; [|auto].
    eapply genome_ok_extends; eassumption.
  - intros l Hl. apply elem_of_cons in Hl as [->|Hl]; [apply is_fresh|].
    intros Hdom. apply (Hnew l Hl).
    eapply (subseteq_dom (layouts st)); eassumption.
Qed.

Lemma draws_cases (draws : list (option (nat * nat))) :
  Forall (fun d => d = None) draws \/ Exists (fun d => is_Some d) draws.
Proof.
  induction draws as [|[x|] draws IH].
  - left. constructor.
  - right. left. eauto.
  - destruct IH as [IH|IH]; [left; constructor; auto|right; right; assumption].
Qed.

Lemma run_generations_outcome self population_size :
  english_total self <> 0 -> finnish_total self <> 0 ->
  forall all_draws st population,
  population_ok self st population population_size ->
  Forall (fun draws => length draws = population_size /\ Forall draw_ok draws)
         all_draws ->
  (Forall (Exists (fun d => is_Some d)) all_draws ->
   exists st' final_population,
     (run_generations self st population all_draws population_size).2
     = Returns (st', final_population) /\
     population_ok self st' final_population population_size) /\
  (Exists (Forall (fun d => d = None)) all_draws ->
   (run_generations self st population all_draws population_size).2
   = Raises (Callee IndexError)).
Proof.
  intros He Hf.
  induction all_draws as [|draws all_draws IH]; intros st population Hpop Hall.
  { split; [intros _; exists st, population; auto|]. intros Hex. inversion Hex. }
  apply Forall_cons in Hall as [[Hlen Hdraws] Hall].
  destruct (generation_returns self st population draws population_size
              He Hf Hpop Hlen Hdraws) as [Hsome Hnone].
  cbn [run_generations]. unfold outcome in Hsome, Hnone.
  assert (Hgo : Exists (fun d => is_Some d) draws ->
            exists st1 new_population,
              (run_generations self st population (draws :: all_draws)
                 population_size).2
              = (run_generations self st1 new_population all_draws population_size).2 /\
              population_ok self st1 new_population population_size).
  { intros Hex. destruct (Hsome Hex) as (st1 & np & Hgen & Hnp).
    exists st1, np. split; [|assumption]. cbn [run_generations].
    destruct (generation self st population draws population_size) as [t r].
    cbn [snd] in Hgen. subst r.
    destruct np as [|x np].
    - exfalso. destruct Hnp as (_ & Hl & _). cbn in Hl.
      apply Exists_exists in Hex as (d & Hd & _).
      destruct draws; [inversion Hd|]. cbn in Hlen. lia.
    - destruct (run_generations self st1 (x :: np) all_draws population_size).
      reflexivity. }
  split.
  - intros Hgood. apply Forall_cons in Hgood as [Hex Hgood].
    destruct (Hgo Hex) as (st1 & np & Heq & Hnp).
    cbn [run_generations] in Heq. rewrite Heq.
    apply (proj1 (IH st1 np Hnp Hall)). assumption.
  - intros Hbad.
    destruct (draws_cases draws) as [Hn|Hex].
    + specialize (Hnone Hn).
      destruct (generation self st population draws population_size) as [t r].
      cbn [snd] in Hnone. subst r. reflexivity.
    + destruct (Hgo Hex) as (st1 & np & Heq & Hnp).
      cbn [run_generations] in Heq. rewrite Heq.
      apply (proj2 (IH st1 np Hnp Hall)).
      apply Exists_cons in Hbad as [Hbad|Hbad]; [|assumption].
      exfalso. apply Exists_exists in Hex as (d & Hd & [x Hx]).
      rewrite Forall_forall in Hbad. specialize (Hbad d Hd). congruence.
Qed.

(** What the random inputs of [optimize] look like: every shuffle is a
    rearrangement of the moveable letters and positions, and every
    generation has one draw per member of the population. *)
Definition random_inputs_ok (shuffles : list (list char * list Position))
    (all_draws : list (list (option (nat * nat)))) : Prop :=
  Forall (fun s => s.1 ≡ₚ moveable_letters /\ s.2 ≡ₚ moveable_positions) shuffles /\
  Forall (fun draws => length draws = length shuffles /\ Forall draw_ok draws)
         all_draws.

Lemma optimize_after_init self st shuffles all_draws :
  english_total self <> 0 -> finnish_total self <> 0 ->
  random_inputs_ok shuffles all_draws ->
  exists st0 population,
    population_ok self st0 population (length shuffles) /\
    (optimize self st shuffles all_draws).2
    = match (run_generations self st0 population all_draws (length shuffles)).2 with
      | Returns (st1, final_population) =>
          match pareto_front (layouts st1) final_population with
          | Ok (h, returned) => Returns (mkStore (dicts st1) h, returned)
          | Raise e => Raises (Callee e)
          | OutOfFuel => Unfinished
          end
      | Raises e => Raises e
      | Unfinished => Unfinished
      end.
Proof.
  intros He Hf [Hsh _].
  destruct (init_population_returns self He Hf shuffles st Hsh)
    as (st0 & population & Hinit & _ & _ & Hpop & _).
  exists st0, population. split; [assumption|].
  unfold optimize. cbv zeta. unfold outcome in Hinit.
  destruct (init_population self st shuffles) as [t r]. cbn [snd] in Hinit. subst r.
  destruct (run_generations self st0 population all_draws (length shuffles))
    as [t' [[st1 fp]|e|]]; cbn [snd]; [|reflexivity..].
  destruct (pareto_front (layouts st1) fp) as [[h returned]| |]; reflexivity.
Qed.


(** X25. With the same inputs, [optimize] raises IndexError as soon as
    some generation draws no mutation at all: the pool then has only
    [population_size] genomes and the truncation runs past the last front. *)
Theorem optimize_raises_without_mutation self st shuffles all_draws :
  english_total self <> 0 -> finnish_total self <> 0 ->
  random_inputs_ok shuffles all_draws ->
  Exists (Forall (fun d => d = None)) all_draws ->
  (optimize self st shuffles all_draws).2 = Raises (Callee IndexError).
Proof.
  intros He Hf Hin Hbad.
  destruct (optimize_after_init self st shuffles all_draws He Hf Hin)
    as (st0 & population & Hpop & Heq).
  destruct (run_generations_outcome self (length shuffles) He Hf all_draws st0
              population Hpop (proj2 Hin)) as [_ Hrun].
  rewrite (Hrun Hbad) in Heq. exact Heq.
Qed.

Lemma example_inputs_ok draws :
  draw_ok draws ->
  random_inputs_ok [(moveable_letters, moveable_positions)] [[draws]].
Proof.
  intros Hd. split.
  - constructor; [split; reflexivity|constructor].
  - constructor; [|constructor]. split; [reflexivity|].
    constructor; [assumption|constructor].
Qed.


Lemma optimize_raises_without_mutation_witness :
  (optimize scissors_optimizer (mkStore ∅ ∅)
     [(moveable_letters, moveable_positions)] [[None]]).2
  = Raises (Callee IndexError).
Proof.
  apply (optimize_raises_without_mutation scissors_optimizer (mkStore ∅ ∅)
           [(moveable_letters, moveable_positions)] [[None]]).
  - vm_compute. discriminate.
  - vm_compute. discriminate.
  - apply example_inputs_ok. exact I.
  - left. constructor; [reflexivity|constructor].
Defined.


(** ** More on the metric evaluator *)

Lemma hand_rows_sym near far1 far2 p1 p2 count c :
  hand_rows near far1 far2 p2 p1 count c = hand_rows near far1 far2 p1 p2 count c.
Proof.
  unfold hand_rows.
  replace (Z.abs (row p2 - row p1)) with (Z.abs (row p1 - row p2)) by lia.
  replace (Z.abs (col p2 - col p1)) with (Z.abs (col p1 - col p2)) by lia.
  rewrite (andb_comm (row p2 <=? 2)).
  destruct ((row p1 <=? 2) && (row p2 <=? 2)); [|reflexivity].
  generalize (col p1 =? near), (col p2 =? near), (col p1 =? far1), (col p2 =? far1),
    (col p1 =? far2), (col p2 =? far2).
  intros [] [] [] [] [] []; reflexivity.
Qed.

Lemma classify_sym char1 char2 p1 p2 count c :
  classify char2 char1 p2 p1 count c = classify char1 char2 p1 p2 count c.
Proof.
  unfold classify.
  rewrite (Z.eqb_sym (finger p2)), (N.eqb_sym char2).
  rewrite (hand_rows_sym 5 3 2 p1 p2), (hand_rows_sym 6 8 9 p1 p2).
  rewrite (andb_comm (col p2 <=? 5)), (andb_comm (col p2 >=? 6)).
  reflexivity.
Qed.

(** The table with the two characters of every key exchanged. *)
Definition reversed_keys (bigrams : bigram_table) : bigram_table :=
  map (fun e => (reverse e.1, e.2)) bigrams.

Lemma metric_step_reverse layout c bigram count :
  metric_step layout c (reverse bigram, count) = metric_step layout c (bigram, count).
Proof.
  destruct bigram as [|a [|b [|x rest]]]; [reflexivity|reflexivity| |].
  - change (reverse [a; b]) with [b; a]. cbn [metric_step].
    destruct (layout !! a), (layout !! b); [apply classify_sym|reflexivity..].
  - cbn [metric_step].
    assert (Hlen : (3 <= length (reverse (a :: b :: x :: rest)))%nat)
      by (rewrite length_reverse; cbn; lia).
    destruct (reverse (a :: b :: x :: rest)) as [|a' [|b' [|x' rest']]];
      [cbn in Hlen; lia..|reflexivity].
Qed.

Lemma accumulate_reversed layout bigrams : forall c,
  fold_left (metric_step layout) (reversed_keys bigrams) c
  = fold_left (metric_step layout) bigrams c.
Proof.
  induction bigrams as [|[bigram count] bigrams IH]; intros c; [reflexivity|].
  cbn [reversed_keys map fold_left fst snd].
  rewrite metric_step_reverse. apply IH.
Qed.

(** X26. The evaluator scores a bigram and its reversal alike: exchanging
    the two characters of every key of the bigram table changes no metric
    and no error. *)
Theorem metrics_ignore_bigram_direction layout bigrams total_length :
  outcome (calculate_metrics layout (reversed_keys bigrams) total_length)
  = outcome (calculate_metrics layout bigrams total_length).
Proof.
  destruct (decide (total_length = 0)) as [->|Hnz].
  - rewrite !calculate_metrics_zero. reflexivity.
  - rewrite !calculate_metrics_nonzero by assumption.
    unfold accumulate. rewrite accumulate_reversed. reflexivity.
Qed.

(** The table entries that can add to a counter on a produced layout: keys
    of two different characters, neither of them the space. *)
Definition counted (entry : pystr * Z) : bool :=
  match entry.1 with
  | [char1; char2] =>
      negb (char1 =? char2)%N && negb (char1 =? SPACE)%N && negb (char2 =? SPACE)%N
  | _ => false
  end.

Lemma classify_doubled char1 p count c : classify char1 char1 p p count c = c.
Proof.
  unfold classify. rewrite Z.eqb_refl, N.eqb_refl. reflexivity.
Qed.

Lemma valid_space d : valid_layout d -> d !! SPACE = Some (mkPos 3 6 6).
Proof. intros Hv. apply (valid_anchors d Hv). reflexivity. Qed.

(** On a valid layout the thumb is the only finger 6. *)
Lemma valid_other_finger d char1 p :
  valid_layout d -> d !! char1 = Some p -> char1 <> SPACE -> finger p <> 6.
Proof.
  intros Hv Hp Hne.
  destruct (valid_dom d Hv char1) as [[q Hq]|Hm]; [eauto| |].
  - pose proof (valid_anchors d Hv char1 q Hq) as Hd.
    rewrite Hd in Hp. injection Hp as <-.
    apply base_layout_anchors in Hq.
    assert (Hall : Forall (fun cp => cp.1 = SPACE \/ finger cp.2 <> 6) anchors)
      by by_evaluation.
    rewrite Forall_forall in Hall. destruct (Hall _ Hq) as [E|E]; [contradiction|exact E].
  - destruct (valid_into d Hv char1 Hm) as (q & Hq & Hin).
    rewrite Hq in Hp. injection Hp as <-.
    assert (Hall : Forall (fun q => finger q <> 6) moveable_positions) by by_evaluation.
    rewrite Forall_forall in Hall. auto.
Qed.

Lemma metric_step_uncounted d c entry :
  valid_layout d -> counted entry = false -> metric_step d c entry = c.
Proof.
  intros Hv. destruct entry as [bigram count]. unfold counted. cbn [fst metric_step].
  destruct bigram as [|char1 [|char2 [|x rest]]]; try reflexivity.
  intros Hc.
  destruct (d !! char1) as [p1|] eqn:H1; [|reflexivity].
  destruct (d !! char2) as [p2|] eqn:H2; [|reflexivity].
  destruct (N.eqb_spec char1 char2) as [->|Hne].
  { rewrite H1 in H2. injection H2 as <-. apply classify_doubled. }
  cbn [negb andb] in Hc.
  pose proof (valid_space d Hv) as Hs.
  destruct (N.eqb_spec char1 SPACE) as [->|Hn1].
  { rewrite Hs in H1. injection H1 as <-.
    apply classify_thumb; [left; reflexivity|].
    cbn [finger]. intros E. symmetry in E. revert E.
    apply (valid_other_finger d char2 p2 Hv H2). congruence. }
  destruct (N.eqb_spec char2 SPACE) as [->|Hn2]; [|discriminate].
  rewrite Hs in H2. injection H2 as <-.
  apply classify_thumb; [right; reflexivity|].
  cbn [finger]. apply (valid_other_finger d char1 p1 Hv H1 Hn1).
Qed.

Lemma accumulate_counted d bigrams : valid_layout d -> forall c,
  fold_left (metric_step d) (filter (fun e => counted e = true) bigrams) c
  = fold_left (metric_step d) bigrams c.
Proof.
  intros Hv. induction bigrams as [|e bigrams IH]; intros c; [reflexivity|].
  rewrite filter_cons. cbn [fold_left].
  destruct (decide (counted e = true)) as [Hc|Hc]; cbn [fold_left].
  - apply IH.
  - rewrite (metric_step_uncounted d c e Hv); [apply IH|].
    destruct (counted e); congruence.
Qed.

(** X27. On a layout that initialization and mutations produce, only
    bigrams of two different characters other than the space can count:
    word boundaries (bigrams with a space), doubled letters and keys that
    are not two characters long can be dropped from the table without
    changing any metric or error. *)
Theorem only_letter_pairs_count d bigrams total_length :
  produced d ->
  outcome (calculate_metrics d (filter (fun e => counted e = true) bigrams)
             total_length)
  = outcome (calculate_metrics d bigrams total_length).
Proof.
  intros Hp. pose proof (produced_valid d Hp) as Hv.
  destruct (decide (total_length = 0)) as [->|Hnz].
  - rewrite !calculate_metrics_zero. cbn [outcome snd]. reflexivity.
  - rewrite !calculate_metrics_nonzero by assumption.
    unfold accumulate. rewrite accumulate_counted by assumption. reflexivity.
Qed.

Lemma only_letter_pairs_count_witness :
  outcome (calculate_metrics mutated_example
             (filter (fun e => counted e = true)
                     (calculate_bigrams_from_words [(str "all", 2)]).1) 8)
  = outcome (calculate_metrics mutated_example
               (calculate_bigrams_from_words [(str "all", 2)]).1 8).
Proof.
  apply (only_letter_pairs_count mutated_example).
  apply (produced_mutation (assign_shuffled moveable_letters moveable_positions) 0 23).
  - apply produced_random; reflexivity.
  - vm_compute. reflexivity.
Defined.

(** *** Scaling the corpus *)

(** Every word count multiplied by [k]. *)
Definition scaled (k : Z) (words : list (pystr * Z)) : list (pystr * Z) :=
  map (fun wc => (wc.1, k * wc.2)) words.

Lemma dict_add_scaled k key count t :
  dict_add key (k * count) (scaled k t) = scaled k (dict_add key count t).
Proof.
  induction t as [|[key' v] t IH]; cbn [scaled map dict_add fst snd].
  - reflexivity.
  - destruct (decide (key' = key)); cbn [map fst snd].
    + replace (k * v + k * count) with (k * (v + count)) by lia. reflexivity.
    + f_equal. apply IH.
Qed.

Lemma add_all_scaled k count ws : forall t,
  fold_left (fun b w => dict_add w (k * count) b) ws (scaled k t)
  = scaled k (fold_left (fun b w => dict_add w count b) ws t).
Proof.
  induction ws as [|w ws IH]; intros t; [reflexivity|].
  cbn [fold_left]. rewrite dict_add_scaled. apply IH.
Qed.

Lemma calculate_bigrams_scaled k words : forall t n,
  fold_left add_word (scaled k words) (scaled k t, k * n)
  = (scaled k (fold_left add_word words (t, n)).1,
     k * (fold_left add_word words (t, n)).2).
Proof.
  induction words as [|[word count] words IH]; intros t n; [reflexivity|].
  cbn [scaled map fold_left fst snd]. rewrite !add_word_windows.
  rewrite add_all_scaled.
  replace (k * n + (Z.of_nat (length word) + 1) * (k * count))
    with (k * (n + (Z.of_nat (length word) + 1) * count)) by ring.
  apply IH.
Qed.

(** The counters of the scaled corpus are [k] times the counters. *)
Definition counters_scaled (k : Z) (c c' : counters) : Prop :=
  sfb_acc c' = k * sfb_acc c /\
  scissors_acc c' = k * scissors_acc c /\
  (lat_str_acc c' == inject_Z k * lat_str_acc c)%Q /\
  wide_scissors_acc c' = k * wide_scissors_acc c.

Lemma add_lat_scaled k c c' n :
  counters_scaled k c c' ->
  counters_scaled k (add_lat c (inject_Z n)) (add_lat c' (inject_Z (k * n))) /\
  counters_scaled k (add_lat c (inject_Z n / 2)%Q) (add_lat c' (inject_Z (k * n) / 2)%Q).
Proof.
  intros (H1 & H2 & H3 & H4). unfold counters_scaled, add_lat. cbn.
  rewrite inject_Z_mult, H3. repeat split; try assumption; field.
Qed.

Lemma hand_rows_scaled k near far1 far2 p1 p2 n c c' :
  counters_scaled k c c' ->
  counters_scaled k (hand_rows near far1 far2 p1 p2 n c)
                    (hand_rows near far1 far2 p1 p2 (k * n) c').
Proof.
  intros Hc. unfold hand_rows.
  destruct ((row p1 <=? 2) && (row p2 <=? 2)); [|assumption].
  set (c1 := if Z.abs (row p1 - row p2) =? 2 then _ else c).
  set (c1' := if Z.abs (row p1 - row p2) =? 2 then _ else c').
  assert (H1 : counters_scaled k c1 c1').
  { unfold c1, c1'. destruct Hc as (A1 & A2 & A3 & A4).
    destruct (Z.abs (row p1 - row p2) =? 2); [|repeat split; assumption].
    destruct (Z.abs (col p1 - col p2) =? 1);
      unfold counters_scaled, add_scissors, add_wide; cbn;
      repeat split; try assumption; lia. }
  clearbody c1 c1'.
  set (c2 := if (_ || _)%bool then _ else c1).
  set (c2' := if (_ || _)%bool then _ else c1').
  assert (H2 : counters_scaled k c2 c2').
  { unfold c2, c2'. destruct (_ || _)%bool; [|assumption].
    apply add_lat_scaled. assumption. }
  clearbody c2 c2'.
  destruct (_ || _)%bool; [|assumption].
  apply add_lat_scaled. assumption.
Qed.

Lemma classify_scaled k char1 char2 p1 p2 n c c' :
  counters_scaled k c c' ->
  counters_scaled k (classify char1 char2 p1 p2 n c)
                    (classify char1 char2 p1 p2 (k * n) c').
Proof.
  intros Hc. unfold classify.
  destruct ((finger p1 =? finger p2) && negb (char1 =? char2)%N).
  { destruct Hc as (A1 & A2 & A3 & A4). unfold counters_scaled, add_sfb. cbn.
    repeat split; try assumption; lia. }
  destruct (negb (finger p1 =? finger p2)); [|assumption].
  destruct ((col p1 <=? 5) && (col p2 <=? 5)); [apply hand_rows_scaled; assumption|].
  destruct ((col p1 >=? 6) && (col p2 >=? 6)); [apply hand_rows_scaled|]; assumption.
Qed.

Lemma accumulate_scaled k layout bigrams : forall c c',
  counters_scaled k c c' ->
  counters_scaled k (fold_left (metric_step layout) bigrams c)
                    (fold_left (metric_step layout) (scaled k bigrams) c').
Proof.
  induction bigrams as [|[bigram n] bigrams IH]; intros c c' Hc; [assumption|].
  cbn [scaled map fold_left fst snd]. apply IH. cbn [metric_step].
  destruct bigram as [|char1 [|char2 [|x rest]]]; try assumption.
  destruct (layout !! char1), (layout !! char2); try assumption.
  apply classify_scaled. assumption.
Qed.

Lemma inject_Z_nonzero z : z <> 0 -> ~ (inject_Z z == 0)%Q.
Proof.
  intros Hz E. apply Hz. change 0%Q with (inject_Z 0) in E.
  apply inject_Z_injective. exact E.
Qed.

(** X28. The metrics depend only on relative frequencies: multiplying every
    word count of a corpus by the same non-zero number leaves the four
    metrics of every layout unchanged. *)
Theorem metrics_scale_invariant layout words k :
  k <> 0 -> (calculate_bigrams_from_words words).2 <> 0 ->
  exists m m',
    outcome (calculate_metrics layout (calculate_bigrams_from_words words).1
               (calculate_bigrams_from_words words).2) = Ok m /\
    outcome (calculate_metrics layout
               (calculate_bigrams_from_words (scaled k words)).1
               (calculate_bigrams_from_words (scaled k words)).2) = Ok m' /\
    (sfb m' == sfb m)%Q /\ (scissors m' == scissors m)%Q /\
    (lat_stretch m' == lat_stretch m)%Q /\ (skip_bigrams m' == skip_bigrams m)%Q.
Proof.
  intros Hk Hnz. unfold calculate_bigrams_from_words in *.
  pose proof (calculate_bigrams_scaled k words [] 0) as Hs.
  cbn [scaled map] in Hs. rewrite Z.mul_0_r in Hs. rewrite Hs. cbn [fst snd].
  destruct (fold_left add_word words ([], 0)) as [t n]. cbn [fst snd] in *.
  rewrite !calculate_metrics_nonzero by lia.
  eexists _, _. split; [reflexivity|]. split; [reflexivity|].
  destruct (accumulate_scaled k layout t (mkCounters 0 0 0%Q 0) (mkCounters 0 0 0%Q 0))
    as (A1 & A2 & A3 & A4).
  { unfold counters_scaled. cbn. repeat split; try lia. ring. }
  fold (accumulate layout t) in A1, A2, A3, A4.
  fold (accumulate layout (scaled k t)) in A1, A2, A3, A4.
  pose proof (inject_Z_nonzero k Hk) as Hk'.
  pose proof (inject_Z_nonzero n Hnz) as Hn'.
  cbv zeta. cbn [sfb scissors lat_stretch skip_bigrams].
  rewrite A1, A2, A3, !inject_Z_mult.
  repeat split; field; split; assumption.
Qed.

Lemma metrics_scale_invariant_witness :
  exists m m',
    outcome (calculate_metrics example_layout
               (calculate_bigrams_from_words [(str "ab", 1)]).1
               (calculate_bigrams_from_words [(str "ab", 1)]).2) = Ok m /\
    outcome (calculate_metrics example_layout
               (calculate_bigrams_from_words (scaled 7 [(str "ab", 1)])).1
               (calculate_bigrams_from_words (scaled 7 [(str "ab", 1)])).2) = Ok m' /\
    (sfb m' == sfb m)%Q /\ (scissors m' == scissors m)%Q /\
    (lat_stretch m' == lat_stretch m)%Q /\ (skip_bigrams m' == skip_bigrams m)%Q.
Proof.
  apply (metrics_scale_invariant example_layout [(str "ab", 1)] 7).
  - lia.
  - vm_compute. discriminate.
Defined.

(** ** The exported grid *)

(** The cell of a grid at a row and a column. *)
Definition cell (g : list (list pystr)) (i j : nat) : pystr := (g !!! i) !!! j.

Definition grid_shape (g : list (list pystr)) : Prop :=
  length g = 3%nat /\ Forall (fun r => length r = 12%nat) g.

Lemma py_index_in_range len i :
  0 <= i < Z.of_nat len -> py_index len i = Some (Z.to_nat i).
Proof.
  intros [H0 H1]. unfold py_index.
  apply Z.leb_le in H0. apply Z.ltb_lt in H1. rewrite H0, H1. reflexivity.
Qed.

Lemma grid_shape_row g i :
  grid_shape g -> (i < 3)%nat -> length (g !!! i) = 12%nat.
Proof.
  intros [Hl Hr] Hi. rewrite Forall_forall in Hr. apply Hr.
  apply list_elem_of_lookup_total_2. lia.
Qed.

Lemma set_cell_in_range g r c s :
  grid_shape g -> 0 <= r < 3 -> 0 <= c < 12 ->
  set_cell g r c s
  = Ok (<[Z.to_nat r := <[Z.to_nat c := s]> (g !!! Z.to_nat r)]> g).
Proof.
  intros Hg Hr Hc. unfold set_cell.
  rewrite py_index_in_range by (destruct Hg as [-> _]; lia).
  rewrite (grid_shape_row g (Z.to_nat r) Hg) by lia.
  rewrite py_index_in_range by lia. reflexivity.
Qed.

Lemma grid_shape_insert g i j s :
  grid_shape g -> grid_shape (<[i := <[j := s]> (g !!! i)]> g).
Proof.
  intros [Hl Hr]. split; [rewrite length_insert; assumption|].
  destruct (decide (i < length g)%nat) as [Hi|Hi].
  - apply Forall_insert; [assumption|]. rewrite length_insert.
    rewrite Forall_forall in Hr. apply Hr. apply list_elem_of_lookup_total_2. assumption.
  - rewrite list_insert_ge by lia. assumption.
Qed.

Lemma cell_insert g i j s i' j' :
  grid_shape g -> (i < 3)%nat -> (j < 12)%nat ->
  cell (<[i := <[j := s]> (g !!! i)]> g) i' j'
  = if decide (i' = i /\ j' = j) then s else cell g i' j'.
Proof.
  intros Hg Hi Hj. unfold cell.
  pose proof (grid_shape_row g i Hg Hi) as Hrow. destruct Hg as [Hl _].
  destruct (decide (i' = i)) as [->|Hne].
  - rewrite list_lookup_total_insert_eq by lia.
    destruct (decide (j' = j)) as [->|Hnj].
    + rewrite decide_True by auto. apply list_lookup_total_insert_eq. lia.
    + rewrite decide_False by (intros [_ ?]; contradiction).
      apply list_lookup_total_insert_ne. congruence.
  - rewrite decide_False by (intros [? _]; contradiction).
    rewrite list_lookup_total_insert_ne by congruence. reflexivity.
Qed.

(** What [fill_grid] needs of the items: keys are not repeated, every key
    but the space lies inside the grid, the space lies on row 3, and no two
    keys share a cell. *)
Record grid_items (items : list (char * Position)) : Prop := {
  items_keys : NoDup items.*1;
  items_inside : forall c p, (c, p) ∈ items -> c <> SPACE ->
    0 <= row p < 3 /\ 0 <= col p < 12;
  items_space : forall p, (SPACE, p) ∈ items -> row p = 3;
  items_cells : forall c p c' p', (c, p) ∈ items -> (c', p') ∈ items ->
    c <> SPACE -> c' <> SPACE -> row p = row p' -> col p = col p' -> c = c'
}.

Lemma grid_items_tail item items : grid_items (item :: items) -> grid_items items.
Proof.
  intros [Hk Hi Hs Hc]. split.
  - rewrite fmap_cons in Hk. apply NoDup_cons in Hk as [_ Hk]. assumption.
  - intros c p Hin. apply Hi. right. assumption.
  - intros p Hin. apply Hs. right. assumption.
  - intros c p c' p' Hin Hin'. apply Hc; right; assumption.
Qed.

Lemma fill_grid_spec items : forall g,
  grid_shape g -> grid_items items ->
  exists g', fill_grid items g = Ok g' /\ grid_shape g' /\
    (forall c p, (c, p) ∈ items -> c <> SPACE ->
       cell g' (Z.to_nat (row p)) (Z.to_nat (col p)) = [c]) /\
    (forall i j,
       (forall c p, (c, p) ∈ items -> c <> SPACE ->
          ~ (row p = Z.of_nat i /\ col p = Z.of_nat j)) ->
       cell g' i j = cell g i j).
Proof.
  induction items as [|[c0 p0] items IH]; intros g Hg Hit.
  { exists g. split; [reflexivity|]. split; [assumption|].
    split; [intros c p Hin; inversion Hin|reflexivity]. }
  pose proof (grid_items_tail _ _ Hit) as Hit'.
  cbn [fill_grid grid_step].
  destruct (N.eqb_spec c0 SPACE) as [->|Hne]; cbn [negb andb].
  - destruct (IH g Hg Hit') as (g' & Hf & Hs & Hcells & Hrest).
    exists g'. split; [assumption|]. split; [assumption|]. split.
    + intros c p Hin Hc. apply elem_of_cons in Hin as [[= -> ->]|Hin]; [congruence|auto].
    + intros i j Hfree. apply Hrest. intros c p Hin. apply Hfree. right. assumption.
  - destruct (items_inside _ Hit c0 p0 ltac:(left) Hne) as [Hr Hc].
    assert (Hlt : (row p0 <? 3) = true) by (apply Z.ltb_lt; lia).
    rewrite Hlt, set_cell_in_range by assumption.
    set (g1 := <[Z.to_nat (row p0) := <[Z.to_nat (col p0) := [c0]]>
                                        (g !!! Z.to_nat (row p0))]> g).
    assert (Hg1 : grid_shape g1) by (apply grid_shape_insert; assumption).
    destruct (IH g1 Hg1 Hit') as (g' & Hf & Hs & Hcells & Hrest).
    exists g'. split; [assumption|]. split; [assumption|]. split.
    + intros c p Hin Hcne. apply elem_of_cons in Hin as [[= -> ->]|Hin]; [|auto].
      rewrite Hrest.
      * unfold g1. rewrite cell_insert by (assumption || lia).
        rewrite decide_True by auto. reflexivity.
      * intros c p Hin Hcne' [Er Ec].
        assert (c = c0).
        { apply (items_cells _ Hit c p c0 p0); [right; assumption|left|assumption..| |];
            lia. }
        subst c. pose proof (items_keys _ Hit) as Hk.
        rewrite fmap_cons in Hk. apply NoDup_cons in Hk as [Hk _]. apply Hk.
        cbn [fst]. apply list_elem_of_fmap. exists (c0, p). auto.
    + intros i j Hfree. rewrite Hrest.
      * unfold g1. rewrite cell_insert by (assumption || lia).
        rewrite decide_False; [reflexivity|].
        intros [-> ->]. apply (Hfree c0 p0); [left|assumption|]. lia.
      * intros c p Hin. apply Hfree. right. assumption.
Qed.

Lemma valid_case d c p :
  valid_layout d -> d !! c = Some p ->
  ((c, p) ∈ anchors /\ c ∉ moveable_letters) \/
  (c ∈ moveable_letters /\ p ∈ moveable_positions).
Proof.
  intros Hv Hl. destruct (valid_dom d Hv c) as [[q Hq]|Hm]; [eauto| |].
  - left. pose proof (valid_anchors d Hv c q Hq) as Hl'.
    assert (q = p) by congruence. subst q. split.
    + apply base_layout_anchors. assumption.
    + intros Hm. rewrite (moveable_not_anchor c Hm) in Hq. discriminate.
  - right. split; [assumption|].
    destruct (valid_into d Hv c Hm) as (q & Hq & Hin). congruence.
Qed.

Lemma valid_slot d c p :
  valid_layout d -> d !! c = Some p -> p ∈ all_slots.
Proof.
  intros Hv Hl. unfold all_slots. apply elem_of_app.
  destruct (valid_case d c p Hv Hl) as [[Ha _]|[_ Hp]]; [left|right; assumption].
  apply list_elem_of_fmap. exists (c, p). auto.
Qed.

Lemma valid_inj_all d c c' p :
  valid_layout d -> d !! c = Some p -> d !! c' = Some p -> c = c'.
Proof.
  intros Hv Hl Hl'.
  destruct (valid_case d c p Hv Hl) as [[Ha Hn]|[Hm Hp]],
           (valid_case d c' p Hv Hl') as [[Ha' Hn']|[Hm' Hp']].
  - eapply anchors_inj; eassumption.
  - exfalso. eapply anchor_slot_not_moveable; eassumption.
  - exfalso. eapply anchor_slot_not_moveable; eassumption.
  - eapply (valid_inj d Hv); eassumption.
Qed.

Lemma valid_grid_items d items :
  valid_layout d -> items ≡ₚ map_to_list d -> grid_items items.
Proof.
  intros Hv Hperm.
  assert (Hin : forall c p, (c, p) ∈ items <-> d !! c = Some p).
  { intros c p. rewrite Hperm. apply elem_of_map_to_list. }
  assert (Hslots : Forall (fun p => 0 <= row p <= 3 /\ 0 <= col p < 12) all_slots)
    by by_evaluation.
  assert (Hcells : Forall (fun p => Forall (fun p' =>
            row p = row p' -> col p = col p' -> p = p') all_slots) all_slots)
    by by_evaluation.
  assert (Hthumb : Forall (fun cp => cp.1 = SPACE <-> row cp.2 = 3) anchors)
    by by_evaluation.
  assert (Hrows : Forall (fun p => row p <> 3) moveable_positions) by by_evaluation.
  assert (Hsp : SPACE ∉ moveable_letters) by by_evaluation.
  rewrite Forall_forall in Hslots. rewrite Forall_forall in Hcells.
  rewrite Forall_forall in Hthumb. rewrite Forall_forall in Hrows.
  split.
  - rewrite Hperm. apply NoDup_fst_map_to_list.
  - intros c p Hi Hne. apply Hin in Hi.
    pose proof (Hslots p (valid_slot d c p Hv Hi)) as [Hr Hc]. split; [|assumption].
    assert (row p <> 3); [|lia].
    destruct (valid_case d c p Hv Hi) as [[Ha _]|[_ Hp]]; [|auto].
    intros E. apply Hne. apply (Hthumb (c, p) Ha). assumption.
  - intros p Hi. apply Hin in Hi.
    destruct (valid_case d SPACE p Hv Hi) as [[Ha _]|[Hm _]]; [|contradiction].
    apply (Hthumb (SPACE, p) Ha). reflexivity.
  - intros c p c' p' Hi Hi' _ _ Er Ec. apply Hin in Hi, Hi'.
    assert (p = p').
    { specialize (Hcells p (valid_slot d c p Hv Hi)).
      rewrite Forall_forall in Hcells.
      apply (Hcells p' (valid_slot d c' p' Hv Hi')); assumption. }
    subst p'. eapply valid_inj_all; eassumption.
Qed.

(** X29. For a layout that initialization and mutations produce, and for
    every order in which the dict lists its items, the grid built by [main]
    is filled without an error, has 3 rows of 12 cells, shows every
    character other than the space in the cell of its row and column, and
    leaves every other cell empty. *)
Theorem exported_grid_shows_layout d items :
  produced d -> items ≡ₚ map_to_list d ->
  exists g,
    layout_grid items = Ok g /\
    length g = 3%nat /\ Forall (fun r => length r = 12%nat) g /\
    (forall c p, d !! c = Some p -> c <> SPACE ->
       cell g (Z.to_nat (row p)) (Z.to_nat (col p)) = [c]) /\
    (forall i j, (i < 3)%nat -> (j < 12)%nat ->
       (forall c p, d !! c = Some p -> c <> SPACE ->
          ~ (row p = Z.of_nat i /\ col p = Z.of_nat j)) ->
       cell g i j = []).
Proof.
  intros Hp Hperm. pose proof (produced_valid d Hp) as Hv.
  assert (Hin : forall c p, (c, p) ∈ items <-> d !! c = Some p).
  { intros c p. rewrite Hperm. apply elem_of_map_to_list. }
  assert (H0 : grid_shape (replicate 3 (replicate 12 []))).
  { split; [reflexivity|]. repeat constructor. }
  destruct (fill_grid_spec items _ H0 (valid_grid_items d items Hv Hperm))
    as (g & Hf & [Hl Hr] & Hcells & Hrest).
  exists g. split; [exact Hf|]. split; [assumption|]. split; [assumption|]. split.
  - intros c p Hd. apply Hcells, Hin. assumption.
  - intros i j Hi Hj Hfree. rewrite Hrest.
    + unfold cell. rewrite !lookup_total_replicate_2 by lia. reflexivity.
    + intros c p Hi'. apply Hfree, Hin. assumption.
Qed.

Lemma exported_grid_shows_layout_witness :
  exists g,
    layout_grid (map_to_list mutated_example) = Ok g /\
    length g = 3%nat /\ Forall (fun r => length r = 12%nat) g /\
    (forall c p, mutated_example !! c = Some p -> c <> SPACE ->
       cell g (Z.to_nat (row p)) (Z.to_nat (col p)) = [c]) /\
    (forall i j, (i < 3)%nat -> (j < 12)%nat ->
       (forall c p, mutated_example !! c = Some p -> c <> SPACE ->
          ~ (row p = Z.of_nat i /\ col p = Z.of_nat j)) ->
       cell g i j = []).
Proof.
  apply (exported_grid_shows_layout mutated_example (map_to_list mutated_example)).
  - apply (produced_mutation (assign_shuffled moveable_letters moveable_positions) 0 23).
    + apply produced_random; reflexivity.
    + vm_compute. reflexivity.
  - reflexivity.
Defined.
